(** * The issue reconciliation engine of advanced-git-sync

    A shallow embedding of [src/sync/issues.ts]: the two comparators
    ([compareIssues], [compareComments]), the backlink annotator
    ([prepareSourceLink]) and the orchestrator ([syncIssues],
    [syncIssueComments]) with its per-item failure isolation.

    The engine is asynchronous but strictly sequential (every client call is
    awaited before the next statement runs), so it is embedded in a
    state-and-exception monad that also collects, in order, the client calls
    and the log lines it emits. Issues and comments are objects of a store
    and arrays hold references to them: the comparators read the store, the
    [create] case allocates its payload in it, and nothing ever writes to an
    existing object. The two tracker clients are parameters: records of
    operations on an outside world, each free to return or to throw.

    The source also holds the array normaliser of the configuration
    loader ([normalizeYamlArrays]), a pure function on parsed documents; it
    is embedded in the module [Yaml], over values whose objects carry
    their prototype and their properties in enumeration order.

    The file has the definitions first (JavaScript values, data model,
    monad, comparators, orchestrator, the predicates the theorems are
    stated with, the normaliser, and the scenarios the witnesses run) and
    the theorems after them. *)

From Stdlib Require Import ZArith List String Ascii Bool Lia.
From Stdlib Require Import DecimalString Permutation.
Import ListNotations.

Local Open Scope list_scope.
Local Open Scope string_scope.

(** ** JavaScript values *)

Module Js.

(** An optional string field: [undefined], [null] or a string. *)
Inductive optString : Type :=
| undefined
| null
| str (s : string).

(** [a === b] on optional strings. *)
Definition strictEq (a b : optString) : bool :=
  match a, b with
  | undefined, undefined => true
  | null, null => true
  | str x, str y => String.eqb x y
  | _, _ => false
  end.

(** [v || ''] : every falsy value (undefined, null, the empty string)
    gives the empty string. *)
Definition orEmpty (v : optString) : string :=
  match v with
  | str s => s
  | undefined | null => ""
  end.

(** [val === b[index]] where [b[index]] is [undefined] out of range. *)
Definition strictEqAt (val : string) (elem : option string) : bool :=
  match elem with
  | Some x => String.eqb val x
  | None => false
  end.

(** [`${n}`] for an integer [n] (issue numbers and counts): its decimal
    digits, with a leading minus sign when negative. *)
Definition numberToString (n : Z) : string :=
  NilZero.string_of_int (Z.to_int n).

Arguments numberToString : simpl never.

(** A thrown value: an [Error] object with its message, or anything else,
    kept as the text [String(error)] would give. *)
Inductive thrown : Type :=
| ErrorObject (message : string)
| NonError (text : string).

(** [error instanceof Error ? error.message : String(error)] *)
Definition messageOf (error : thrown) : string :=
  match error with
  | ErrorObject message => message
  | NonError text => text
  end.

Definition dquote : string := String (ascii_of_nat 34) EmptyString.
Definition nl : string := String (ascii_of_nat 10) EmptyString.

(** [a[i]] for a possibly negative integer index. *)
Definition index {A : Type} (a : list A) (i : Z) : option A :=
  if (i <? 0)%Z then None else nth_error a (Z.to_nat i).

(** [a.every((val, index) => f(val, index))] *)
Fixpoint everyFrom {A : Type} (f : A -> nat -> bool) (i : nat) (a : list A)
  : bool :=
  match a with
  | [] => true
  | val :: rest => f val i && everyFrom f (S i) rest
  end.

Definition every {A : Type} (f : A -> nat -> bool) (a : list A) : bool :=
  everyFrom f 0 a.

(** [a.push(x)], as the array after the call. *)
Definition push {A : Type} (a : list A) (x : A) : list A := (a ++ [x])%list.

End Js.

(** ** Data model (the records of [../types]) *)

(** Objects live in a store and arrays hold references to them, so that
    reference identity ([!==] on objects) and the absence of mutation can be
    stated. *)
Definition ref : Type := nat.

Inductive IssueState : Type := open | closed.

Definition IssueState_eqb (a b : IssueState) : bool :=
  match a, b with
  | open, open | closed, closed => true
  | _, _ => false
  end.

Module Issue.
(** Modelled from the spec: the [Issue] interface, declared in [../types]:
    number, title, optional body, state (open or closed) and the list of
    labels. *)
Record t : Type := mk {
  number : Z;
  title : string;
  body : Js.optString;
  state : IssueState;
  labels : list string
}.
End Issue.

Module Comment.
(** Modelled from the spec: the [Comment] interface, declared in
    [../types]; the engine reads its body only. *)
Record t : Type := mk {
  body : string
}.
End Comment.

Inductive Action : Type := create | update | skip.

Module IssueComparison.
(** Modelled from the spec: [{ sourceIssue, targetIssue?, action }]. *)
Record t : Type := mk {
  sourceIssue : ref;
  targetIssue : option ref;
  action : Action
}.
End IssueComparison.

Module CommentComparison.
(** Modelled from the spec: [{ sourceComment, action }]. *)
Record t : Type := mk {
  sourceComment : ref;
  action : Action
}.
End CommentComparison.

Module RepoInfo.
(** Modelled from the spec: the repository descriptor, [{ url }]. *)
Record t : Type := mk {
  url : string
}.
End RepoInfo.

(** ** Results, tracker clients and observable events *)

Inductive Result (A : Type) : Type :=
| Ok (a : A)
| Throw (error : Js.thrown).

Arguments Ok {A} a.
Arguments Throw {A} error.

Module Client.
(** The capability set of a tracker client ([GitHubClient | GitLabClient]).
    Its internals are external to the engine: every operation is an
    arbitrary transition of the outside world [W] that either returns or
    throws. A client works on the records it is handed and on those it
    returns; it does not write to the objects the engine holds. *)
Record t (W : Type) : Type := mk {
  syncIssues : W -> Result (list Issue.t) * W;
  getIssueComments : Z -> W -> Result (list Comment.t) * W;
  createIssue : Issue.t -> W -> Result unit * W;
  updateIssue : Z -> Issue.t -> W -> Result unit * W;
  createIssueComment : Z -> Comment.t -> W -> Result unit * W;
  getRepoInfo : W -> Result RepoInfo.t * W
}.
Arguments syncIssues {W}.
Arguments getIssueComments {W}.
Arguments createIssue {W}.
Arguments updateIssue {W}.
Arguments createIssueComment {W}.
Arguments getRepoInfo {W}.
End Client.

Inductive Side : Type := Source | Target.

(** A call the engine makes on a client, with the object it passes (its
    reference and its fields at the time of the call). *)
Inductive Request : Type :=
| SyncIssues
| GetIssueComments (issueNumber : Z)
| CreateIssue (payload : ref) (fields : Issue.t)
| UpdateIssue (issueNumber : Z) (payload : ref) (fields : Issue.t)
| CreateIssueComment (issueNumber : Z) (payload : ref) (fields : Comment.t)
| GetRepoInfo.

(** The log levels of [@actions/core]. *)
Inductive Level : Type := Debug | Info | Warning | Error.

Inductive Event : Type :=
| Log (level : Level) (message : string)
| Call (side : Side) (request : Request).

(** The operations that change the target tracker. *)
Definition isMutation (e : Event) : bool :=
  match e with
  | Call _ (CreateIssue _ _) => true
  | Call _ (UpdateIssue _ _ _) => true
  | Call _ (CreateIssueComment _ _ _) => true
  | _ => false
  end.

(** The operations on comments. *)
Definition isCommentOperation (e : Event) : bool :=
  match e with
  | Call _ (GetIssueComments _) => true
  | Call _ (CreateIssueComment _ _ _) => true
  | _ => false
  end.

Definition isCommentFetch (e : Event) : bool :=
  match e with
  | Call _ (GetIssueComments _) => true
  | _ => false
  end.

Definition isWarning (e : Event) : bool :=
  match e with
  | Log Warning _ => true
  | _ => false
  end.

Definition isDebugLog (e : Event) : bool :=
  match e with
  | Log Debug _ => true
  | _ => false
  end.

(** ** The machine and the engine monad *)

(** The state a pass runs in: the outside world of the two trackers, and the
    store of issue and comment objects with its allocation pointer. *)
Record Machine (W : Type) : Type := mkMachine {
  world : W;
  issueAt : ref -> Issue.t;
  commentAt : ref -> Comment.t;
  nextRef : ref
}.

Arguments mkMachine {W}.
Arguments world {W}.
Arguments issueAt {W}.
Arguments commentAt {W}.
Arguments nextRef {W}.

(** What a computation leaves: its result or the value it threw, the
    machine it reached, and the calls and log lines it emitted, in order. *)
Record Outcome (W A : Type) : Type := mkOutcome {
  result : Result A;
  final : Machine W;
  events : list Event
}.

Arguments mkOutcome {W A}.
Arguments result {W A}.
Arguments final {W A}.
Arguments events {W A}.

Definition M (W A : Type) : Type := Machine W -> Outcome W A.

Section Monad.
Context {W : Type}.

Definition ret {A : Type} (a : A) : M W A :=
  fun m => mkOutcome (Ok a) m [].

Definition throw {A : Type} (e : Js.thrown) : M W A :=
  fun m => mkOutcome (Throw e) m [].

Definition bind {A B : Type} (c : M W A) (k : A -> M W B) : M W B :=
  fun m =>
    match c m with
    | mkOutcome (Ok a) m1 events1 =>
        match k a m1 with
        | mkOutcome r m2 events2 => mkOutcome r m2 (events1 ++ events2)%list
        end
    | mkOutcome (Throw e) m1 events1 => mkOutcome (Throw e) m1 events1
    end.

(** [try { body } catch (error) { handler }] : the handler starts in the
    state the body had reached when it threw. *)
Definition tryCatch {A : Type} (body : M W A) (handler : Js.thrown -> M W A)
  : M W A :=
  fun m =>
    match body m with
    | mkOutcome (Ok a) m1 events1 => mkOutcome (Ok a) m1 events1
    | mkOutcome (Throw e) m1 events1 =>
        match handler e m1 with
        | mkOutcome r m2 events2 => mkOutcome r m2 (events1 ++ events2)%list
        end
    end.

(** [for (const x of xs) { acc = body(x, acc) }] *)
Fixpoint forOf {A B : Type} (xs : list A) (body : A -> B -> M W B) (acc : B)
  : M W B :=
  match xs with
  | [] => ret acc
  | x :: rest => bind (body x acc) (forOf rest body)
  end.

(** Logging through [@actions/core]. *)
Definition log (level : Level) (message : string) : M W unit :=
  fun m => mkOutcome (Ok tt) m [Log level message].

Definition core_debug : string -> M W unit := log Debug.
Definition core_info : string -> M W unit := log Info.
Definition core_warning : string -> M W unit := log Warning.
Definition core_error : string -> M W unit := log Error.

(** Field access on an issue or comment object. *)
Definition readIssue (r : ref) : M W Issue.t :=
  fun m => mkOutcome (Ok (issueAt m r)) m [].

Definition readComment (r : ref) : M W Comment.t :=
  fun m => mkOutcome (Ok (commentAt m r)) m [].

(** Object creation: a fresh reference, nothing else changes. *)
Definition newIssue (fields : Issue.t) : M W ref :=
  fun m =>
    let r := nextRef m in
    mkOutcome (Ok r)
      (mkMachine (world m)
         (fun x => if Nat.eqb x r then fields else issueAt m x)
         (commentAt m) (S r))
      [].

Definition newComment (fields : Comment.t) : M W ref :=
  fun m =>
    let r := nextRef m in
    mkOutcome (Ok r)
      (mkMachine (world m) (issueAt m)
         (fun x => if Nat.eqb x r then fields else commentAt m x)
         (S r))
      [].

(** [array.find(p)] and [array.some(p)] over arrays of objects. *)
Definition findIssue (p : Issue.t -> bool) (a : list ref) : M W (option ref) :=
  fun m => mkOutcome (Ok (find (fun r => p (issueAt m r)) a)) m [].

Definition someComment (p : Comment.t -> bool) (a : list ref) : M W bool :=
  fun m => mkOutcome (Ok (existsb (fun r => p (commentAt m r)) a)) m [].

(** An awaited call on a client. *)
Definition call {A : Type} (side : Side) (request : Request)
    (operation : W -> Result A * W) : M W A :=
  fun m =>
    let (r, w) := operation (world m) in
    mkOutcome r (mkMachine w (issueAt m) (commentAt m) (nextRef m))
      [Call side request].

End Monad.

Declare Scope engine_scope.
Delimit Scope engine_scope with engine.
Notation "x <- c ;; k" := (bind c (fun x => k))
  (at level 61, c at next level, right associativity) : engine_scope.
Notation "c ;; k" := (bind c (fun _ => k))
  (at level 61, right associativity) : engine_scope.
Local Open Scope engine_scope.

(** ** The comparators *)

(** [arraysEqual], lines 7-9. *)
Definition arraysEqual (a b : list string) : bool :=
  Nat.eqb (List.length a) (List.length b)
  && Js.every (fun val index => Js.strictEqAt val (nth_error b index)) a.

Section Comparators.
Context {W : Type}.

(** The body of the loop of [compareIssues], lines 17-52: one source issue
    is compared and its comparison pushed. *)
Definition compareIssue (targetIssues : list ref) (sourceIssue : ref)
    (comparisons : list IssueComparison.t) : M W (list IssueComparison.t) :=
  source <- readIssue sourceIssue ;;
  targetIssue <-
    findIssue
      (fun target => String.eqb (Issue.title target) (Issue.title source))
      targetIssues ;;
  match targetIssue with
  | None =>
      let comparisons :=
        Js.push comparisons (IssueComparison.mk sourceIssue None create) in
      core_debug ("Issue " ++ Js.dquote ++ Issue.title source
                  ++ Js.dquote ++ " will be created in target") ;;
      ret comparisons
  | Some targetIssue =>
      target <- readIssue targetIssue ;;
      if negb (Js.strictEq (Issue.body source) (Issue.body target))
         || negb (IssueState_eqb (Issue.state source) (Issue.state target))
         || negb (arraysEqual (Issue.labels source) (Issue.labels target))
      then
        let comparisons :=
          Js.push comparisons
            (IssueComparison.mk sourceIssue (Some targetIssue) update) in
        core_debug ("Issue " ++ Js.dquote ++ Issue.title source
                    ++ Js.dquote ++ " will be updated in target") ;;
        ret comparisons
      else
        let comparisons :=
          Js.push comparisons
            (IssueComparison.mk sourceIssue (Some targetIssue) skip) in
        core_debug ("Issue " ++ Js.dquote ++ Issue.title source
                    ++ Js.dquote ++ " is up to date") ;;
        ret comparisons
  end.

(** [compareIssues], lines 11-55. *)
Definition compareIssues (sourceIssues targetIssues : list ref)
  : M W (list IssueComparison.t) :=
  forOf sourceIssues (compareIssue targetIssues) [].

(** [compareComments], lines 66-98. *)
Definition compareComments (sourceComments targetComments : list ref)
  : M W (list CommentComparison.t) :=
  let comparisons : list CommentComparison.t := [] in
  let openingComment := Js.index sourceComments 0 in
  let closingComment :=
    Js.index sourceComments (Z.of_nat (List.length sourceComments) - 1) in
  comparisons <-
    match openingComment with
    | Some opening =>
        o <- readComment opening ;;
        present <-
          someComment
            (fun c => String.eqb (Comment.body c) (Comment.body o))
            targetComments ;;
        if negb present
        then ret (Js.push comparisons (CommentComparison.mk opening create))
        else ret comparisons
    | None => ret comparisons
    end ;;
  match closingComment with
  | Some closing =>
      if match openingComment with
         | Some opening => negb (Nat.eqb closing opening)
         | None => true
         end
      then
        c <- readComment closing ;;
        present <-
          someComment
            (fun t => String.eqb (Comment.body t) (Comment.body c))
            targetComments ;;
        if negb present
        then ret (Js.push comparisons (CommentComparison.mk closing create))
        else ret comparisons
      else ret comparisons
  | None => ret comparisons
  end.

End Comparators.

(** ** The orchestrator *)

Definition Action_eqb (a b : Action) : bool :=
  match a, b with
  | create, create | update, update | skip, skip => true
  | _, _ => false
  end.

Section Engine.
Context {W : Type}.

(** A client together with the role it plays in the pass. *)
Record Tracker : Type := connect {
  role : Side;
  client : Client.t W
}.

(** The calls on a client. Fetched records become fresh objects of the
    store, in the order the client returned them; the client is handed the
    fields of the object it is passed. *)
Definition allocIssues (fetched : list Issue.t) : M W (list ref) :=
  forOf fetched (fun fields refs => r <- newIssue fields ;; ret (Js.push refs r)) [].

Definition allocComments (fetched : list Comment.t) : M W (list ref) :=
  forOf fetched (fun fields refs => r <- newComment fields ;; ret (Js.push refs r)) [].

Definition client_syncIssues (c : Tracker) : M W (list ref) :=
  fetched <- call (role c) SyncIssues (Client.syncIssues (client c)) ;;
  allocIssues fetched.

Definition client_getIssueComments (c : Tracker) (issueNumber : Z)
  : M W (list ref) :=
  fetched <- call (role c) (GetIssueComments issueNumber)
               (Client.getIssueComments (client c) issueNumber) ;;
  allocComments fetched.

Definition client_createIssue (c : Tracker) (issue : ref) : M W unit :=
  fields <- readIssue issue ;;
  call (role c) (CreateIssue issue fields) (Client.createIssue (client c) fields).

Definition client_updateIssue (c : Tracker) (issueNumber : Z) (issue : ref)
  : M W unit :=
  fields <- readIssue issue ;;
  call (role c) (UpdateIssue issueNumber issue fields)
    (Client.updateIssue (client c) issueNumber fields).

Definition client_createIssueComment (c : Tracker) (issueNumber : Z)
    (comment : ref) : M W unit :=
  fields <- readComment comment ;;
  call (role c) (CreateIssueComment issueNumber comment fields)
    (Client.createIssueComment (client c) issueNumber fields).

Definition client_getRepoInfo (c : Tracker) : M W RepoInfo.t :=
  call (role c) GetRepoInfo (Client.getRepoInfo (client c)).

(** [prepareSourceLink], lines 57-64. *)
Definition prepareSourceLink (sourceClient : Tracker) (sourceIssue : ref)
  : M W string :=
  repoInfo <- client_getRepoInfo sourceClient ;;
  issue <- readIssue sourceIssue ;;
  ret ("**Original Issue**: [" ++ Issue.title issue ++ "]("
       ++ RepoInfo.url repoInfo ++ "/issues/"
       ++ Js.numberToString (Issue.number issue) ++ ")").

(** [createIssue], lines 206-213. *)
Definition createIssue (target : Tracker) (comparison : IssueComparison.t)
  : M W unit :=
  issue <- readIssue (IssueComparison.sourceIssue comparison) ;;
  core_info ("📝 Creating issue " ++ Js.dquote ++ Issue.title issue ++ Js.dquote) ;;
  client_createIssue target (IssueComparison.sourceIssue comparison) ;;
  core_info ("✓ Created issue " ++ Js.dquote ++ Issue.title issue ++ Js.dquote).

(** [updateIssue], lines 215-227. *)
Definition updateIssue (target : Tracker) (comparison : IssueComparison.t)
  : M W unit :=
  match IssueComparison.targetIssue comparison with
  | None => ret tt
  | Some targetIssue =>
      issue <- readIssue (IssueComparison.sourceIssue comparison) ;;
      core_info ("📝 Updating issue " ++ Js.dquote ++ Issue.title issue
                 ++ Js.dquote) ;;
      existing <- readIssue targetIssue ;;
      client_updateIssue target (Issue.number existing)
        (IssueComparison.sourceIssue comparison) ;;
      core_info ("✓ Updated issue " ++ Js.dquote ++ Issue.title issue
                 ++ Js.dquote)
  end.

(** [createComment], lines 229-237. *)
Definition createComment (target : Tracker) (issueNumber : Z)
    (comparison : CommentComparison.t) : M W unit :=
  core_info ("💬 Creating comment in issue #" ++ Js.numberToString issueNumber) ;;
  client_createIssueComment target issueNumber
    (CommentComparison.sourceComment comparison) ;;
  core_info ("✓ Created comment in issue #" ++ Js.numberToString issueNumber).

(** [logSyncPlan], lines 239-250. *)
Definition countAction (a : Action) (comparisons : list IssueComparison.t) : Z :=
  Z.of_nat
    (List.length
       (filter (fun c => Action_eqb (IssueComparison.action c) a) comparisons)).

Definition logSyncPlan (comparisons : list IssueComparison.t) : M W unit :=
  let creates := countAction create comparisons in
  let updates := countAction update comparisons in
  let skips := countAction skip comparisons in
  core_info (Js.nl ++ "📊 Sync Plan Summary:" ++ Js.nl
             ++ "  - Create: " ++ Js.numberToString creates ++ " issues" ++ Js.nl
             ++ "  - Update: " ++ Js.numberToString updates ++ " issues" ++ Js.nl
             ++ "  - Skip: " ++ Js.numberToString skips
             ++ " issues (already in sync)" ++ Js.nl).

(** One iteration of the loop of [syncIssueComments], lines 185-195. *)
Definition processCommentComparison (target : Tracker) (targetIssueNumber : Z)
    (comparison : CommentComparison.t) : M W unit :=
  tryCatch
    (if Action_eqb (CommentComparison.action comparison) create
     then createComment target targetIssueNumber comparison
     else ret tt)
    (fun error =>
       core_warning ("Failed to sync comment in issue #"
                     ++ Js.numberToString targetIssueNumber ++ ": "
                     ++ Js.messageOf error)).

(** The loop of [syncIssueComments], lines 184-196. *)
Definition processAllComments (target : Tracker) (targetIssueNumber : Z)
    (commentComparisons : list CommentComparison.t) : M W unit :=
  forOf commentComparisons
    (fun comparison _ =>
       processCommentComparison target targetIssueNumber comparison) tt.

(** [syncIssueComments], lines 172-204. *)
Definition syncIssueComments (source target : Tracker)
    (sourceIssueNumber targetIssueNumber : Z) : M W unit :=
  tryCatch
    (sourceComments <- client_getIssueComments source sourceIssueNumber ;;
     targetComments <- client_getIssueComments target targetIssueNumber ;;
     commentComparisons <- compareComments sourceComments targetComments ;;
     processAllComments target targetIssueNumber commentComparisons)
    (fun error =>
       core_warning ("Failed to sync comments for issue #"
                     ++ Js.numberToString sourceIssueNumber ++ ": "
                     ++ Js.messageOf error)).

(** The [switch] on the action of a comparison, lines 119-141. *)
Definition performAction (source target : Tracker)
    (comparison : IssueComparison.t) : M W unit :=
  match IssueComparison.action comparison with
  | create =>
      sourceLink <-
        prepareSourceLink source (IssueComparison.sourceIssue comparison) ;;
      issue <- readIssue (IssueComparison.sourceIssue comparison) ;;
      issueToCreate <-
        newIssue
          (Issue.mk (Issue.number issue) (Issue.title issue)
             (Js.str (Js.orEmpty (Issue.body issue) ++ Js.nl ++ Js.nl
                      ++ sourceLink))
             (Issue.state issue) (Issue.labels issue)) ;;
      createIssue target (IssueComparison.mk issueToCreate None create)
  | update => updateIssue target comparison
  | skip =>
      issue <- readIssue (IssueComparison.sourceIssue comparison) ;;
      core_info ("⏭️ Skipping " ++ Js.dquote ++ Issue.title issue ++ Js.dquote
                 ++ " - already in sync")
  end.

(** The guarded statements of one iteration, lines 119-151. *)
Definition processBody (source target : Tracker)
    (comparison : IssueComparison.t) : M W unit :=
  performAction source target comparison ;;
  match IssueComparison.targetIssue comparison with
  | Some targetIssue =>
      issue <- readIssue (IssueComparison.sourceIssue comparison) ;;
      existing <- readIssue targetIssue ;;
      syncIssueComments source target (Issue.number issue)
        (Issue.number existing)
  | None => ret tt
  end.

(** One iteration of the execution loop, lines 118-158. *)
Definition processComparison (source target : Tracker)
    (comparison : IssueComparison.t) : M W unit :=
  tryCatch
    (processBody source target comparison)
    (fun error =>
       issue <- readIssue (IssueComparison.sourceIssue comparison) ;;
       core_warning ("Failed to process issue " ++ Js.dquote
                     ++ Issue.title issue ++ Js.dquote ++ ": "
                     ++ Js.messageOf error)).

(** The execution loop, lines 117-159. *)
Definition processAll (source target : Tracker)
    (issueComparisons : list IssueComparison.t) : M W unit :=
  forOf issueComparisons
    (fun comparison _ => processComparison source target comparison) tt.

(** [syncIssues], lines 100-170. *)
Definition syncIssues (source target : Client.t W) : M W unit :=
  let source := connect Source source in
  let target := connect Target target in
  tryCatch
    (sourceIssues <- client_syncIssues source ;;
     targetIssues <- client_syncIssues target ;;
     issueComparisons <- compareIssues sourceIssues targetIssues ;;
     core_info (Js.nl ++ "🔍 Issue Sync Analysis:") ;;
     logSyncPlan issueComparisons ;;
     processAll source target issueComparisons ;;
     core_info "✓ Issue synchronization completed")
    (fun error =>
       core_error ("Issue synchronization failed: " ++ Js.messageOf error) ;;
       throw error).

End Engine.

Arguments Tracker W : clear implicits.

(** ** Properties the comparators are checked against *)

Section Predicates.
Context {W : Type}.
Variable m : Machine W.

(** Target [t] carries the title of source issue [s]. *)
Definition sameTitle (s t : ref) : Prop :=
  Issue.title (issueAt m t) = Issue.title (issueAt m s).

(** [found] is the first element of [targets] with the title of [s], if
    there is one. *)
Definition firstMatch (s : ref) (targets : list ref) (found : option ref)
  : Prop :=
  match found with
  | None => forall t, In t targets -> ~ sameTitle s t
  | Some t =>
      exists before after,
        targets = (before ++ t :: after)%list
        /\ sameTitle s t
        /\ forall t', In t' before -> ~ sameTitle s t'
  end.

(** The matched pair differs in body, state or label sequence. *)
Definition differs (s t : ref) : Prop :=
  Issue.body (issueAt m s) <> Issue.body (issueAt m t)
  \/ Issue.state (issueAt m s) <> Issue.state (issueAt m t)
  \/ Issue.labels (issueAt m s) <> Issue.labels (issueAt m t).

Definition expectedAction (s : ref) (found : option ref) (a : Action) : Prop :=
  match found with
  | None => a = create
  | Some t => (differs s t -> a = update) /\ (~ differs s t -> a = skip)
  end.

(** What [compareIssues] owes for one source issue. *)
Definition describes (targets : list ref) (c : IssueComparison.t) : Prop :=
  firstMatch (IssueComparison.sourceIssue c) targets
    (IssueComparison.targetIssue c)
  /\ expectedAction (IssueComparison.sourceIssue c)
       (IssueComparison.targetIssue c) (IssueComparison.action c).

(** Some comment of [targets] has the body of comment [c]. *)
Definition bodyPresent (targets : list ref) (c : ref) : Prop :=
  exists t, In t targets
            /\ Comment.body (commentAt m t) = Comment.body (commentAt m c).

End Predicates.

(** The comparison [compareIssues] computes for one source issue, as a
    function of the store. *)
Definition classify {W : Type} (m : Machine W) (targets : list ref) (s : ref)
  : IssueComparison.t :=
  let source := issueAt m s in
  match find (fun r => String.eqb (Issue.title (issueAt m r))
                         (Issue.title source)) targets with
  | None => IssueComparison.mk s None create
  | Some t =>
      let target := issueAt m t in
      if negb (Js.strictEq (Issue.body source) (Issue.body target))
         || negb (IssueState_eqb (Issue.state source) (Issue.state target))
         || negb (arraysEqual (Issue.labels source) (Issue.labels target))
      then IssueComparison.mk s (Some t) update
      else IssueComparison.mk s (Some t) skip
  end.

(** ** Properties of engine computations *)

(** The computation returns, whatever the machine it starts from. *)
Definition neverThrows {W A : Type} (c : M W A) : Prop :=
  forall m, exists a, result (c m) = Ok a.

(** Every event the computation emits satisfies [p]. *)
Definition emitsOnly {W A : Type} (p : Event -> bool) (c : M W A) : Prop :=
  forall m, forallb p (events (c m)) = true.

(** [m'] has every object of [m], with the fields it has in [m]. *)
Definition extends {W : Type} (m m' : Machine W) : Prop :=
  (nextRef m <= nextRef m')%nat
  /\ forall r, (r < nextRef m)%nat ->
               issueAt m' r = issueAt m r /\ commentAt m' r = commentAt m r.

(** The computation creates objects but never changes an existing one. *)
Definition preservesObjects {W A : Type} (c : M W A) : Prop :=
  forall m, extends m (final (c m)).

Definition notMutation (e : Event) : bool := negb (isMutation e).
Definition notCommentOperation (e : Event) : bool := negb (isCommentOperation e).
Definition notCommentFetch (e : Event) : bool := negb (isCommentFetch e).

(** ** The phases of a pass *)

(** The error of the first fetch that throws, if one does: the source list
    is fetched first, the target list next. *)
Definition fetchFailure {W : Type} (source target : Client.t W) (w : W)
  : option Js.thrown :=
  match Client.syncIssues source w with
  | (Throw e, _) => Some e
  | (Ok _, w1) =>
      match Client.syncIssues target w1 with
      | (Throw e, _) => Some e
      | (Ok _, _) => None
      end
  end.

(** The statements of [syncIssues] before the execution loop, lines
    106-114: fetch, compare and log the plan. *)
Definition planIssues {W : Type} (source target : Tracker W)
  : M W (list IssueComparison.t) :=
  sourceIssues <- client_syncIssues source ;;
  targetIssues <- client_syncIssues target ;;
  issueComparisons <- compareIssues sourceIssues targetIssues ;;
  core_info (Js.nl ++ "🔍 Issue Sync Analysis:") ;;
  logSyncPlan issueComparisons ;;
  ret issueComparisons.

Definition isCreateIssue (e : Event) : bool :=
  match e with
  | Call Target (CreateIssue _ _) => true
  | _ => false
  end.

(** The warning of the execution loop for a failed item. *)
Definition itemWarning {W : Type} (m : Machine W) (c : IssueComparison.t)
    (e : Js.thrown) : Event :=
  Log Warning
    ("Failed to process issue " ++ Js.dquote
     ++ Issue.title (issueAt m (IssueComparison.sourceIssue c)) ++ Js.dquote
     ++ ": " ++ Js.messageOf e).

(** The backlink line for an issue of a repository. *)
Definition backlink (repoInfo : RepoInfo.t) (issue : Issue.t) : string :=
  "**Original Issue**: [" ++ Issue.title issue ++ "](" ++ RepoInfo.url repoInfo
  ++ "/issues/" ++ Js.numberToString (Issue.number issue) ++ ")".

(** The payload built for a [create] comparison: the source issue with the
    backlink appended to its body. *)
Definition payloadFor (repoInfo : RepoInfo.t) (issue : Issue.t) : Issue.t :=
  Issue.mk (Issue.number issue) (Issue.title issue)
    (Js.str (Js.orEmpty (Issue.body issue) ++ Js.nl ++ Js.nl
             ++ backlink repoInfo issue))
    (Issue.state issue) (Issue.labels issue).

(** ** Further observations on a pass *)

Definition isUpdateIssue (e : Event) : bool :=
  match e with
  | Call Target (UpdateIssue _ _ _) => true
  | _ => false
  end.

Definition isGetRepoInfo (e : Event) : bool :=
  match e with
  | Call Source GetRepoInfo => true
  | _ => false
  end.

(** The calls that create or update an issue, on either side. *)
Definition isIssueMutation (e : Event) : bool :=
  match e with
  | Call _ (CreateIssue _ _) => true
  | Call _ (UpdateIssue _ _ _) => true
  | _ => false
  end.

Definition isCreateComment (e : Event) : bool :=
  match e with
  | Call _ (CreateIssueComment _ _ _) => true
  | _ => false
  end.

Definition notUpdateIssue (e : Event) : bool := negb (isUpdateIssue e).
Definition notGetRepoInfo (e : Event) : bool := negb (isGetRepoInfo e).
Definition notCreateIssue (e : Event) : bool := negb (isCreateIssue e).
Definition notIssueMutation (e : Event) : bool := negb (isIssueMutation e).
Definition notCreateComment (e : Event) : bool := negb (isCreateComment e).

(** The log line of a skipped comparison. *)
Definition skipLine {W : Type} (m : Machine W) (c : IssueComparison.t) : Event :=
  Log Info
    ("⏭️ Skipping " ++ Js.dquote
     ++ Issue.title (issueAt m (IssueComparison.sourceIssue c)) ++ Js.dquote
     ++ " - already in sync").

(** The log line that opens the creation of an issue. *)
Definition creatingLine {W : Type} (m : Machine W) (c : IssueComparison.t)
  : Event :=
  Log Info
    ("📝 Creating issue " ++ Js.dquote
     ++ Issue.title (issueAt m (IssueComparison.sourceIssue c)) ++ Js.dquote).

(** The update call of a comparison with target issue [t]: the number of
    the target issue, and the source issue with its fields. *)
Definition updateCall {W : Type} (m : Machine W) (c : IssueComparison.t)
    (t : ref) : Event :=
  Call Target
    (UpdateIssue (Issue.number (issueAt m t)) (IssueComparison.sourceIssue c)
       (issueAt m (IssueComparison.sourceIssue c))).

(** The comment records a synchronisation of [sourceComments] against
    [targetComments] has to create: the first source comment, and the last
    one when there are at least two, each unless a target comment already
    has its body. *)
Definition commentsToCreate (sourceComments targetComments : list Comment.t)
  : list Comment.t :=
  let missing c :=
    negb (existsb (fun t => String.eqb (Comment.body t) (Comment.body c))
            targetComments) in
  match sourceComments with
  | [] => []
  | first :: others =>
      ((if missing first then [first] else [])
       ++ match others with
          | [] => []
          | _ :: _ =>
              if missing (last others first) then [last others first] else []
          end)%list
  end.

(** The comment creations of a trace: the side called, the issue number
    and the comment passed. *)
Definition createdComments (trace : list Event)
  : list (Side * Z * Comment.t) :=
  flat_map
    (fun e =>
       match e with
       | Call side (CreateIssueComment n _ fields) => [(side, n, fields)]
       | _ => []
       end)
    trace.

(** The comparisons [compareComments] computes, as a function of the
    store. *)
Definition selectComments {W : Type} (m : Machine W)
    (sourceComments targetComments : list ref) : list CommentComparison.t :=
  let missing r :=
    negb (existsb
            (fun t => String.eqb (Comment.body (commentAt m t))
                        (Comment.body (commentAt m r))) targetComments) in
  ((match hd_error sourceComments with
    | Some opening =>
        if missing opening then [CommentComparison.mk opening create] else []
    | None => []
    end)
   ++ match hd_error (rev sourceComments) with
      | Some closing =>
          if match hd_error sourceComments with
             | Some opening => negb (Nat.eqb closing opening)
             | None => true
             end
          then if missing closing
               then [CommentComparison.mk closing create] else []
          else []
      | None => []
      end)%list.

(** The lines the pass logs around its plan. *)
Definition analysisLine : Event := Log Info (Js.nl ++ "🔍 Issue Sync Analysis:").

Definition summaryLine (comparisons : list IssueComparison.t) : Event :=
  Log Info
    (Js.nl ++ "📊 Sync Plan Summary:" ++ Js.nl
     ++ "  - Create: " ++ Js.numberToString (countAction create comparisons)
     ++ " issues" ++ Js.nl
     ++ "  - Update: " ++ Js.numberToString (countAction update comparisons)
     ++ " issues" ++ Js.nl
     ++ "  - Skip: " ++ Js.numberToString (countAction skip comparisons)
     ++ " issues (already in sync)" ++ Js.nl).

Definition completedLine : Event :=
  Log Info "✓ Issue synchronization completed".

(** Source record [v] is in sync with the target records: the first target
    record with its title has its body, state and labels. *)
Definition inSync (targets : list Issue.t) (v : Issue.t) : Prop :=
  exists t,
    find (fun t => String.eqb (Issue.title t) (Issue.title v)) targets = Some t
    /\ Issue.body t = Issue.body v
    /\ Issue.state t = Issue.state v
    /\ Issue.labels t = Issue.labels v.

(** A comparison of the execution loop that calls update-issue, and one
    that attempts a creation. *)
Definition needsUpdate (c : IssueComparison.t) : bool :=
  match IssueComparison.action c, IssueComparison.targetIssue c with
  | update, Some _ => true
  | _, _ => false
  end.

Definition needsCreate (c : IssueComparison.t) : bool :=
  Action_eqb (IssueComparison.action c) create.

(** ** The array normaliser of the configuration loader *)

(** [normalizeYamlArrays] walks a parsed configuration document, a value of
    type [any], and turns an array that was parsed as an object back into
    an array. *)

Module Yaml.

(** The prototype of an object: the ordinary one, none, or another
    value. *)
Inductive Prototype (V : Type) : Type :=
| ObjectPrototype
| NullPrototype
| Inherits (parent : V).

Arguments ObjectPrototype {V}.
Arguments NullPrototype {V}.
Arguments Inherits {V} parent.

Local Unset Elimination Schemes.

(** The values of a document: the primitive values, arrays without holes,
    and objects, given by their prototype and by their own enumerable
    properties in the order [Object.entries] lists them. The function never
    looks into a number, which stands here as an integer. *)
Inductive any : Type :=
| Undefined
| Null
| Boolean (b : bool)
| Number (n : Z)
| Str (s : string)
| Array (items : list any)
| Object (proto : Prototype any) (props : list (string * any)).

Local Set Elimination Schemes.

(** [typeof v === 'string'] *)
Definition isString (v : any) : bool :=
  match v with Str _ => true | _ => false end.

(** The truth value of [v] in a condition. *)
Definition truthy (v : any) : bool :=
  match v with
  | Undefined | Null => false
  | Boolean b => b
  | Number n => negb (n =? 0)%Z
  | Str s => negb (s =? "")
  | Array _ | Object _ _ => true
  end.

(** [typeof v === 'object'] *)
Definition typeofObject (v : any) : bool :=
  match v with
  | Null | Array _ | Object _ _ => true
  | _ => false
  end.

(** [Array.isArray(v)] *)
Definition isArray (v : any) : bool :=
  match v with Array _ => true | _ => false end.

(** [Object.entries], [Object.keys] and [Object.values]; the function
    calls them on objects that are not arrays only. *)
Definition Object_entries (v : any) : list (string * any) :=
  match v with Object _ props => props | _ => [] end.

Definition Object_keys (v : any) : list string := map fst (Object_entries v).
Definition Object_values (v : any) : list any := map snd (Object_entries v).

Definition isDigit (c : ascii) : bool :=
  (48 <=? nat_of_ascii c)%nat && (nat_of_ascii c <=? 57)%nat.

(** [/^\d+$/.test(k)]: one or more characters, all of them digits. *)
Definition isNumericKey (k : string) : bool :=
  negb (k =? "") && forallb isDigit (list_ascii_of_string k).

(** The array index a property key stands for, if it is one: the key is
    the decimal notation, without leading zero, of a number below
    [2^32 - 1]. *)
Definition arrayIndex (k : string) : option N :=
  match NilEmpty.uint_of_string k with
  | Some digits =>
      let n := N.of_uint digits in
      if (NilEmpty.string_of_uint (N.to_uint n) =? k) && (n <? 4294967295)%N
      then Some n else None
  | None => None
  end.

Definition hasOwn (key : string) (props : list (string * any)) : bool :=
  existsb (fun p => fst p =? key) props.

(** A new property whose key is the array index [i] is enumerated after
    the array indices below [i] and before everything else. *)
Fixpoint insertIndex (i : N) (key : string) (v : any)
  (props : list (string * any)) : list (string * any) :=
  match props with
  | [] => [(key, v)]
  | p :: rest =>
      match arrayIndex (fst p) with
      | Some j => if (j <? i)%N then p :: insertIndex i key v rest
                  else (key, v) :: props
      | None => (key, v) :: props
      end
  end.

(** Giving an object the property [key] with value [v]: an existing
    property keeps its place, a new array index goes to its place among the
    array indices, any other new key to the end. *)
Definition defineProp (key : string) (v : any)
  (props : list (string * any)) : list (string * any) :=
  if hasOwn key props
  then map (fun p => if fst p =? key then (fst p, v) else p) props
  else match arrayIndex key with
       | Some i => insertIndex i key v props
       | None => (props ++ [(key, v)])%list
       end.

(** Whether an assignment to [__proto__] that goes up to [parent] reaches
    the setter of the ordinary prototype: an array inherits it; an object
    with a property [__proto__] of its own stops the search. *)
Fixpoint inheritsSetter (parent : any) : bool :=
  match parent with
  | Array _ => true
  | Object proto props =>
      if hasOwn "__proto__" props then false
      else match proto with
           | ObjectPrototype => true
           | NullPrototype => false
           | Inherits grandparent => inheritsSetter grandparent
           end
  | _ => false
  end.

Definition reachesSetter (proto : Prototype any) : bool :=
  match proto with
  | ObjectPrototype => true
  | NullPrototype => false
  | Inherits parent => inheritsSetter parent
  end.

(** The object under construction: its prototype and its properties. *)
Definition object : Type := Prototype any * list (string * any).

(** [{}] *)
Definition emptyObject : object := (ObjectPrototype, []).

(** The setter of [__proto__]: an object, an array or [null] becomes the
    prototype, any other value is ignored. *)
Definition setPrototype (v : any) (result : object) : object :=
  match v with
  | Null => (NullPrototype, snd result)
  | Array _ | Object _ _ => (Inherits v, snd result)
  | _ => result
  end.

(** [result[key] = v] *)
Definition assign (result : object) (key : string) (v : any) : object :=
  if (key =? "__proto__") && negb (hasOwn key (snd result))
     && reachesSetter (fst result)
  then setPrototype v result
  else (fst result, defineProp key v (snd result)).

(** The body of the loop over the entries of an object; [normalized] is
    [normalizeYamlArrays(value)]. *)
Definition normalizeEntry (key : string) (value normalized : any)
  (result : object) : object :=
  if (key =? "labels") && truthy value && typeofObject value
     && negb (isArray value)
  then
    let values := Object_values value in
    if forallb isString values then
      let keys := Object_keys value in
      let isNumericKeys := forallb isNumericKey keys in
      if isNumericKeys then assign result key (Array values)
      else assign result key normalized
    else assign result key normalized
  else assign result key normalized.

Fixpoint normalizeYamlArrays (obj : any) : any :=
  match obj with
  | Array items => Array (map normalizeYamlArrays items)
  | Object _ props =>
      let result :=
        (fix loop (entries : list (string * any)) (result : object)
           {struct entries} : object :=
           match entries with
           | [] => result
           | (key, value) :: rest =>
               loop rest
                 (normalizeEntry key value (normalizeYamlArrays value) result)
           end) props emptyObject in
      Object (fst result) (snd result)
  | _ => obj
  end.

(** *** What the normaliser is checked against *)

(** The loop of [normalizeYamlArrays], from any object under
    construction. *)
Definition normalizeProps (props : list (string * any)) (result : object)
  : object :=
  fold_left
    (fun result entry =>
       normalizeEntry (fst entry) (snd entry)
         (normalizeYamlArrays (snd entry)) result)
    props result.

(** The value of the property [key], if there is one. *)
Definition getOwn (key : string) (props : list (string * any))
  : option any :=
  option_map snd (find (fun p => fst p =? key) props).

(** An object that looks like an array: all its values are strings and
    all its keys are made of digits. *)
Definition arrayLike (value : any) : bool :=
  truthy value && typeofObject value && negb (isArray value)
  && forallb isString (Object_values value)
  && forallb isNumericKey (Object_keys value).

(** The value the result gets under [key] for the value [value]. *)
Definition normalized (key : string) (value : any) : any :=
  if (key =? "labels") && arrayLike value
  then Array (Object_values value)
  else normalizeYamlArrays value.

Definition normalizedEntry (p : string * any) : string * any :=
  (fst p, normalized (fst p) (snd p)).

(** The order in which an object enumerates two of its keys: array indices
    in ascending order, then the other keys, which are distinct. *)
Definition keyBefore (k k' : string) : bool :=
  match arrayIndex k, arrayIndex k' with
  | Some i, Some j => (i <? j)%N
  | Some _, None => true
  | None, Some _ => false
  | None, None => negb (k =? k')
  end.

(** The keys of an object, as it enumerates them: every key comes before
    all the later ones. *)
Fixpoint enumerable (keys : list string) : bool :=
  match keys with
  | [] => true
  | k :: rest => forallb (keyBefore k) rest && enumerable rest
  end.

(** Plain data: every object lists its properties as an object enumerates
    them and has no property named [__proto__]. *)
Fixpoint plainData (v : any) : bool :=
  match v with
  | Array items => forallb plainData items
  | Object _ props =>
      enumerable (map fst props) && negb (hasOwn "__proto__" props)
      && forallb (fun p => plainData (snd p)) props
  | _ => true
  end.

(** Normal form: plain data whose objects are ordinary and have no
    [labels] property that looks like an array. *)
Fixpoint normalForm (v : any) : bool :=
  match v with
  | Array items => forallb normalForm items
  | Object ObjectPrototype props =>
      enumerable (map fst props) && negb (hasOwn "__proto__" props)
      && forallb
           (fun p =>
              negb ((fst p =? "labels") && arrayLike (snd p))
              && normalForm (snd p))
           props
  | Object _ _ => false
  | _ => true
  end.

(** The prototype the setter of [__proto__] gives an ordinary object. *)
Definition prototypeFrom (v : any) : Prototype any :=
  match v with
  | Null => NullPrototype
  | Array _ | Object _ _ => Inherits v
  | _ => ObjectPrototype
  end.

(** *** Induction on values *)

Section Induction.
Variable P : any -> Prop.
Hypothesis HUndefined : P Undefined.
Hypothesis HNull : P Null.
Hypothesis HBoolean : forall b, P (Boolean b).
Hypothesis HNumber : forall n, P (Number n).
Hypothesis HStr : forall s, P (Str s).
Hypothesis HArray : forall items, Forall P items -> P (Array items).
Hypothesis HObject :
  forall proto props,
    Forall (fun p => P (snd p)) props -> P (Object proto props).

Fixpoint any_induction (v : any) : P v :=
  match v with
  | Undefined => HUndefined
  | Null => HNull
  | Boolean b => HBoolean b
  | Number n => HNumber n
  | Str s => HStr s
  | Array items =>
      HArray items
        ((fix all (l : list any) : Forall P l :=
            match l with
            | [] => Forall_nil P
            | x :: rest => Forall_cons x (any_induction x) (all rest)
            end) items)
  | Object proto props =>
      HObject proto props
        ((fix all (l : list (string * any)) : Forall (fun p => P (snd p)) l :=
            match l with
            | [] => Forall_nil _
            | p :: rest =>
                Forall_cons p (any_induction (snd p)) (all rest)
            end) props)
  end.

End Induction.

(** *** Documents *)

(** The list [bug, ui], parsed as an object. *)
Definition numberedLabels : any :=
  Object ObjectPrototype [("0", Str "bug"); ("1", Str "ui")].

(** The section of a document that configures the issues. *)
Definition issuesSection : list (string * any) :=
  [("enabled", Boolean true); ("labels", numberedLabels)].

Definition document : any :=
  Object ObjectPrototype
    [("issues", Object ObjectPrototype issuesSection);
     ("branches", Array [Str "main"; Str "dev"])].

(** A document that needs no normalisation. *)
Definition normalDocument : any :=
  Object ObjectPrototype
    [("issues",
      Object ObjectPrototype
        [("enabled", Boolean true); ("labels", Array [Str "bug"; Str "ui"])]);
     ("branches", Array [Str "main"; Str "dev"])].

(** An object with a property [__proto__]. *)
Definition pollutedSection : list (string * any) :=
  [("name", Str "sync");
   ("__proto__", Object ObjectPrototype [("labels", numberedLabels)])].

(** Labels that look like an array once their [__proto__] is gone. *)
Definition pollutedLabels : any :=
  Object ObjectPrototype
    [("labels",
      Object ObjectPrototype [("0", Str "bug"); ("__proto__", Str "ui")])].

End Yaml.

(** ** Scenarios *)

Module Scenario.

(** The outside world of the scenarios: the number of changes the trackers
    have accepted. *)
Definition World : Type := nat.

Definition bugA : Issue.t :=
  Issue.mk 1 "Bug A" (Js.str "x") open ["bug"].

Definition bugA_stale : Issue.t :=
  Issue.mk 7 "Bug A" (Js.str "old text") open ["bug"].

Definition bugB : Issue.t :=
  Issue.mk 2 "Bug B" Js.undefined open [].

Definition bugA_relabelled : Issue.t :=
  Issue.mk 1 "Bug A" (Js.str "x") open ["ui"; "bug"].

Definition bugA_labelled : Issue.t :=
  Issue.mk 1 "Bug A" (Js.str "x") open ["bug"; "ui"].

Definition boom : Js.thrown := Js.ErrorObject "boom".

(** A source tracker with two issues. *)
Definition sourceClient : Client.t World :=
  Client.mk World
    (fun w => (Ok [bugA; bugB], w))
    (fun _ w => (Ok [Comment.mk "first"; Comment.mk "last"], w))
    (fun _ w => (Ok tt, S w))
    (fun _ _ w => (Ok tt, S w))
    (fun _ _ w => (Ok tt, S w))
    (fun w => (Ok (RepoInfo.mk "https://github.com/o/r"), w)).

(** A target tracker that has a stale "Bug A" and refuses every update. *)
Definition targetClient : Client.t World :=
  Client.mk World
    (fun w => (Ok [bugA_stale], w))
    (fun _ w => (Ok [], w))
    (fun _ w => (Ok tt, S w))
    (fun _ _ w => (Throw boom, w))
    (fun _ _ w => (Ok tt, S w))
    (fun w => (Ok (RepoInfo.mk "https://gitlab.com/o/r"), w)).

(** A target tracker whose issue list cannot be fetched. *)
Definition unreachableTarget : Client.t World :=
  Client.mk World
    (fun w => (Throw boom, w))
    (fun _ w => (Ok [], w))
    (fun _ w => (Ok tt, S w))
    (fun _ _ w => (Ok tt, S w))
    (fun _ _ w => (Ok tt, S w))
    (fun w => (Ok (RepoInfo.mk "https://gitlab.com/o/r"), w)).

(** A source tracker whose repository descriptor cannot be read. *)
Definition sourceWithoutDescriptor : Client.t World :=
  Client.mk World
    (fun w => (Ok [bugA; bugB], w))
    (fun _ w => (Ok [Comment.mk "first"; Comment.mk "last"], w))
    (fun _ w => (Ok tt, S w))
    (fun _ _ w => (Ok tt, S w))
    (fun _ _ w => (Ok tt, S w))
    (fun w => (Throw boom, w)).

(** A target tracker that already has the comments of the source. *)
Definition mirroredTarget : Client.t World :=
  Client.mk World
    (fun w => (Ok [bugA_stale], w))
    (fun _ w =>
       (Ok [Comment.mk "last"; Comment.mk "a reply"; Comment.mk "first"], w))
    (fun _ w => (Ok tt, S w))
    (fun _ _ w => (Ok tt, S w))
    (fun _ _ w => (Ok tt, S w))
    (fun w => (Ok (RepoInfo.mk "https://gitlab.com/o/r"), w)).

(** A target tracker that has the issues of the source, in another order. *)
Definition exactMirror : Client.t World :=
  Client.mk World
    (fun w => (Ok [bugB; bugA], w))
    (fun _ w => (Ok [], w))
    (fun _ w => (Ok tt, S w))
    (fun _ _ w => (Ok tt, S w))
    (fun _ _ w => (Ok tt, S w))
    (fun w => (Ok (RepoInfo.mk "https://gitlab.com/o/r"), w)).

(** A source tracker without issues. *)
Definition emptySource : Client.t World :=
  Client.mk World
    (fun w => (Ok [], w))
    (fun _ w => (Ok [], w))
    (fun _ w => (Ok tt, S w))
    (fun _ _ w => (Ok tt, S w))
    (fun _ _ w => (Ok tt, S w))
    (fun w => (Ok (RepoInfo.mk "https://github.com/o/r"), w)).

(** A target tracker without issues. *)
Definition emptyTarget : Client.t World :=
  Client.mk World
    (fun w => (Ok [], w))
    (fun _ w => (Ok [], w))
    (fun _ w => (Ok tt, S w))
    (fun _ _ w => (Ok tt, S w))
    (fun _ _ w => (Ok tt, S w))
    (fun w => (Ok (RepoInfo.mk "https://gitlab.com/o/r"), w)).

(** A machine whose store holds the given objects at references 0, 1, ... *)
Definition machineWith (issues : list Issue.t) (comments : list Comment.t)
  : Machine World :=
  mkMachine 0%nat
    (fun r => nth r issues (Issue.mk 0 "" Js.undefined open []))
    (fun r => nth r comments (Comment.mk ""))
    (Nat.max (List.length issues) (List.length comments)).

Definition start : Machine World := machineWith [] [].

(** The store after both lists of the first scenario were fetched. *)
Definition fetched : Machine World :=
  machineWith [bugA; bugB; bugA_stale] [].

Definition relabelled : Machine World :=
  machineWith [bugA_labelled; bugA_relabelled; bugA_labelled] [].

End Scenario.

(** ** Basic facts *)

Lemma strictEq_true_iff (a b : Js.optString) :
  Js.strictEq a b = true <-> a = b.
Proof.
  destruct a, b; simpl; split; intros H; try discriminate; try reflexivity.
  - apply String.eqb_eq in H. now subst.
  - injection H as ->. apply String.eqb_refl.
Qed.

Lemma IssueState_eqb_true_iff (a b : IssueState) :
  IssueState_eqb a b = true <-> a = b.
Proof. destruct a, b; simpl; split; intros H; congruence. Qed.

Lemma everyFrom_nth_error (a : list string) :
  forall (done rest : list string),
    Js.everyFrom
      (fun val index => Js.strictEqAt val (nth_error (done ++ rest)%list index))
      (List.length done) a = true
    <-> exists tail, rest = (a ++ tail)%list.
Proof.
  induction a as [|v a IH]; intros done rest; simpl.
  - split; [intros _; now exists rest | reflexivity].
  - rewrite andb_true_iff.
    rewrite nth_error_app2 by lia. rewrite Nat.sub_diag.
    destruct rest as [|x rest]; simpl.
    + split; [intros [H _]; discriminate | intros [tail H]; discriminate].
    + specialize (IH (done ++ [x])%list rest).
      rewrite <- app_assoc in IH. simpl in IH.
      rewrite length_app in IH. simpl in IH. rewrite Nat.add_1_r in IH.
      rewrite IH. split.
      * intros [Hv [tail ->]]. apply String.eqb_eq in Hv. subst. now exists tail.
      * intros [tail H]. injection H as -> ->. split.
        -- apply String.eqb_refl.
        -- now exists tail.
Qed.

(** [arraysEqual] decides equality of label sequences: same length and the
    same element at every index. *)
Lemma arraysEqual_true_iff (a b : list string) :
  arraysEqual a b = true <-> a = b.
Proof.
  unfold arraysEqual, Js.every. rewrite andb_true_iff, Nat.eqb_eq.
  rewrite (everyFrom_nth_error a [] b). split.
  - intros [Hlen [tail ->]]. rewrite length_app in Hlen.
    destruct tail; [now rewrite app_nil_r | simpl in Hlen; lia].
  - intros ->. split; [reflexivity | exists []; now rewrite app_nil_r].
Qed.

Lemma arraysEqual_positions (a b : list string) :
  arraysEqual a b = true
  <-> (List.length a = List.length b
       /\ forall i, nth_error a i = nth_error b i).
Proof.
  rewrite arraysEqual_true_iff. split.
  - intros ->. auto.
  - intros [_ H]. now apply nth_error_ext.
Qed.

Lemma find_first {A : Type} (p : A -> bool) (l : list A) (x : A) :
  find p l = Some x ->
  exists before after,
    l = (before ++ x :: after)%list /\ p x = true
    /\ forall y, In y before -> p y = false.
Proof.
  induction l as [|a l IH]; simpl; [discriminate|].
  destruct (p a) eqn:Ha.
  - intros [= ->]. exists [], l. repeat split; [assumption | intros y []].
  - intros H. destruct (IH H) as (before & after & -> & Hx & Hb).
    exists (a :: before), after. repeat split; [assumption|].
    intros y [<- | Hy]; [assumption | now apply Hb].
Qed.

Lemma classify_sourceIssue {W : Type} (m : Machine W) targets s :
  IssueComparison.sourceIssue (classify m targets s) = s.
Proof.
  unfold classify. destruct (find _ targets); [|reflexivity].
  now destruct (_ || _).
Qed.

Lemma classify_describes {W : Type} (m : Machine W) targets s :
  describes m targets (classify m targets s).
Proof.
  unfold classify, describes.
  destruct (find _ targets) as [t|] eqn:Hfind.
  - assert (Hfirst : firstMatch m s targets (Some t)).
    { destruct (find_first _ _ _ Hfind) as (before & after & -> & Ht & Hb).
      exists before, after. repeat split.
      - now apply String.eqb_eq in Ht.
      - intros t' Hin Hsame. apply Hb in Hin. unfold sameTitle in Hsame.
        rewrite Hsame, String.eqb_refl in Hin. discriminate. }
    destruct (_ || _) eqn:Hd; simpl; (split; [exact Hfirst|]).
    + split; [reflexivity|]. intros Hn. exfalso. apply Hn. unfold differs.
      rewrite !orb_true_iff, !negb_true_iff in Hd.
      destruct Hd as [[Hd | Hd] | Hd].
      * left. intros E. apply strictEq_true_iff in E. congruence.
      * right; left. intros E. apply IssueState_eqb_true_iff in E. congruence.
      * right; right. intros E. apply arraysEqual_true_iff in E. congruence.
    + split; [|reflexivity]. intros Hdiff. exfalso.
      rewrite !orb_false_iff, !negb_false_iff in Hd.
      destruct Hd as [[Hb Hs] Hl].
      apply strictEq_true_iff in Hb. apply IssueState_eqb_true_iff in Hs.
      apply arraysEqual_true_iff in Hl.
      destruct Hdiff as [H | [H | H]]; contradiction.
  - simpl. split; [|reflexivity].
    intros t Hin Hsame. apply (find_none _ _ Hfind) in Hin.
    unfold sameTitle in Hsame. simpl in Hin.
    rewrite Hsame, String.eqb_refl in Hin. discriminate.
Qed.

(** One iteration of [compareIssues] pushes [classify], reads the store and
    writes one debug line. *)
Lemma compareIssue_run {W : Type} (m : Machine W) targetIssues s acc :
  exists line,
    compareIssue targetIssues s acc m
    = mkOutcome (Ok (Js.push acc (classify m targetIssues s))) m
        [Log Debug line].
Proof.
  unfold compareIssue, classify, bind, readIssue, findIssue. cbn.
  destruct (find _ targetIssues) as [t|]; cbn.
  - destruct (_ || _); cbn; eexists; reflexivity.
  - eexists; reflexivity.
Qed.

Lemma compareIssues_loop {W : Type} (m : Machine W) targetIssues :
  forall sourceIssues acc,
    let o := forOf sourceIssues (compareIssue targetIssues) acc m in
    result o = Ok (acc ++ map (classify m targetIssues) sourceIssues)%list
    /\ final o = m
    /\ forallb isDebugLog (events o) = true.
Proof.
  induction sourceIssues as [|s rest IH]; intros acc; cbn.
  - rewrite app_nil_r. auto.
  - unfold bind.
    destruct (compareIssue_run m targetIssues s acc) as [line ->].
    specialize (IH (Js.push acc (classify m targetIssues s))). cbv zeta in IH.
    destruct (forOf rest _ _ m) as [r m2 ev2]. cbn in *.
    destruct IH as (-> & -> & ->).
    unfold Js.push. rewrite <- app_assoc. auto.
Qed.

Lemma compareIssues_run {W : Type} (m : Machine W) sourceIssues targetIssues :
  result (compareIssues sourceIssues targetIssues m)
  = Ok (map (classify m targetIssues) sourceIssues)
  /\ final (compareIssues sourceIssues targetIssues m) = m
  /\ forallb isDebugLog (events (compareIssues sourceIssues targetIssues m))
     = true.
Proof. exact (compareIssues_loop m targetIssues sourceIssues []). Qed.

(** ** The issue comparator *)

(** C1. For every store and every pair of issue lists, [compareIssues]
    returns (it never throws) exactly one comparison per source issue, in
    the order of [sourceIssues]; each one carries the first target issue
    with an equal title, with action [create] when no title matches,
    [update] when the match differs in body, state or label sequence, and
    [skip] otherwise. The store and the outside world are left as they
    were (the inputs are not mutated), and the only output is debug lines.
    Being a function of the store and the two lists, the result is
    determined by them. *)
Theorem compareIssues_spec {W : Type} (m : Machine W)
    (sourceIssues targetIssues : list ref) :
  exists comparisons,
    result (compareIssues sourceIssues targetIssues m) = Ok comparisons
    /\ final (compareIssues sourceIssues targetIssues m) = m
    /\ forallb isDebugLog (events (compareIssues sourceIssues targetIssues m))
       = true
    /\ List.length comparisons = List.length sourceIssues
    /\ map IssueComparison.sourceIssue comparisons = sourceIssues
    /\ Forall (describes m targetIssues) comparisons.
Proof.
  exists (map (classify m targetIssues) sourceIssues).
  destruct (compareIssues_loop m targetIssues sourceIssues []) as (Hr & Hf & He).
  repeat split; try assumption.
  - apply length_map.
  - rewrite map_map. rewrite <- (map_id sourceIssues) at 2.
    apply map_ext. intros s. apply classify_sourceIssue.
  - apply Forall_forall. intros c Hc. apply in_map_iff in Hc.
    destruct Hc as (s & <- & _). apply classify_describes.
Qed.

(** C4. In every comparison [compareIssues] produces, [targetIssue] is
    present if and only if the action is [update] or [skip]; equivalently a
    [create] comparison carries no [targetIssue]. *)
Theorem targetIssue_present_iff_update_or_skip {W : Type} (m : Machine W)
    (sourceIssues targetIssues : list ref) :
  exists comparisons,
    result (compareIssues sourceIssues targetIssues m) = Ok comparisons
    /\ Forall
         (fun c =>
            (IssueComparison.targetIssue c <> None
             <-> (IssueComparison.action c = update
                  \/ IssueComparison.action c = skip))
            /\ (IssueComparison.action c = create
                <-> IssueComparison.targetIssue c = None))
         comparisons.
Proof.
  exists (map (classify m targetIssues) sourceIssues).
  destruct (compareIssues_loop m targetIssues sourceIssues []) as (Hr & _).
  split; [assumption|].
  apply Forall_forall. intros c Hc. apply in_map_iff in Hc.
  destruct Hc as (s & <- & _). unfold classify.
  destruct (find _ targetIssues) as [t|]; [destruct (_ || _)|]; cbn;
    repeat split; intros H; try discriminate; try congruence; auto;
    destruct H; discriminate.
Qed.

(** C7. For a source issue and a target issue identical in title, body and
    state: when their label lists hold the same elements in a different
    order the action is [update], and when the label sequences are
    identical the action is [skip]. Label lists are compared by
    [arraysEqual], which holds exactly when they have the same length and
    the same element at every index. *)
Theorem label_order_matters {W : Type} (m : Machine W) (s t : ref)
    (others : list ref) :
  Issue.title (issueAt m s) = Issue.title (issueAt m t) ->
  Issue.body (issueAt m s) = Issue.body (issueAt m t) ->
  Issue.state (issueAt m s) = Issue.state (issueAt m t) ->
  (Permutation (Issue.labels (issueAt m s)) (Issue.labels (issueAt m t)) ->
   Issue.labels (issueAt m s) <> Issue.labels (issueAt m t) ->
   result (compareIssues [s] (t :: others) m)
   = Ok [IssueComparison.mk s (Some t) update])
  /\ (Issue.labels (issueAt m s) = Issue.labels (issueAt m t) ->
      result (compareIssues [s] (t :: others) m)
      = Ok [IssueComparison.mk s (Some t) skip])
  /\ (arraysEqual (Issue.labels (issueAt m s)) (Issue.labels (issueAt m t))
      = true
      <-> (List.length (Issue.labels (issueAt m s))
           = List.length (Issue.labels (issueAt m t))
           /\ forall i, nth_error (Issue.labels (issueAt m s)) i
                        = nth_error (Issue.labels (issueAt m t)) i)).
Proof.
  intros Ht Hb Hs.
  destruct (compareIssues_run m [s] (t :: others)) as (Hr & _).
  rewrite Hr. clear Hr.
  unfold classify. cbn. rewrite <- Ht, String.eqb_refl.
  rewrite <- Hb, <- Hs.
  rewrite (proj2 (strictEq_true_iff _ _) eq_refl).
  rewrite (proj2 (IssueState_eqb_true_iff _ _) eq_refl). cbn.
  split; [|split].
  - intros _ Hne.
    destruct (arraysEqual _ _) eqn:E; [|reflexivity].
    apply arraysEqual_true_iff in E. contradiction.
  - intros He. rewrite (proj2 (arraysEqual_true_iff _ _) He). reflexivity.
  - apply arraysEqual_positions.
Qed.

(** The two label orders of the scenario. *)
Lemma label_order_matters_witness :
  result (compareIssues [0%nat] [1%nat] Scenario.relabelled)
  = Ok [IssueComparison.mk 0 (Some 1%nat) update]
  /\ result (compareIssues [0%nat] [2%nat] Scenario.relabelled)
     = Ok [IssueComparison.mk 0 (Some 2%nat) skip].
Proof.
  split.
  - apply (proj1 (label_order_matters Scenario.relabelled 0 1 []
                    eq_refl eq_refl eq_refl)).
    + cbn. apply perm_swap.
    + cbn. discriminate.
  - apply (proj1 (proj2 (label_order_matters Scenario.relabelled 0 2 []
                             eq_refl eq_refl eq_refl))).
    reflexivity.
Defined.

(** ** The comment comparator *)

Lemma index_first {A : Type} (a : list A) : Js.index a 0 = hd_error a.
Proof. now destruct a. Qed.

Lemma index_last {A : Type} (a : list A) :
  Js.index a (Z.of_nat (List.length a) - 1) = hd_error (rev a).
Proof.
  unfold Js.index. destruct a as [|x a _] using rev_ind; [reflexivity|].
  rewrite rev_unit, length_app. cbn [List.length hd_error].
  destruct (Z.ltb_spec (Z.of_nat (List.length a + 1) - 1) 0) as [H|_]; [lia|].
  replace (Z.to_nat (Z.of_nat (List.length a + 1) - 1)) with (List.length a)
    by lia.
  rewrite nth_error_app2 by lia. now rewrite Nat.sub_diag.
Qed.

Lemma some_body_present {W : Type} (m : Machine W) (targets : list ref) (c : ref) :
  existsb
    (fun r => String.eqb (Comment.body (commentAt m r))
                (Comment.body (commentAt m c))) targets = true
  <-> bodyPresent m targets c.
Proof.
  rewrite existsb_exists. unfold bodyPresent.
  split; intros (t & Hin & H); exists t; (split; [assumption|]);
    now apply String.eqb_eq.
Qed.

(** Identity, not equality, separates the closing comment from the opening
    one: two objects with one body give two entries, one object listed
    twice gives one. *)
Example two_objects_with_one_body :
  result (compareComments [0%nat; 1%nat] []
            (Scenario.machineWith [] [Comment.mk "same"; Comment.mk "same"]))
  = Ok [CommentComparison.mk 0 create; CommentComparison.mk 1 create].
Proof. reflexivity. Qed.

Example one_object_listed_twice :
  result (compareComments [0%nat; 1%nat; 0%nat] []
            (Scenario.machineWith [] [Comment.mk "same"; Comment.mk "other"]))
  = Ok [CommentComparison.mk 0 create].
Proof. reflexivity. Qed.

(** Turns the outcome [E] of a body search for comment [c] into the
    matching fact. *)
Ltac body_fact m targets c E :=
  first
    [ apply (proj1 (some_body_present m targets c)) in E
    | let B := fresh in
      let P := fresh "P" in
      assert (P : ~ bodyPresent m targets c)
        by (intros B; apply (proj2 (some_body_present m targets c)) in B;
            pose proof (eq_trans (eq_sym E) B); discriminate);
      clear E ].

(** C5. [compareComments] looks at the first and the last source comment
    only. The opening comment gives a [create] entry iff it exists and no
    target comment has its body; the closing comment gives a [create] entry
    iff it is another object than the opening one and no target comment has
    its body. An empty thread gives the empty list, and there are never
    more than two entries. Nothing is mutated, called or logged. *)
Theorem compareComments_spec {W : Type} (m : Machine W)
    (sourceComments targetComments : list ref) :
  exists opening closing,
    compareComments sourceComments targetComments m
    = mkOutcome (Ok (opening ++ closing)%list) m []
    /\ match hd_error sourceComments with
       | None => opening = []
       | Some first =>
           (~ bodyPresent m targetComments first ->
            opening = [CommentComparison.mk first create])
           /\ (bodyPresent m targetComments first -> opening = [])
       end
    /\ match hd_error (rev sourceComments) with
       | None => closing = []
       | Some last =>
           (hd_error sourceComments <> Some last ->
            ~ bodyPresent m targetComments last ->
            closing = [CommentComparison.mk last create])
           /\ (hd_error sourceComments = Some last
               \/ bodyPresent m targetComments last -> closing = [])
       end
    /\ (sourceComments = [] -> (opening ++ closing)%list = [])
    /\ (forall only, sourceComments = [only] ->
        (List.length (opening ++ closing)%list <= 1)%nat)
    /\ (List.length (opening ++ closing)%list <= 2)%nat.
Proof.
  unfold compareComments.
  rewrite index_first, index_last.
  destruct sourceComments as [|o rest].
  - exists [], []. cbn. repeat split; auto.
  - cbn [hd_error].
    assert (Hlast : exists c, hd_error (rev (o :: rest)) = Some c).
    { destruct (rev (o :: rest)) eqn:E; [|eexists; reflexivity].
      apply (f_equal (@List.length _)) in E. rewrite length_rev in E.
      discriminate. }
    destruct Hlast as [c Hc]. rewrite Hc.
    assert (Hsingle : forall only, o :: rest = [only] -> c = o).
    { intros only [= -> ->]. cbn in Hc. congruence. }
    clear Hc.
    remember
      (existsb (fun r => String.eqb (Comment.body (commentAt m r))
                           (Comment.body (commentAt m o))) targetComments)
      as po eqn:Eo.
    remember
      (existsb (fun r => String.eqb (Comment.body (commentAt m r))
                           (Comment.body (commentAt m c))) targetComments)
      as pc eqn:Ec.
    symmetry in Eo, Ec.
    exists (if po then [] else [CommentComparison.mk o create]),
      (if Nat.eqb c o then []
       else if pc then [] else [CommentComparison.mk c create]).
    split.
    { unfold bind, readComment, someComment, ret, Js.push. cbn.
      rewrite Eo. destruct po, (Nat.eqb c o); cbn; rewrite ?Ec;
        destruct pc; reflexivity. }
    destruct (Nat.eqb_spec c o) as [Heq|Hne]; destruct po, pc;
      body_fact m targetComments o Eo; body_fact m targetComments c Ec; cbn;
      intuition
        (try congruence; try discriminate; auto;
         try (exfalso; apply Hne; eapply Hsingle; eassumption)).
Qed.

(** ** Laws of the engine monad *)

Section Laws.
Context {W : Type}.

Lemma bind_ok {A B : Type} (c : M W A) (k : A -> M W B) m a :
  result (c m) = Ok a ->
  bind c k m
  = mkOutcome (result (k a (final (c m)))) (final (k a (final (c m))))
      (events (c m) ++ events (k a (final (c m))))%list.
Proof.
  unfold bind. destruct (c m) as [[a'|e] m1 ev1]; cbn; intros [= ->].
  now destruct (k a m1).
Qed.

Lemma bind_throw {A B : Type} (c : M W A) (k : A -> M W B) m e :
  result (c m) = Throw e ->
  bind c k m = mkOutcome (Throw e) (final (c m)) (events (c m)).
Proof.
  unfold bind. destruct (c m) as [[a|e'] m1 ev1]; cbn; now intros [= ->].
Qed.

Lemma tryCatch_ok {A : Type} (c : M W A) (h : Js.thrown -> M W A) m a :
  result (c m) = Ok a -> tryCatch c h m = c m.
Proof.
  unfold tryCatch. destruct (c m) as [[a'|e] m1 ev1]; cbn; now intros [= ->].
Qed.

Lemma tryCatch_throw {A : Type} (c : M W A) (h : Js.thrown -> M W A) m e :
  result (c m) = Throw e ->
  tryCatch c h m
  = mkOutcome (result (h e (final (c m)))) (final (h e (final (c m))))
      (events (c m) ++ events (h e (final (c m))))%list.
Proof.
  unfold tryCatch. destruct (c m) as [[a|e'] m1 ev1]; cbn; intros [= ->].
  now destruct (h e m1).
Qed.

Lemma result_unit (c : M W unit) m : neverThrows c -> result (c m) = Ok tt.
Proof. intros H. destruct (H m) as [[] ->]. reflexivity. Qed.

(** A guarded sequence whose first or second statement throws goes to the
    handler from the machine reached at the throw. *)
Lemma tryCatch_first_throws {A B : Type} (c : M W A) (k : A -> M W B)
    (h : Js.thrown -> M W B) m e :
  result (c m) = Throw e ->
  tryCatch (bind c k) h m
  = mkOutcome (result (h e (final (c m)))) (final (h e (final (c m))))
      (events (c m) ++ events (h e (final (c m))))%list.
Proof.
  intros H. rewrite (tryCatch_throw (bind c k) h m e).
  - now rewrite (bind_throw _ _ _ _ H).
  - now rewrite (bind_throw _ _ _ _ H).
Qed.

Lemma tryCatch_second_throws {A B C : Type} (c : M W A) (k1 : A -> M W B)
    (k2 : A -> B -> M W C) (h : Js.thrown -> M W C) m a e :
  result (c m) = Ok a ->
  result (k1 a (final (c m))) = Throw e ->
  let m2 := final (k1 a (final (c m))) in
  tryCatch (bind c (fun x => bind (k1 x) (k2 x))) h m
  = mkOutcome (result (h e m2)) (final (h e m2))
      ((events (c m) ++ events (k1 a (final (c m)))) ++ events (h e m2))%list.
Proof.
  intros H1 H2 m2.
  assert (E : bind c (fun x => bind (k1 x) (k2 x)) m
              = mkOutcome (Throw e) m2
                  (events (c m) ++ events (k1 a (final (c m))))%list).
  { rewrite (bind_ok _ _ _ _ H1), (bind_throw _ _ _ _ H2). reflexivity. }
  unfold tryCatch. rewrite E. now destruct (h e m2).
Qed.

(** *** Computations that return *)

Lemma neverThrows_ret {A : Type} (a : A) : neverThrows (W := W) (ret a).
Proof. intros m. now exists a. Qed.

Lemma neverThrows_log level message : neverThrows (W := W) (log level message).
Proof. intros m. now exists tt. Qed.

Lemma neverThrows_bind {A B : Type} (c : M W A) (k : A -> M W B) :
  neverThrows c -> (forall a, neverThrows (k a)) -> neverThrows (bind c k).
Proof.
  intros Hc Hk m. destruct (Hc m) as [a Ha].
  rewrite (bind_ok _ _ _ _ Ha). cbn. apply Hk.
Qed.

Lemma neverThrows_tryCatch {A : Type} (c : M W A) (h : Js.thrown -> M W A) :
  (forall e, neverThrows (h e)) -> neverThrows (tryCatch c h).
Proof.
  intros Hh m. destruct (result (c m)) as [a|e] eqn:E.
  - rewrite (tryCatch_ok _ _ _ _ E). now exists a.
  - rewrite (tryCatch_throw _ _ _ _ E). cbn. apply Hh.
Qed.

Lemma neverThrows_forOf {A B : Type} (xs : list A) (body : A -> B -> M W B) :
  (forall x acc, neverThrows (body x acc)) ->
  forall acc, neverThrows (forOf xs body acc).
Proof.
  intros Hb. induction xs as [|x xs IH]; intros acc; cbn.
  - apply neverThrows_ret.
  - apply neverThrows_bind; auto.
Qed.

(** *** Events *)

Lemma emitsOnly_silent {A : Type} p (c : M W A) :
  (forall m, events (c m) = []) -> emitsOnly p c.
Proof. intros H m. now rewrite H. Qed.

Lemma emitsOnly_log p level message :
  p (Log level message) = true -> emitsOnly (W := W) p (log level message).
Proof. intros H m. cbn. now rewrite H. Qed.

Lemma emitsOnly_call {A : Type} p side request (op : W -> Result A * W) :
  p (Call side request) = true -> emitsOnly p (call side request op).
Proof. intros H m. unfold call. destruct (op (world m)). cbn. now rewrite H. Qed.

Lemma emitsOnly_bind {A B : Type} p (c : M W A) (k : A -> M W B) :
  emitsOnly p c -> (forall a, emitsOnly p (k a)) -> emitsOnly p (bind c k).
Proof.
  intros Hc Hk m. unfold bind. specialize (Hc m).
  destruct (c m) as [[a|e] m1 ev1]; cbn in *; [|assumption].
  specialize (Hk a m1). destruct (k a m1) as [r m2 ev2]; cbn in *.
  now rewrite forallb_app, Hc.
Qed.

Lemma emitsOnly_tryCatch {A : Type} p (c : M W A) (h : Js.thrown -> M W A) :
  emitsOnly p c -> (forall e, emitsOnly p (h e)) -> emitsOnly p (tryCatch c h).
Proof.
  intros Hc Hh m. unfold tryCatch. specialize (Hc m).
  destruct (c m) as [[a|e] m1 ev1]; cbn in *; [assumption|].
  specialize (Hh e m1). destruct (h e m1) as [r m2 ev2]; cbn in *.
  now rewrite forallb_app, Hc.
Qed.

Lemma emitsOnly_forOf {A B : Type} p (xs : list A) (body : A -> B -> M W B) :
  (forall x acc, emitsOnly p (body x acc)) ->
  forall acc, emitsOnly p (forOf xs body acc).
Proof.
  intros Hb. induction xs as [|x xs IH]; intros acc; cbn.
  - now apply emitsOnly_silent.
  - apply emitsOnly_bind; auto.
Qed.

(** *** The store only grows *)

Lemma extends_refl (m : Machine W) : extends m m.
Proof. split; [lia | auto]. Qed.

Lemma extends_trans (m1 m2 m3 : Machine W) :
  extends m1 m2 -> extends m2 m3 -> extends m1 m3.
Proof.
  intros [H1 K1] [H2 K2]. split; [lia|]. intros r Hr.
  destruct (K1 r Hr) as [<- <-]. apply K2. lia.
Qed.

Lemma preservesObjects_pure {A : Type} (c : M W A) :
  (forall m, final (c m) = m) -> preservesObjects c.
Proof. intros H m. rewrite H. apply extends_refl. Qed.

Lemma preservesObjects_call {A : Type} side request (op : W -> Result A * W) :
  preservesObjects (call side request op).
Proof.
  intros m. unfold call. destruct (op (world m)). cbn.
  split; cbn; [lia | auto].
Qed.

Lemma preservesObjects_newIssue fields : preservesObjects (W := W) (newIssue fields).
Proof.
  intros m. split; cbn; [lia|]. intros r Hr.
  destruct (Nat.eqb_spec r (nextRef m)); [lia | auto].
Qed.

Lemma preservesObjects_newComment fields :
  preservesObjects (W := W) (newComment fields).
Proof.
  intros m. split; cbn; [lia|]. intros r Hr.
  destruct (Nat.eqb_spec r (nextRef m)); [lia | auto].
Qed.

Lemma preservesObjects_bind {A B : Type} (c : M W A) (k : A -> M W B) :
  preservesObjects c -> (forall a, preservesObjects (k a)) ->
  preservesObjects (bind c k).
Proof.
  intros Hc Hk m. unfold bind. specialize (Hc m).
  destruct (c m) as [[a|e] m1 ev1]; cbn in *; [|assumption].
  specialize (Hk a m1). destruct (k a m1) as [r m2 ev2]; cbn in *.
  eapply extends_trans; eassumption.
Qed.

Lemma preservesObjects_tryCatch {A : Type} (c : M W A) (h : Js.thrown -> M W A) :
  preservesObjects c -> (forall e, preservesObjects (h e)) ->
  preservesObjects (tryCatch c h).
Proof.
  intros Hc Hh m. unfold tryCatch. specialize (Hc m).
  destruct (c m) as [[a|e] m1 ev1]; cbn in *; [assumption|].
  specialize (Hh e m1). destruct (h e m1) as [r m2 ev2]; cbn in *.
  eapply extends_trans; eassumption.
Qed.

Lemma preservesObjects_forOf {A B : Type} (xs : list A) (body : A -> B -> M W B) :
  (forall x acc, preservesObjects (body x acc)) ->
  forall acc, preservesObjects (forOf xs body acc).
Proof.
  intros Hb. induction xs as [|x xs IH]; intros acc; cbn.
  - now apply preservesObjects_pure.
  - apply preservesObjects_bind; auto.
Qed.

End Laws.

(** ** Structural facts about the engine's functions *)

Ltac engine_unfold :=
  unfold syncIssueComments, processAllComments, processCommentComparison,
    processComparison, processBody, performAction, processAll,
    createIssue, updateIssue, createComment, logSyncPlan, prepareSourceLink,
    client_syncIssues, client_getIssueComments, client_createIssue,
    client_updateIssue, client_createIssueComment, client_getRepoInfo,
    allocIssues, allocComments, compareIssues, compareIssue, compareComments,
    core_debug, core_info, core_warning, core_error.

Ltac emits_step :=
  engine_unfold; cbv beta;
  cbn [IssueComparison.targetIssue IssueComparison.action
       IssueComparison.sourceIssue];
  lazymatch goal with
  | |- emitsOnly _ (bind _ _) => apply emitsOnly_bind; [|intros]
  | |- emitsOnly _ (tryCatch _ _) => apply emitsOnly_tryCatch; [|intros]
  | |- emitsOnly _ (forOf _ _ _) => apply emitsOnly_forOf; intros
  | |- emitsOnly _ (log _ _) => apply emitsOnly_log; reflexivity
  | |- emitsOnly _ (call _ _ _) => apply emitsOnly_call; reflexivity
  | |- emitsOnly _ (match ?x with _ => _ end) => destruct x
  | |- emitsOnly _ _ => apply emitsOnly_silent; intros; reflexivity
  end.

Ltac emits := repeat emits_step.

Ltac returns_step :=
  engine_unfold; cbv beta;
  cbn [IssueComparison.targetIssue IssueComparison.action
       IssueComparison.sourceIssue];
  lazymatch goal with
  | |- neverThrows (bind _ _) => apply neverThrows_bind; [|intros]
  | |- neverThrows (tryCatch _ _) => apply neverThrows_tryCatch; intros
  | |- neverThrows (forOf _ _ _) => apply neverThrows_forOf; intros
  | |- neverThrows (match ?x with _ => _ end) => destruct x
  | |- neverThrows _ => intros ?; eexists; reflexivity
  end.

Ltac returns := repeat returns_step.

Ltac preserves_step :=
  engine_unfold; cbv beta;
  cbn [IssueComparison.targetIssue IssueComparison.action
       IssueComparison.sourceIssue];
  lazymatch goal with
  | |- preservesObjects (bind _ _) => apply preservesObjects_bind; [|intros]
  | |- preservesObjects (tryCatch _ _) =>
      apply preservesObjects_tryCatch; [|intros]
  | |- preservesObjects (forOf _ _ _) => apply preservesObjects_forOf; intros
  | |- preservesObjects (call _ _ _) => apply preservesObjects_call
  | |- preservesObjects (newIssue _) => apply preservesObjects_newIssue
  | |- preservesObjects (newComment _) => apply preservesObjects_newComment
  | |- preservesObjects (match ?x with _ => _ end) => destruct x
  | |- preservesObjects _ => apply preservesObjects_pure; intros; reflexivity
  end.

Ltac preserves := repeat preserves_step.

Section EngineFacts.
Context {W : Type}.
Variables source target : Tracker W.

(** Comment synchronisation swallows every failure. *)
Lemma syncIssueComments_returns sourceIssueNumber targetIssueNumber :
  neverThrows (syncIssueComments source target sourceIssueNumber
                 targetIssueNumber).
Proof. returns. Qed.

Lemma processCommentComparison_returns targetIssueNumber comparison :
  neverThrows (processCommentComparison target targetIssueNumber comparison).
Proof. returns. Qed.

(** One iteration of the execution loop swallows every failure. *)
Lemma processComparison_returns comparison :
  neverThrows (processComparison source target comparison).
Proof. returns. Qed.

Lemma processAll_returns issueComparisons :
  neverThrows (processAll source target issueComparisons).
Proof. returns. Qed.

(** The engine creates objects and never changes one it was given. *)
Lemma processComparison_preserves comparison :
  preservesObjects (processComparison source target comparison).
Proof. preserves. Qed.

Lemma processAll_preserves issueComparisons :
  preservesObjects (processAll source target issueComparisons).
Proof. preserves. Qed.

End EngineFacts.

(** ** Fetching *)

Section Fetching.
Context {W : Type}.

(** A loop whose body only builds objects returns, silently, in the same
    outside world. *)
Lemma forOf_builds {A B : Type} (xs : list A) (body : A -> B -> M W B) :
  (forall x acc m, exists acc' m',
      body x acc m = mkOutcome (Ok acc') m' [] /\ world m' = world m) ->
  forall acc m, exists acc' m',
      forOf xs body acc m = mkOutcome (Ok acc') m' [] /\ world m' = world m.
Proof.
  intros Hb. induction xs as [|x xs IH]; intros acc m.
  - now exists acc, m.
  - cbn [forOf]. unfold bind.
    destruct (Hb x acc m) as (acc1 & m1 & -> & Hw1). cbn.
    destruct (IH acc1 m1) as (acc2 & m2 & -> & Hw2). cbn.
    exists acc2, m2. split; [reflexivity | congruence].
Qed.

Lemma allocIssues_run (fetched : list Issue.t) (m : Machine W) :
  exists refs m',
    allocIssues fetched m = mkOutcome (Ok refs) m' [] /\ world m' = world m.
Proof.
  apply forOf_builds. intros fields refs m0.
  do 2 eexists. split; reflexivity.
Qed.

Lemma allocComments_run (fetched : list Comment.t) (m : Machine W) :
  exists refs m',
    allocComments fetched m = mkOutcome (Ok refs) m' [] /\ world m' = world m.
Proof.
  apply forOf_builds. intros fields refs m0.
  do 2 eexists. split; reflexivity.
Qed.

(** The objects made from fetched records are new, and they are live in the
    machine the fetch leaves. *)
Lemma allocIssues_loop_live (fetched : list Issue.t) :
  forall (acc : list ref) (m : Machine W),
    Forall (fun r => (r < nextRef m)%nat) acc ->
    let o :=
      forOf fetched
        (fun fields refs => r <- newIssue fields ;; ret (Js.push refs r)) acc m
    in
    extends m (final o)
    /\ exists refs,
         result o = Ok refs
         /\ Forall (fun r => (r < nextRef (final o))%nat) refs.
Proof.
  induction fetched as [|fields rest IH]; intros acc m Hacc.
  - cbn. split; [apply extends_refl | now exists acc].
  - cbn [forOf]. unfold bind at 1. cbn.
    match goal with
    | |- context [forOf rest ?body ?acc1 ?m1] =>
        assert (Hacc1 : Forall (fun r => (r < nextRef m1)%nat) acc1)
          by (apply Forall_app; split;
              [eapply Forall_impl; [|exact Hacc]; cbn; intros; lia
              | repeat constructor]);
        specialize (IH acc1 m1 Hacc1); cbv zeta in IH;
        pose proof (preservesObjects_newIssue fields m) as Hnew;
        destruct (forOf rest body acc1 m1) as [r m2 ev2]
    end.
    cbn in *. destruct IH as (Hext & refs & -> & Hlive).
    split; [eapply extends_trans; eassumption | now exists refs].
Qed.

Lemma allocIssues_live (fetched : list Issue.t) (m : Machine W) :
  extends m (final (allocIssues fetched m))
  /\ exists refs,
       result (allocIssues fetched m) = Ok refs
       /\ Forall (fun r => (r < nextRef (final (allocIssues fetched m)))%nat)
            refs.
Proof. exact (allocIssues_loop_live fetched [] m (Forall_nil _)). Qed.

Lemma client_syncIssues_live (c : Tracker W) (m : Machine W) :
  extends m (final (client_syncIssues c m))
  /\ match result (client_syncIssues c m) with
     | Ok refs =>
         Forall (fun r => (r < nextRef (final (client_syncIssues c m)))%nat)
           refs
     | Throw _ => True
     end.
Proof.
  unfold client_syncIssues, bind, call.
  destruct (Client.syncIssues (client c) (world m)) as [[fetched|e] w]; cbn.
  - match goal with
    | |- context [allocIssues fetched ?m1] =>
        pose proof (allocIssues_live fetched m1) as H;
        destruct (allocIssues fetched m1) as [r m2 ev2]
    end.
    cbn in *. destruct H as (Hext & refs & -> & Hlive).
    split; [|exact Hlive].
    destruct Hext as [Hn Hk]. split; cbn in *; [exact Hn | exact Hk].
  - split; [|exact I]. split; cbn; [lia | auto].
Qed.

Lemma client_syncIssues_throw (c : Tracker W) (m : Machine W) e w :
  Client.syncIssues (client c) (world m) = (Throw e, w) ->
  client_syncIssues c m
  = mkOutcome (Throw e) (mkMachine w (issueAt m) (commentAt m) (nextRef m))
      [Call (role c) SyncIssues].
Proof.
  intros H. unfold client_syncIssues, bind, call. rewrite H. reflexivity.
Qed.

Lemma client_syncIssues_ok (c : Tracker W) (m : Machine W) fetched w :
  Client.syncIssues (client c) (world m) = (Ok fetched, w) ->
  exists refs m',
    client_syncIssues c m = mkOutcome (Ok refs) m' [Call (role c) SyncIssues]
    /\ world m' = w.
Proof.
  intros H. unfold client_syncIssues, bind, call. rewrite H. cbn.
  match goal with
  | |- context [allocIssues fetched ?m'] =>
      destruct (allocIssues_run fetched m') as (refs & m'' & -> & Hw)
  end.
  cbn in *. exists refs, m''. split; [reflexivity | exact Hw].
Qed.

End Fetching.

(** C3. If fetching the source or the target issue list throws, the pass
    aborts: it logs the failure as an error and rethrows the same error; the
    only client calls made are the fetches, so no issue was created or
    updated and no comment created. *)
Theorem fetch_failure_aborts {W : Type} (source target : Client.t W)
    (m : Machine W) (e : Js.thrown) :
  fetchFailure source target (world m) = Some e ->
  result (syncIssues source target m) = Throw e
  /\ (exists calls,
        events (syncIssues source target m)
        = (calls
           ++ [Log Error ("Issue synchronization failed: " ++ Js.messageOf e)])%list
        /\ (calls = [Call Source SyncIssues]
            \/ calls = [Call Source SyncIssues; Call Target SyncIssues]))
  /\ forallb notMutation (events (syncIssues source target m)) = true.
Proof.
  unfold fetchFailure. intros H.
  assert (Hgoal :
    result (syncIssues source target m) = Throw e
    /\ exists calls,
        events (syncIssues source target m)
        = (calls
           ++ [Log Error ("Issue synchronization failed: " ++ Js.messageOf e)])%list
        /\ (calls = [Call Source SyncIssues]
            \/ calls = [Call Source SyncIssues; Call Target SyncIssues])).
  { unfold syncIssues.
    destruct (Client.syncIssues source (world m)) as [[fetched|e1] w1] eqn:E1.
    - destruct (client_syncIssues_ok (connect Source source) m fetched w1 E1)
        as (refs & m1 & R1 & Hw1).
      destruct (Client.syncIssues target w1) as [[fetched2|e2] w2] eqn:E2;
        [discriminate|]. injection H as ->.
      rewrite <- Hw1 in E2.
      pose proof (client_syncIssues_throw (connect Target target) m1 e w2 E2)
        as R2.
      rewrite (tryCatch_second_throws _ _ _ _ m refs e);
        rewrite R1; [| reflexivity | cbn [final]; now rewrite R2].
      cbn [final events]. rewrite R2. cbn [final events].
      split; [reflexivity|].
      exists [Call Source SyncIssues; Call Target SyncIssues]. auto.
    - injection H as ->.
      pose proof (client_syncIssues_throw (connect Source source) m e w1 E1)
        as R1.
      rewrite (tryCatch_first_throws _ _ _ m e); rewrite R1; [|reflexivity].
      split; [reflexivity|]. exists [Call Source SyncIssues]. auto. }
  destruct Hgoal as (Hr & calls & He & Hc).
  repeat split; [assumption | exists calls; auto |].
  rewrite He. destruct Hc as [-> | ->]; reflexivity.
Qed.

(** The scenario of the spec: fetching the target issues throws. *)
Lemma fetch_failure_aborts_witness :
  fetchFailure Scenario.sourceClient Scenario.unreachableTarget
    (world Scenario.start) = Some Scenario.boom
  /\ result (syncIssues Scenario.sourceClient Scenario.unreachableTarget
               Scenario.start) = Throw Scenario.boom
  /\ forallb notMutation
       (events (syncIssues Scenario.sourceClient Scenario.unreachableTarget
                  Scenario.start)) = true.
Proof.
  split; [reflexivity|].
  destruct (fetch_failure_aborts Scenario.sourceClient
              Scenario.unreachableTarget Scenario.start Scenario.boom
              eq_refl) as (Hr & _ & Hm).
  split; assumption.
Defined.

(** ** The execution loop *)

Section Loop.
Context {W : Type}.
Variables source target : Tracker W.

Lemma bind_events_prefix {A B : Type} (c : M W A) (k : A -> M W B) m :
  exists rest, events (bind c k m) = (events (c m) ++ rest)%list.
Proof.
  unfold bind. destruct (c m) as [[a|e] m1 ev1]; cbn.
  - destruct (k a m1); cbn. eexists; reflexivity.
  - exists []. now rewrite app_nil_r.
Qed.

Lemma tryCatch_events_prefix {A : Type} (c : M W A) (h : Js.thrown -> M W A) m :
  exists rest, events (tryCatch c h m) = (events (c m) ++ rest)%list.
Proof.
  unfold tryCatch. destruct (c m) as [[a|e] m1 ev1]; cbn.
  - exists []. now rewrite app_nil_r.
  - destruct (h e m1); cbn. eexists; reflexivity.
Qed.

(** A loop whose iterations never throw runs, for each element, the
    iteration on the machine left by the elements before it. *)
Lemma forOf_split {A : Type} (body : A -> M W unit) :
  (forall x, neverThrows (body x)) ->
  forall (before : list A) (x : A) (after : list A) m,
    let o1 := forOf before (fun y _ => body y) tt m in
    let o2 := body x (final o1) in
    let o3 := forOf after (fun y _ => body y) tt (final o2) in
    forOf (before ++ x :: after) (fun y _ => body y) tt m
    = mkOutcome (result o3) (final o3)
        (events o1 ++ events o2 ++ events o3)%list.
Proof.
  intros Hb before x after.
  induction before as [|y before IH]; intros m; cbn zeta.
  - cbn [app forOf]. rewrite (bind_ok _ _ _ _ (result_unit _ m (Hb x))).
    reflexivity.
  - cbn [app forOf]. rewrite !(bind_ok _ _ _ _ (result_unit _ m (Hb y))).
    cbn [result final events]. rewrite IH. cbn [result final events].
    now rewrite app_assoc.
Qed.

(** An iteration is its guarded statements, followed by a warning when
    they throw. *)
Lemma processComparison_run (c : IssueComparison.t) m :
  match result (processBody source target c m) with
  | Ok _ => processComparison source target c m = processBody source target c m
  | Throw e =>
      processComparison source target c m
      = mkOutcome (Ok tt) (final (processBody source target c m))
          (events (processBody source target c m)
           ++ [itemWarning (final (processBody source target c m)) c e])%list
  end.
Proof.
  unfold processComparison.
  destruct (result (processBody source target c m)) as [a|e] eqn:E.
  - apply (tryCatch_ok _ _ _ _ E).
  - rewrite (tryCatch_throw _ _ _ _ E). reflexivity.
Qed.

End Loop.

(** ** Creating an issue *)

Section Creation.
Context {W : Type}.
Variables source target : Tracker W.

Lemma prepareSourceLink_ok (sourceIssue : ref) m repoInfo w1 :
  Client.getRepoInfo (client source) (world m) = (Ok repoInfo, w1) ->
  prepareSourceLink source sourceIssue m
  = mkOutcome (Ok (backlink repoInfo (issueAt m sourceIssue)))
      (mkMachine w1 (issueAt m) (commentAt m) (nextRef m))
      [Call (role source) GetRepoInfo].
Proof.
  intros H. unfold prepareSourceLink, client_getRepoInfo, bind, call.
  rewrite H. reflexivity.
Qed.

(** The [create] case: the repository is looked up, the payload is built as
    a new object, and the target's create-issue operation is called on it. *)
Lemma performAction_create (c : IssueComparison.t) m repoInfo w1 :
  IssueComparison.action c = create ->
  Client.getRepoInfo (client source) (world m) = (Ok repoInfo, w1) ->
  exists tail,
    events (performAction source target c m)
    = ([Call (role source) GetRepoInfo;
        Log Info ("📝 Creating issue " ++ Js.dquote
                  ++ Issue.title (issueAt m (IssueComparison.sourceIssue c))
                  ++ Js.dquote);
        Call (role target)
          (CreateIssue (nextRef m)
             (payloadFor repoInfo
                (issueAt m (IssueComparison.sourceIssue c))))] ++ tail)%list.
Proof.
  intros Ha Hr. unfold performAction. rewrite Ha.
  unfold bind at 1. rewrite (prepareSourceLink_ok _ _ _ _ Hr).
  cbn [result final events].
  unfold createIssue, client_createIssue, core_info, bind, readIssue, newIssue,
    log, call.
  cbn [result final events world issueAt commentAt nextRef
       IssueComparison.sourceIssue].
  rewrite Nat.eqb_refl.
  unfold payloadFor, backlink.
  destruct (Client.createIssue (client target) _ w1) as [[[]|e] w2];
    cbn [result final events app]; eexists; reflexivity.
Qed.

Lemma processComparison_events_prefix (c : IssueComparison.t) m :
  exists rest,
    events (processComparison source target c m)
    = (events (performAction source target c m) ++ rest)%list.
Proof.
  unfold processComparison, processBody.
  destruct (tryCatch_events_prefix
              (performAction source target c ;;
               match IssueComparison.targetIssue c with
               | Some targetIssue =>
                   issue <- readIssue (IssueComparison.sourceIssue c) ;;
                   existing <- readIssue targetIssue ;;
                   syncIssueComments source target (Issue.number issue)
                     (Issue.number existing)
               | None => ret tt
               end)
              (fun error =>
                 issue <- readIssue (IssueComparison.sourceIssue c) ;;
                 core_warning ("Failed to process issue " ++ Js.dquote
                               ++ Issue.title issue ++ Js.dquote ++ ": "
                               ++ Js.messageOf error)) m) as [r1 ->].
  destruct (bind_events_prefix (performAction source target c)
              (fun _ =>
                 match IssueComparison.targetIssue c with
                 | Some targetIssue =>
                     issue <- readIssue (IssueComparison.sourceIssue c) ;;
                     existing <- readIssue targetIssue ;;
                     syncIssueComments source target (Issue.number issue)
                       (Issue.number existing)
                 | None => ret tt
                 end) m) as [r2 ->].
  exists (r2 ++ r1)%list. now rewrite app_assoc.
Qed.

End Creation.

(** C6. Executing a [create] comparison (with the source repository
    descriptor available) calls the target's create-issue operation on a
    payload whose body is the source issue's body, a blank line, and the
    backlink of the annotator,
    [**Original Issue**: [<title>](<repoUrl>/issues/<number>)]. *)
Theorem create_payload_carries_backlink {W : Type} (source target : Client.t W)
    (c : IssueComparison.t) (m : Machine W) (repoInfo : RepoInfo.t) (w1 : W)
    (text : string) :
  IssueComparison.action c = create ->
  Client.getRepoInfo source (world m) = (Ok repoInfo, w1) ->
  Issue.body (issueAt m (IssueComparison.sourceIssue c)) = Js.str text ->
  let issue := issueAt m (IssueComparison.sourceIssue c) in
  let link :=
    "**Original Issue**: [" ++ Issue.title issue ++ "]("
    ++ RepoInfo.url repoInfo ++ "/issues/"
    ++ Js.numberToString (Issue.number issue) ++ ")" in
  let payload :=
    Issue.mk (Issue.number issue) (Issue.title issue)
      (Js.str (text ++ Js.nl ++ Js.nl ++ link))
      (Issue.state issue) (Issue.labels issue) in
  result (prepareSourceLink (connect Source source)
            (IssueComparison.sourceIssue c) m) = Ok link
  /\ exists tail,
       events (processComparison (connect Source source)
                 (connect Target target) c m)
       = ([Call Source GetRepoInfo;
           Log Info ("📝 Creating issue " ++ Js.dquote ++ Issue.title issue
                     ++ Js.dquote);
           Call Target (CreateIssue (nextRef m) payload)] ++ tail)%list.
Proof.
  intros Ha Hr Hb issue link payload. subst issue link payload. split.
  - now rewrite (prepareSourceLink_ok (connect Source source) _ m repoInfo w1 Hr).
  - destruct (performAction_create (connect Source source)
                (connect Target target) c m repoInfo w1 Ha Hr) as [t1 E1].
    destruct (processComparison_events_prefix (connect Source source)
                (connect Target target) c m) as [t2 E2].
    exists (t1 ++ t2)%list. rewrite E2, E1.
    unfold payloadFor, backlink. rewrite Hb.
    cbn [Js.orEmpty role]. now rewrite <- app_assoc.
Qed.

(** The first issue of the scenario is created with its backlink. *)
Lemma create_payload_carries_backlink_witness :
  exists tail,
    events (processComparison (connect Source Scenario.sourceClient)
              (connect Target Scenario.targetClient)
              (IssueComparison.mk 0 None create) Scenario.fetched)
    = ([Call Source GetRepoInfo;
        Log Info ("📝 Creating issue " ++ Js.dquote ++ "Bug A" ++ Js.dquote);
        Call Target
          (CreateIssue 3
             (Issue.mk 1 "Bug A"
                (Js.str ("x" ++ Js.nl ++ Js.nl
                         ++ "**Original Issue**: [Bug A](https://github.com/o/r/issues/1)"))
                open ["bug"]))] ++ tail)%list.
Proof.
  exact (proj2 (create_payload_carries_backlink Scenario.sourceClient
                  Scenario.targetClient (IssueComparison.mk 0 None create)
                  Scenario.fetched (RepoInfo.mk "https://github.com/o/r")
                  0%nat "x" eq_refl eq_refl eq_refl)).
Defined.

(** C10. When the source issue of a [create] comparison has no body
    ([undefined] or [null]), the payload's body is the empty string, a blank
    line and the backlink. The payload is a new object: no object that
    existed before is changed, the source issue in particular. *)
Theorem absent_body_becomes_empty {W : Type} (source target : Client.t W)
    (c : IssueComparison.t) (m : Machine W) (repoInfo : RepoInfo.t) (w1 : W) :
  IssueComparison.action c = create ->
  Client.getRepoInfo source (world m) = (Ok repoInfo, w1) ->
  Issue.body (issueAt m (IssueComparison.sourceIssue c)) = Js.undefined
  \/ Issue.body (issueAt m (IssueComparison.sourceIssue c)) = Js.null ->
  (IssueComparison.sourceIssue c < nextRef m)%nat ->
  let issue := issueAt m (IssueComparison.sourceIssue c) in
  let after :=
    final (processComparison (connect Source source) (connect Target target)
             c m) in
  let payload :=
    Issue.mk (Issue.number issue) (Issue.title issue)
      (Js.str ("" ++ Js.nl ++ Js.nl ++ backlink repoInfo issue))
      (Issue.state issue) (Issue.labels issue) in
  (exists tail,
      events (processComparison (connect Source source)
                (connect Target target) c m)
      = ([Call Source GetRepoInfo;
          Log Info ("📝 Creating issue " ++ Js.dquote ++ Issue.title issue
                    ++ Js.dquote);
          Call Target (CreateIssue (nextRef m) payload)] ++ tail)%list)
  /\ nextRef m <> IssueComparison.sourceIssue c
  /\ issueAt after (IssueComparison.sourceIssue c) = issue
  /\ forall r, (r < nextRef m)%nat -> issueAt after r = issueAt m r.
Proof.
  intros Ha Hr Hb Hlt issue after payload. subst issue after payload.
  pose proof (processComparison_preserves (connect Source source)
                (connect Target target) c m) as [_ Hkeep].
  repeat split.
  - destruct (performAction_create (connect Source source)
                (connect Target target) c m repoInfo w1 Ha Hr) as [t1 E1].
    destruct (processComparison_events_prefix (connect Source source)
                (connect Target target) c m) as [t2 E2].
    exists (t1 ++ t2)%list. rewrite E2, E1.
    unfold payloadFor.
    assert (Hempty :
      Js.orEmpty (Issue.body (issueAt m (IssueComparison.sourceIssue c))) = "")
      by (destruct Hb as [Hb | Hb]; now rewrite Hb).
    rewrite Hempty. cbn [role]. now rewrite <- app_assoc.
  - lia.
  - apply Hkeep, Hlt.
  - intros r Hrlt. apply Hkeep, Hrlt.
Qed.

(** The second issue of the scenario has no body. *)
Lemma absent_body_becomes_empty_witness :
  (exists tail,
      events (processComparison (connect Source Scenario.sourceClient)
                (connect Target Scenario.targetClient)
                (IssueComparison.mk 1 None create) Scenario.fetched)
      = ([Call Source GetRepoInfo;
          Log Info ("📝 Creating issue " ++ Js.dquote ++ "Bug B" ++ Js.dquote);
          Call Target
            (CreateIssue 3
               (Issue.mk 2 "Bug B"
                  (Js.str (Js.nl ++ Js.nl
                           ++ "**Original Issue**: [Bug B](https://github.com/o/r/issues/2)"))
                  open []))] ++ tail)%list)
  /\ issueAt
       (final (processComparison (connect Source Scenario.sourceClient)
                 (connect Target Scenario.targetClient)
                 (IssueComparison.mk 1 None create) Scenario.fetched)) 1
     = Scenario.bugB.
Proof.
  assert (Hlive : (1 < nextRef Scenario.fetched)%nat) by (cbn; lia).
  destruct (absent_body_becomes_empty Scenario.sourceClient
              Scenario.targetClient (IssueComparison.mk 1 None create)
              Scenario.fetched (RepoInfo.mk "https://github.com/o/r") 0%nat
              eq_refl eq_refl (or_introl eq_refl) Hlive)
    as (He & _ & Hs & _).
  split; [exact He | exact Hs].
Defined.

(** ** The whole pass *)

Section Pass.
Context {W : Type}.

(** A guarded pass of the shape of [syncIssues], once its planning part has
    returned: what remains is the loop and the closing statement. *)
Lemma guarded_pass_shape {A B C : Type} (A1 : M W A) (A2 : M W B)
    (A3 : A -> B -> M W C) (L1 : M W unit) (L2 : C -> M W unit)
    (P : C -> M W unit) (D : M W unit) (h : Js.thrown -> M W unit) m cs :
  let plan := (a <- A1 ;; b <- A2 ;; c <- A3 a b ;; L1 ;; L2 c ;; ret c) in
  result (plan m) = Ok cs ->
  neverThrows (P cs) ->
  neverThrows D ->
  let loop := P cs (final (plan m)) in
  tryCatch (a <- A1 ;; b <- A2 ;; c <- A3 a b ;; L1 ;; L2 c ;; P c ;; D) h m
  = mkOutcome (Ok tt) (final (D (final loop)))
      (events (plan m) ++ events loop ++ events (D (final loop)))%list.
Proof.
  intros plan Hplan HP HD loop. subst loop plan.
  unfold tryCatch, bind in *.
  destruct (A1 m) as [[a|e] m1 ev1]; cbn in *; [|discriminate].
  destruct (A2 m1) as [[b|e] m2 ev2]; cbn in *; [|discriminate].
  destruct (A3 a b m2) as [[c|e] m3 ev3]; cbn in *; [|discriminate].
  destruct (L1 m3) as [[[]|e] m4 ev4]; cbn in *; [|discriminate].
  destruct (L2 c m4) as [[[]|e] m5 ev5]; cbn in *; [|discriminate].
  injection Hplan as ->.
  pose proof (result_unit (P cs) m5 HP) as HPr.
  destruct (P cs m5) as [rP m6 ev6]. cbn in *. subst rP.
  pose proof (result_unit D m6 HD) as HDr.
  destruct (D m6) as [rD m7 ev7]. cbn in *. subst rD.
  rewrite app_nil_r. now rewrite <- !app_assoc.
Qed.

Variables source target : Client.t W.

(** With both lists fetched, the plan is the list of comparisons of the
    fetched issues, every one of them a live object. *)
Lemma planIssues_run m :
  fetchFailure source target (world m) = None ->
  exists sourceIssues targetIssues,
    let plan :=
      planIssues (connect Source source) (connect Target target) m in
    result plan
    = Ok (map (classify (final plan) targetIssues) sourceIssues)
    /\ extends m (final plan)
    /\ Forall (fun r => (r < nextRef (final plan))%nat) sourceIssues.
Proof.
  unfold fetchFailure. intros H.
  destruct (Client.syncIssues source (world m)) as [[fetched1|e1] w1] eqn:E1;
    [|discriminate].
  destruct (client_syncIssues_ok (connect Source source) m fetched1 w1 E1)
    as (refs1 & m1 & R1 & Hw1).
  destruct (Client.syncIssues target w1) as [[fetched2|e2] w2] eqn:E2;
    [|discriminate].
  rewrite <- Hw1 in E2.
  destruct (client_syncIssues_ok (connect Target target) m1 fetched2 w2 E2)
    as (refs2 & m2 & R2 & Hw2).
  destruct (client_syncIssues_live (connect Source source) m) as [X1 L1].
  destruct (client_syncIssues_live (connect Target target) m1) as [X2 _].
  rewrite R1 in X1, L1. rewrite R2 in X2. cbn [result final] in *.
  destruct (compareIssues_run m2 refs1 refs2) as (R3 & F3 & _).
  exists refs1, refs2. cbv zeta.
  assert (E : result (planIssues (connect Source source)
                        (connect Target target) m)
              = Ok (map (classify m2 refs2) refs1)
              /\ final (planIssues (connect Source source)
                          (connect Target target) m) = m2).
  { unfold planIssues.
    rewrite (bind_ok _ _ m refs1) by now rewrite R1. rewrite R1.
    cbn [result final events].
    rewrite (bind_ok _ _ m1 refs2) by now rewrite R2. rewrite R2.
    cbn [result final events].
    rewrite (bind_ok _ _ m2 _ R3). rewrite F3. split; reflexivity. }
  destruct E as [-> ->]. split; [reflexivity|]. split.
  - eapply extends_trans; eassumption.
  - destruct X2 as [Hn _]. eapply Forall_impl; [|exact L1].
    cbn. intros; lia.
Qed.

Lemma planIssues_returns m :
  fetchFailure source target (world m) = None ->
  exists comparisons,
    result (planIssues (connect Source source) (connect Target target) m)
    = Ok comparisons.
Proof.
  intros H. destruct (planIssues_run m H) as (refs1 & refs2 & R & _).
  eexists. exact R.
Qed.

Lemma syncIssues_after_plan m comparisons :
  result (planIssues (connect Source source) (connect Target target) m)
  = Ok comparisons ->
  let plan := planIssues (connect Source source) (connect Target target) m in
  let loop :=
    processAll (connect Source source) (connect Target target) comparisons
      (final plan) in
  syncIssues source target m
  = mkOutcome (Ok tt) (final loop)
      (events plan ++ events loop
       ++ [Log Info "✓ Issue synchronization completed"])%list.
Proof.
  intros Hplan plan loop. subst plan loop. unfold syncIssues.
  rewrite (guarded_pass_shape _ _ _ _ _ _ _ _ m comparisons Hplan).
  - reflexivity.
  - apply processAll_returns.
  - apply neverThrows_log.
Qed.

(** The fetched source issues are never modified: after the whole pass
    every one of them has the fields it was fetched with. *)
Lemma fetched_issues_are_kept m :
  fetchFailure source target (world m) = None ->
  exists comparisons,
    let plan :=
      planIssues (connect Source source) (connect Target target) m in
    result plan = Ok comparisons
    /\ Forall
         (fun c =>
            (IssueComparison.sourceIssue c < nextRef (final plan))%nat
            /\ issueAt (final (syncIssues source target m))
                 (IssueComparison.sourceIssue c)
               = issueAt (final plan) (IssueComparison.sourceIssue c))
         comparisons.
Proof.
  intros H. destruct (planIssues_run m H) as (refs1 & refs2 & R & _ & Hlive).
  cbv zeta in *. eexists. split; [exact R|].
  rewrite (syncIssues_after_plan m _ R). cbn [final].
  apply Forall_forall. intros c Hc. apply in_map_iff in Hc.
  destruct Hc as (s & <- & Hs). rewrite classify_sourceIssue.
  rewrite Forall_forall in Hlive. specialize (Hlive s Hs).
  split; [exact Hlive|].
  now apply (processAll_preserves (connect Source source)
               (connect Target target)).
Qed.

End Pass.

(** C2. Once both issue lists are fetched the pass completes without
    rethrowing. In the execution loop every comparison is processed, from
    the machine left by the comparisons before it, whatever happened to
    them: an iteration never throws, and when its guarded statements
    (creating, updating, syncing comments) throw, the error is logged as a
    warning and the loop goes on with the next comparison. In particular a
    [create] comparison that follows a failed one is still attempted: with
    the source repository descriptor at hand, the target's create-issue
    operation is called. *)
Theorem per_item_failure_is_isolated {W : Type} (source target : Client.t W)
    (m : Machine W) :
  fetchFailure source target (world m) = None ->
  let S := connect Source source in
  let T := connect Target target in
  result (syncIssues source target m) = Ok tt
  /\ (exists comparisons,
        result (planIssues S T m) = Ok comparisons
        /\ events (syncIssues source target m)
           = (events (planIssues S T m)
              ++ events (processAll S T comparisons (final (planIssues S T m)))
              ++ [Log Info "✓ Issue synchronization completed"])%list)
  /\ forall before c after m0,
       let m1 := final (processAll S T before m0) in
       let item := processComparison S T c m1 in
       let guarded := processBody S T c m1 in
       result (processAll S T (before ++ c :: after) m0) = Ok tt
       /\ events (processAll S T (before ++ c :: after) m0)
          = (events (processAll S T before m0) ++ events item
             ++ events (processAll S T after (final item)))%list
       /\ result item = Ok tt
       /\ match result guarded with
          | Ok _ => item = guarded
          | Throw e =>
              item = mkOutcome (Ok tt) (final guarded)
                       (events guarded ++ [itemWarning (final guarded) c e])%list
          end
       /\ match IssueComparison.action c,
                fst (Client.getRepoInfo source (world m1)) with
          | create, Ok _ => existsb isCreateIssue (events item) = true
          | _, _ => True
          end.
Proof.
  intros Hfetch S T.
  destruct (planIssues_returns source target m Hfetch) as [comparisons Hplan].
  pose proof (syncIssues_after_plan source target m comparisons Hplan) as Hrun.
  cbv zeta in Hrun. fold S T in Hrun, Hplan.
  split; [now rewrite Hrun|].
  split; [exists comparisons; split; [exact Hplan | now rewrite Hrun]|].
  intros before c after m0 m1 item guarded.
  pose proof (forOf_split (processComparison S T)
                (processComparison_returns S T) before c after m0) as Hsplit.
  cbv zeta in Hsplit. fold (processAll S T before m0) in Hsplit.
  fold m1 in Hsplit. fold item in Hsplit.
  fold (processAll S T after (final item)) in Hsplit.
  fold (processAll S T (before ++ c :: after) m0) in Hsplit.
  repeat split.
  - apply result_unit, processAll_returns.
  - now rewrite Hsplit.
  - apply result_unit, processComparison_returns.
  - exact (processComparison_run S T c m1).
  - destruct (IssueComparison.action c) eqn:Ha; try exact I.
    destruct (Client.getRepoInfo source (world m1)) as [[repoInfo|e] w1] eqn:Hr;
      cbn [fst]; [|exact I].
    destruct (performAction_create S T c m1 repoInfo w1 Ha Hr) as [t1 E1].
    destruct (processComparison_events_prefix S T c m1) as [t2 E2].
    subst item. rewrite E2, E1, !existsb_app.
    cbn [existsb isCreateIssue role S T orb]. reflexivity.
Qed.

(** The scenario of the spec: the update of "Bug A" fails and the creation
    of "Bug B" follows. *)
Lemma per_item_failure_is_isolated_witness :
  fetchFailure Scenario.sourceClient Scenario.targetClient
    (world Scenario.start) = None
  /\ result (syncIssues Scenario.sourceClient Scenario.targetClient
               Scenario.start) = Ok tt.
Proof.
  split; [reflexivity|].
  exact (proj1 (per_item_failure_is_isolated Scenario.sourceClient
                  Scenario.targetClient Scenario.start eq_refl)).
Defined.

(** What that pass does to the target, and the warning it logs. *)
Example update_fails_and_create_follows :
  filter (fun e => isMutation e || isWarning e)
    (events (syncIssues Scenario.sourceClient Scenario.targetClient
               Scenario.start))
  = [Call Target (UpdateIssue 7 0 Scenario.bugA);
     Log Warning ("Failed to process issue " ++ Js.dquote ++ "Bug A"
                  ++ Js.dquote ++ ": boom");
     Call Target
       (CreateIssue 3
          (Issue.mk 2 "Bug B"
             (Js.str (Js.nl ++ Js.nl
                      ++ "**Original Issue**: [Bug B](https://github.com/o/r/issues/2)"))
             open []))].
Proof. vm_compute. reflexivity. Qed.

(** ** Comment synchronisation *)

Section Comments.
Context {W : Type}.
Variables source target : Tracker W.

Lemma existsb_forallb_negb {A : Type} (p : A -> bool) (l : list A) :
  forallb (fun x => negb (p x)) l = true -> existsb p l = false.
Proof.
  induction l as [|x l IH]; cbn; [reflexivity|].
  rewrite andb_true_iff. intros [Hx Hl].
  apply negb_true_iff in Hx. now rewrite Hx, IH.
Qed.

Lemma client_getIssueComments_throw (c : Tracker W) n (m : Machine W) e w :
  Client.getIssueComments (client c) n (world m) = (Throw e, w) ->
  client_getIssueComments c n m
  = mkOutcome (Throw e) (mkMachine w (issueAt m) (commentAt m) (nextRef m))
      [Call (role c) (GetIssueComments n)].
Proof.
  intros H. unfold client_getIssueComments, bind, call. rewrite H. reflexivity.
Qed.

Lemma client_getIssueComments_ok (c : Tracker W) n (m : Machine W) fetched w :
  Client.getIssueComments (client c) n (world m) = (Ok fetched, w) ->
  exists refs m',
    client_getIssueComments c n m
    = mkOutcome (Ok refs) m' [Call (role c) (GetIssueComments n)]
    /\ world m' = w.
Proof.
  intros H. unfold client_getIssueComments, bind, call. rewrite H. cbn.
  match goal with
  | |- context [allocComments fetched ?m'] =>
      destruct (allocComments_run fetched m') as (refs & m'' & -> & Hw)
  end.
  cbn in *. exists refs, m''. split; [reflexivity | exact Hw].
Qed.

(** Comment synchronisation begins by fetching the source comments. *)
Lemma syncIssueComments_starts sourceIssueNumber targetIssueNumber m :
  exists rest,
    events (syncIssueComments source target sourceIssueNumber
              targetIssueNumber m)
    = Call (role source) (GetIssueComments sourceIssueNumber) :: rest.
Proof.
  unfold syncIssueComments.
  match goal with
  | |- context [tryCatch ?b ?h m] =>
      destruct (tryCatch_events_prefix b h m) as [r1 ->]
  end.
  match goal with
  | |- context [events (bind ?c ?k m)] =>
      destruct (bind_events_prefix c k m) as [r2 ->]
  end.
  unfold client_getIssueComments.
  match goal with
  | |- context [events (bind ?c ?k m)] =>
      destruct (bind_events_prefix c k m) as [r3 ->]
  end.
  unfold call.
  destruct (Client.getIssueComments (client source) sourceIssueNumber (world m)).
  cbn. eexists; reflexivity.
Qed.

Lemma performAction_no_comment_fetch comparison :
  emitsOnly notCommentFetch (performAction source target comparison).
Proof. emits. Qed.

Lemma processComparison_without_target comparison :
  IssueComparison.targetIssue comparison = None ->
  emitsOnly notCommentOperation (processComparison source target comparison).
Proof.
  destruct comparison as [s t a]. cbn. intros ->. emits.
Qed.

(** A fetch of comments happens in an iteration exactly when the comparison
    has a target issue and the action on the issue returned. *)
Lemma comment_fetch_iff (c : IssueComparison.t) m :
  existsb isCommentFetch (events (processComparison source target c m)) = true
  <-> (IssueComparison.targetIssue c <> None
       /\ result (performAction source target c m) = Ok tt).
Proof.
  pose proof (processComparison_run source target c m) as Hrun.
  destruct (result (performAction source target c m)) as [[]|e] eqn:Hp.
  - destruct (IssueComparison.targetIssue c) as [t|] eqn:Ht.
    + split; [intros _; split; [discriminate | reflexivity]|]. intros _.
      assert (Hin : exists pre rest,
        events (processBody source target c m)
        = (pre ++ Call (role source)
                    (GetIssueComments
                       (Issue.number
                          (issueAt (final (performAction source target c m))
                             (IssueComparison.sourceIssue c)))) :: rest)%list).
      { unfold processBody. rewrite (bind_ok _ _ _ _ Hp). rewrite Ht.
        cbn [events]. unfold bind. cbn [readIssue].
        match goal with
        | |- context [syncIssueComments source target ?a ?b ?m'] =>
            destruct (syncIssueComments_starts a b m') as [rest Hs];
            destruct (syncIssueComments source target a b m') as [r m2 ev2]
        end.
        cbn [events app] in *. subst ev2. eexists _, _. reflexivity. }
      destruct Hin as (pre & rest & Hin).
      assert (Hev : exists more,
        events (processComparison source target c m)
        = (events (processBody source target c m) ++ more)%list).
      { unfold processComparison. apply tryCatch_events_prefix. }
      destruct Hev as [more ->]. rewrite Hin, !existsb_app. cbn.
      now rewrite orb_true_r.
    + split; [|intros [H _]; now elim H]. intros H.
      pose proof (processComparison_without_target c Ht m) as Hn.
      assert (Hf : existsb isCommentFetch
                     (events (processComparison source target c m)) = false).
      { apply existsb_forallb_negb.
        rewrite forallb_forall in Hn |- *. intros x Hx.
        specialize (Hn x Hx). unfold notCommentOperation in Hn.
        destruct x as [|side []]; cbn in *; congruence. }
      congruence.
  - split; [|intros [_ H]; discriminate]. intros H.
    assert (Hb : processBody source target c m
                 = mkOutcome (Throw e) (final (performAction source target c m))
                     (events (performAction source target c m))).
    { unfold processBody. now rewrite (bind_throw _ _ _ _ Hp). }
    rewrite Hb in Hrun. cbn [result final events] in Hrun.
    rewrite Hrun in H. cbn [events] in H.
    rewrite existsb_app in H. cbn in H. rewrite orb_false_r in H.
    pose proof (existsb_forallb_negb isCommentFetch _
                  (performAction_no_comment_fetch c m)).
    congruence.
Qed.

(** An iteration of the comment loop: the creation is attempted, and its
    failure ends in a warning. *)
Lemma processCommentComparison_run targetIssueNumber
    (cc : CommentComparison.t) m :
  let fields := commentAt m (CommentComparison.sourceComment cc) in
  let request :=
    Call (role target)
      (CreateIssueComment targetIssueNumber
         (CommentComparison.sourceComment cc) fields) in
  let creating :=
    Log Info ("💬 Creating comment in issue #"
              ++ Js.numberToString targetIssueNumber) in
  match CommentComparison.action cc,
        fst (Client.createIssueComment (client target) targetIssueNumber
               fields (world m)) with
  | create, Ok _ =>
      events (processCommentComparison target targetIssueNumber cc m)
      = [creating; request;
         Log Info ("✓ Created comment in issue #"
                   ++ Js.numberToString targetIssueNumber)]
  | create, Throw e =>
      events (processCommentComparison target targetIssueNumber cc m)
      = [creating; request;
         Log Warning ("Failed to sync comment in issue #"
                      ++ Js.numberToString targetIssueNumber ++ ": "
                      ++ Js.messageOf e)]
  | _, _ => events (processCommentComparison target targetIssueNumber cc m) = []
  end.
Proof.
  unfold processCommentComparison, createComment, client_createIssueComment,
    core_info, core_warning, tryCatch, bind, call, readComment, log.
  destruct (CommentComparison.action cc); cbn; try reflexivity.
  destruct (Client.createIssueComment _ _ _ _) as [[[]|e] w]; reflexivity.
Qed.

End Comments.

(** C8, as the code has it. Comment synchronisation runs for a comparison
    exactly when its [targetIssue] is present and the action on the issue
    itself returned (every such [skip], and every [update] whose update
    call succeeded): a throwing update goes to the warning of the execution
    loop and the comments of that issue are left for a later pass. No
    failure inside comment synchronisation reaches the issue-level caller:
    a failing comment fetch ends in one warning, and in the comment loop
    every comparison is processed from the machine left by those before
    it, a failing creation ending in its own warning. *)
Theorem comment_sync_follows_successful_action {W : Type}
    (source target : Client.t W) :
  let S := connect Source source in
  let T := connect Target target in
  (forall c m,
      existsb isCommentFetch (events (processComparison S T c m)) = true
      <-> (IssueComparison.targetIssue c <> None
           /\ result (performAction S T c m) = Ok tt))
  /\ (forall sn tn m,
        let failed e :=
          Log Warning ("Failed to sync comments for issue #"
                       ++ Js.numberToString sn ++ ": " ++ Js.messageOf e) in
        result (syncIssueComments S T sn tn m) = Ok tt
        /\ match Client.getIssueComments source sn (world m) with
           | (Throw e, _) =>
               events (syncIssueComments S T sn tn m)
               = [Call Source (GetIssueComments sn); failed e]
           | (Ok _, w1) =>
               match Client.getIssueComments target tn w1 with
               | (Throw e, _) =>
                   events (syncIssueComments S T sn tn m)
                   = [Call Source (GetIssueComments sn);
                      Call Target (GetIssueComments tn); failed e]
               | (Ok _, _) => True
               end
           end)
  /\ (forall tn before cc after m0,
        let m1 := final (processAllComments T tn before m0) in
        let item := processCommentComparison T tn cc m1 in
        let fields := commentAt m1 (CommentComparison.sourceComment cc) in
        let request :=
          Call Target
            (CreateIssueComment tn (CommentComparison.sourceComment cc) fields) in
        let creating :=
          Log Info ("💬 Creating comment in issue #" ++ Js.numberToString tn) in
        result (processAllComments T tn (before ++ cc :: after) m0) = Ok tt
        /\ events (processAllComments T tn (before ++ cc :: after) m0)
           = (events (processAllComments T tn before m0) ++ events item
              ++ events (processAllComments T tn after (final item)))%list
        /\ result item = Ok tt
        /\ match CommentComparison.action cc,
                 fst (Client.createIssueComment target tn fields (world m1)) with
           | create, Ok _ =>
               events item
               = [creating; request;
                  Log Info ("✓ Created comment in issue #"
                            ++ Js.numberToString tn)]
           | create, Throw e =>
               events item
               = [creating; request;
                  Log Warning ("Failed to sync comment in issue #"
                               ++ Js.numberToString tn ++ ": "
                               ++ Js.messageOf e)]
           | _, _ => events item = []
           end).
Proof.
  intros S T. split; [|split].
  - intros c m. apply comment_fetch_iff.
  - intros sn tn m failed.
    split; [apply result_unit, syncIssueComments_returns|].
    destruct (Client.getIssueComments source sn (world m)) as [[l1|e] w1] eqn:E1.
    + destruct (client_getIssueComments_ok S sn m l1 w1 E1)
        as (refs & m1 & R1 & Hw1).
      destruct (Client.getIssueComments target tn w1) as [[l2|e] w2] eqn:E2;
        [exact I|].
      rewrite <- Hw1 in E2.
      pose proof (client_getIssueComments_throw T tn m1 e w2 E2) as R2.
      unfold syncIssueComments.
      rewrite (tryCatch_second_throws _ _ _ _ m refs e);
        rewrite R1; [| reflexivity | cbn [final]; now rewrite R2].
      cbn [final events]. rewrite R2. reflexivity.
    + pose proof (client_getIssueComments_throw S sn m e w1 E1) as R1.
      unfold syncIssueComments.
      rewrite (tryCatch_first_throws _ _ _ m e); rewrite R1; reflexivity.
  - intros tn before cc after m0 m1 item fields request creating.
    pose proof (forOf_split (processCommentComparison T tn)
                  (processCommentComparison_returns T tn) before cc after m0)
      as Hsplit.
    cbv zeta in Hsplit. fold (processAllComments T tn before m0) in Hsplit.
    fold m1 in Hsplit. fold item in Hsplit.
    fold (processAllComments T tn after (final item)) in Hsplit.
    fold (processAllComments T tn (before ++ cc :: after) m0) in Hsplit.
    repeat split.
    + apply result_unit. unfold processAllComments.
      apply neverThrows_forOf. intros x acc.
      apply processCommentComparison_returns.
    + now rewrite Hsplit.
    + apply result_unit, processCommentComparison_returns.
    + exact (processCommentComparison_run T tn cc m1).
Qed.

(** C8 as stated fails: in the pass of the scenario the comparison of
    "Bug A" has a target issue, its update throws, and no comment is
    fetched or created. *)
Lemma comment_sync_skipped_when_update_throws :
  result (planIssues (connect Source Scenario.sourceClient)
            (connect Target Scenario.targetClient) Scenario.start)
  = Ok [IssueComparison.mk 0 (Some 2%nat) update;
        IssueComparison.mk 1 None create]
  /\ existsb isCommentOperation
       (events (syncIssues Scenario.sourceClient Scenario.targetClient
                  Scenario.start)) = false
  /\ existsb isCommentFetch
       (events (processComparison (connect Source Scenario.sourceClient)
                  (connect Target Scenario.targetClient)
                  (IssueComparison.mk 0 (Some 2%nat) update)
                  Scenario.fetched)) = false.
Proof. repeat split; vm_compute; reflexivity. Qed.

(** C9. A [create] comparison produced by [compareIssues] involves no
    comment operation: processing it fetches no comments, on either side,
    and creates none. *)
Theorem create_touches_no_comment {W : Type} (source target : Client.t W)
    (m : Machine W) (sourceIssues targetIssues : list ref)
    (comparisons : list IssueComparison.t) (c : IssueComparison.t)
    (m' : Machine W) :
  result (compareIssues sourceIssues targetIssues m) = Ok comparisons ->
  In c comparisons ->
  IssueComparison.action c = create ->
  IssueComparison.targetIssue c = None
  /\ forallb notCommentOperation
       (events (processComparison (connect Source source)
                  (connect Target target) c m')) = true.
Proof.
  intros Hr Hin Ha.
  destruct (compareIssues_run m sourceIssues targetIssues) as (Hrun & _).
  rewrite Hrun in Hr. injection Hr as <-.
  apply in_map_iff in Hin. destruct Hin as (s & <- & _).
  assert (Ht : IssueComparison.targetIssue (classify m targetIssues s) = None).
  { revert Ha. unfold classify.
    destruct (find _ targetIssues); [destruct (_ || _)|]; cbn;
      intros; congruence. }
  split; [exact Ht|].
  now apply processComparison_without_target.
Qed.

(** "Bug B" has no counterpart in the target of the scenario. *)
Lemma create_touches_no_comment_witness :
  forallb notCommentOperation
    (events (processComparison (connect Source Scenario.sourceClient)
               (connect Target Scenario.targetClient)
               (IssueComparison.mk 1 None create) Scenario.fetched)) = true.
Proof.
  refine (proj2 (create_touches_no_comment Scenario.sourceClient
                   Scenario.targetClient Scenario.fetched [0%nat; 1%nat]
                   [2%nat]
                   [IssueComparison.mk 0 (Some 2%nat) update;
                    IssueComparison.mk 1 None create]
                   (IssueComparison.mk 1 None create) Scenario.fetched
                   _ _ _)).
  - reflexivity.
  - simpl. right. left. reflexivity.
  - reflexivity.
Defined.

(** * Further properties of the engine *)

(** ** Counting the events of a computation *)

Section Counting.
Context {W : Type}.

Lemma filter_none {A : Type} (p : A -> bool) (l : list A) :
  forallb (fun x => negb (p x)) l = true -> filter p l = [].
Proof.
  induction l as [|x l IH]; cbn; [reflexivity|].
  rewrite andb_true_iff. intros [Hx Hl].
  apply negb_true_iff in Hx. rewrite Hx. auto.
Qed.

(** Events of the kind [p] of a sequence whose continuation emits none. *)
Lemma bind_filter_first {A B : Type} p (c : M W A) (k : A -> M W B) m :
  (forall a, emitsOnly (fun e => negb (p e)) (k a)) ->
  filter p (events (bind c k m)) = filter p (events (c m)).
Proof.
  intros Hk. unfold bind. destruct (c m) as [[a|e] m1 ev1]; cbn; [|reflexivity].
  specialize (Hk a m1). destruct (k a m1) as [r m2 ev2]. cbn in *.
  now rewrite filter_app, (filter_none p ev2 Hk), app_nil_r.
Qed.

(** Events of the kind [p] of a sequence whose first part emits none. *)
Lemma bind_filter_rest {A B : Type} p (c : M W A) (k : A -> M W B) m :
  emitsOnly (fun e => negb (p e)) c ->
  filter p (events (bind c k m))
  = match result (c m) with
    | Ok a => filter p (events (k a (final (c m))))
    | Throw _ => []
    end.
Proof.
  intros Hc. unfold bind. specialize (Hc m).
  destruct (c m) as [[a|e] m1 ev1]; cbn in *.
  - destruct (k a m1) as [r m2 ev2]. cbn.
    now rewrite filter_app, (filter_none p ev1 Hc).
  - now apply filter_none.
Qed.

(** Events of the kind [p] of a guarded block whose handler emits none. *)
Lemma tryCatch_filter {A : Type} p (c : M W A) (h : Js.thrown -> M W A) m :
  (forall e, emitsOnly (fun x => negb (p x)) (h e)) ->
  filter p (events (tryCatch c h m)) = filter p (events (c m)).
Proof.
  intros Hh. unfold tryCatch.
  destruct (c m) as [[a|e] m1 ev1]; cbn; [reflexivity|].
  specialize (Hh e m1). destruct (h e m1) as [r m2 ev2]. cbn in *.
  now rewrite filter_app, (filter_none p ev2 Hh), app_nil_r.
Qed.

Lemma emitsOnly_filter {A : Type} p (c : M W A) m :
  emitsOnly (fun e => negb (p e)) c -> filter p (events (c m)) = [].
Proof. intros H. apply filter_none, H. Qed.

End Counting.

(** ** One comparison at a time *)

Section Items.
Context {W : Type}.
Variables source target : Client.t W.

Local Notation "'SRC'" := (connect Source source).
Local Notation "'TGT'" := (connect Target target).

(** What follows the action on the issue emits no call on an issue. *)
Lemma after_action_no_issue_mutation (c : IssueComparison.t) :
  emitsOnly (fun e => negb (isIssueMutation e))
    (match IssueComparison.targetIssue c with
     | Some targetIssue =>
         issue <- readIssue (IssueComparison.sourceIssue c) ;;
         existing <- readIssue targetIssue ;;
         syncIssueComments SRC TGT (Issue.number issue) (Issue.number existing)
     | None => ret tt
     end).
Proof. emits. Qed.

Lemma item_handler_silent (p : Event -> bool) (c : IssueComparison.t) e :
  (forall message, p (Log Warning message) = false) ->
  emitsOnly (W := W) (fun x => negb (p x))
    (issue <- readIssue (IssueComparison.sourceIssue c) ;;
     core_warning ("Failed to process issue " ++ Js.dquote
                   ++ Issue.title issue ++ Js.dquote ++ ": "
                   ++ Js.messageOf e)).
Proof.
  intros Hp m. cbn. now rewrite Hp.
Qed.

(** The issue calls of an iteration are those of its action. *)
Lemma item_issue_mutations (c : IssueComparison.t) m :
  filter isIssueMutation (events (processComparison SRC TGT c m))
  = filter isIssueMutation (events (performAction SRC TGT c m)).
Proof.
  unfold processComparison.
  rewrite tryCatch_filter
    by (intros e; apply item_handler_silent; reflexivity).
  unfold processBody. apply bind_filter_first.
  intros _. apply after_action_no_issue_mutation.
Qed.

(** The [update] case: one call, on the number of the target issue, with
    the source issue as it is. *)
Lemma performAction_update (s t : ref) m :
  performAction SRC TGT (IssueComparison.mk s (Some t) update) m
  = match Client.updateIssue target (Issue.number (issueAt m t))
            (issueAt m s) (world m) with
    | (Ok _, w) =>
        mkOutcome (Ok tt) (mkMachine w (issueAt m) (commentAt m) (nextRef m))
          [Log Info ("📝 Updating issue " ++ Js.dquote
                     ++ Issue.title (issueAt m s) ++ Js.dquote);
           updateCall m (IssueComparison.mk s (Some t) update) t;
           Log Info ("✓ Updated issue " ++ Js.dquote
                     ++ Issue.title (issueAt m s) ++ Js.dquote)]
    | (Throw e, w) =>
        mkOutcome (Throw e)
          (mkMachine w (issueAt m) (commentAt m) (nextRef m))
          [Log Info ("📝 Updating issue " ++ Js.dquote
                     ++ Issue.title (issueAt m s) ++ Js.dquote);
           updateCall m (IssueComparison.mk s (Some t) update) t]
    end.
Proof.
  unfold performAction, updateIssue, client_updateIssue, core_info, bind,
    readIssue, log, call, updateCall.
  cbn.
  destruct (Client.updateIssue target _ _ (world m)) as [[[]|e] w]; reflexivity.
Qed.

End Items.

(** X1. An [update] comparison makes exactly one call on an issue: the
    target's update-issue operation, with the number of the target issue
    and the source issue itself, all its fields as they are. Whether that
    call returns or throws, and whatever the comment synchronisation does
    afterwards, no other issue is created or updated. An [update]
    comparison that carries no target issue does nothing at all. *)
Theorem update_overwrites_target_with_source {W : Type}
    (source target : Client.t W) (c : IssueComparison.t) (m : Machine W) :
  IssueComparison.action c = update ->
  match IssueComparison.targetIssue c with
  | Some t =>
      filter isIssueMutation
        (events (processComparison (connect Source source)
                   (connect Target target) c m))
      = [updateCall m c t]
  | None =>
      processComparison (connect Source source) (connect Target target) c m
      = mkOutcome (Ok tt) m []
  end.
Proof.
  destruct c as [s [t|] a]; cbn; intros ->.
  - rewrite item_issue_mutations, performAction_update.
    destruct (Client.updateIssue target _ _ (world m)) as [[[]|e] w];
      reflexivity.
  - reflexivity.
Qed.

(** The stale "Bug A" of the scenario is overwritten with the source's. *)
Lemma update_overwrites_target_with_source_witness :
  filter isIssueMutation
    (events (processComparison (connect Source Scenario.sourceClient)
               (connect Target Scenario.targetClient)
               (IssueComparison.mk 0 (Some 2%nat) update) Scenario.fetched))
  = [Call Target (UpdateIssue 7 0 Scenario.bugA)].
Proof.
  exact (update_overwrites_target_with_source Scenario.sourceClient
           Scenario.targetClient (IssueComparison.mk 0 (Some 2%nat) update)
           Scenario.fetched eq_refl).
Defined.

Section ItemOutcomes.
Context {W : Type}.
Variables source target : Client.t W.

Local Notation "'SRC'" := (connect Source source).
Local Notation "'TGT'" := (connect Target target).

Lemma processComparison_skip_with_target (s t : ref) m :
  exists rest,
    events (processComparison SRC TGT (IssueComparison.mk s (Some t) skip) m)
    = skipLine m (IssueComparison.mk s (Some t) skip)
      :: Call Source (GetIssueComments (Issue.number (issueAt m s))) :: rest.
Proof.
  unfold processComparison.
  match goal with
  | |- context [tryCatch ?b ?h m] =>
      destruct (tryCatch_events_prefix b h m) as [r1 ->]
  end.
  unfold processBody, performAction, core_info, bind, readIssue, log. cbn.
  match goal with
  | |- context [syncIssueComments SRC TGT ?a ?b ?m'] =>
      destruct (syncIssueComments_starts SRC TGT a b m') as [rest Hs];
      destruct (syncIssueComments SRC TGT a b m') as [r m2 ev2]
  end.
  cbn in *. subst ev2. eexists. reflexivity.
Qed.

(** The three ways a [create] comparison can end. *)
Lemma processComparison_create (s : ref) m :
  let c := IssueComparison.mk s None create in
  match Client.getRepoInfo source (world m) with
  | (Throw e, w1) =>
      processComparison SRC TGT c m
      = mkOutcome (Ok tt)
          (mkMachine w1 (issueAt m) (commentAt m) (nextRef m))
          [Call Source GetRepoInfo; itemWarning m c e]
  | (Ok repoInfo, w1) =>
      let payload := payloadFor repoInfo (issueAt m s) in
      let store := fun x => if Nat.eqb x (nextRef m) then payload
                            else issueAt m x in
      match Client.createIssue target payload w1 with
      | (Ok _, w2) =>
          processComparison SRC TGT c m
          = mkOutcome (Ok tt)
              (mkMachine w2 store (commentAt m) (Datatypes.S (nextRef m)))
              [Call Source GetRepoInfo; creatingLine m c;
               Call Target (CreateIssue (nextRef m) payload);
               Log Info ("✓ Created issue " ++ Js.dquote
                         ++ Issue.title (issueAt m s) ++ Js.dquote)]
      | (Throw e, w2) =>
          processComparison SRC TGT c m
          = mkOutcome (Ok tt)
              (mkMachine w2 store (commentAt m) (Datatypes.S (nextRef m)))
              [Call Source GetRepoInfo; creatingLine m c;
               Call Target (CreateIssue (nextRef m) payload);
               itemWarning m c e]
      end
  end.
Proof.
  cbv zeta.
  unfold processComparison, processBody, performAction, prepareSourceLink,
    client_getRepoInfo, createIssue, client_createIssue, core_info,
    core_warning, tryCatch, bind, readIssue, newIssue, log, call, ret,
    itemWarning, creatingLine, payloadFor, backlink.
  cbn.
  destruct (Client.getRepoInfo source (world m)) as [[repoInfo|e] w1]; cbn;
    [|reflexivity].
  rewrite Nat.eqb_refl. cbn.
  destruct (Client.createIssue target _ w1) as [[[]|e] w2]; cbn;
    [reflexivity|].
  destruct (Nat.eqb s (nextRef m)); reflexivity.
Qed.

End ItemOutcomes.

(** X2. A [skip] comparison never creates or updates an issue. Without a
    target issue it only logs that the issue is skipped; with one, the log
    line is followed by the comment synchronisation of the pair, which
    starts by fetching the comments of the source issue's number. *)
Theorem skip_touches_no_issue {W : Type} (source target : Client.t W)
    (c : IssueComparison.t) (m : Machine W) :
  IssueComparison.action c = skip ->
  filter isIssueMutation
    (events (processComparison (connect Source source)
               (connect Target target) c m)) = []
  /\ match IssueComparison.targetIssue c with
     | None =>
         processComparison (connect Source source) (connect Target target) c m
         = mkOutcome (Ok tt) m [skipLine m c]
     | Some t =>
         exists rest,
           events (processComparison (connect Source source)
                     (connect Target target) c m)
           = skipLine m c
             :: Call Source
                  (GetIssueComments
                     (Issue.number (issueAt m (IssueComparison.sourceIssue c))))
             :: rest
     end.
Proof.
  destruct c as [s t a]; cbn; intros ->. split.
  - rewrite item_issue_mutations. reflexivity.
  - destruct t as [t|]; [|reflexivity].
    apply processComparison_skip_with_target.
Qed.

(** An issue already in sync, with its counterpart in the target. *)
Lemma skip_touches_no_issue_witness :
  filter isIssueMutation
    (events (processComparison (connect Source Scenario.sourceClient)
               (connect Target Scenario.targetClient)
               (IssueComparison.mk 0 (Some 0%nat) skip) Scenario.fetched))
  = [].
Proof.
  exact (proj1 (skip_touches_no_issue Scenario.sourceClient
                  Scenario.targetClient
                  (IssueComparison.mk 0 (Some 0%nat) skip) Scenario.fetched
                  eq_refl)).
Defined.

(** X3. A [create] comparison without target issue ends in one of three
    ways. If the source repository descriptor cannot be read, no issue is
    created and no object allocated: the only call is the lookup, followed
    by one warning that names the issue. Otherwise the payload is allocated
    and create-issue is called once; the success line is logged when the
    call returns, and one warning naming the issue when it throws. The
    iteration returns in all three cases. *)
Theorem create_ends_in_success_or_one_warning {W : Type}
    (source target : Client.t W) (c : IssueComparison.t) (m : Machine W) :
  IssueComparison.action c = create ->
  IssueComparison.targetIssue c = None ->
  let item :=
    processComparison (connect Source source) (connect Target target) c m in
  let issue := issueAt m (IssueComparison.sourceIssue c) in
  match Client.getRepoInfo source (world m) with
  | (Throw e, w1) =>
      item = mkOutcome (Ok tt)
               (mkMachine w1 (issueAt m) (commentAt m) (nextRef m))
               [Call Source GetRepoInfo; itemWarning m c e]
  | (Ok repoInfo, w1) =>
      let payload := payloadFor repoInfo issue in
      let store := fun x => if Nat.eqb x (nextRef m) then payload
                            else issueAt m x in
      match Client.createIssue target payload w1 with
      | (Ok _, w2) =>
          item = mkOutcome (Ok tt)
                   (mkMachine w2 store (commentAt m) (Datatypes.S (nextRef m)))
                   [Call Source GetRepoInfo; creatingLine m c;
                    Call Target (CreateIssue (nextRef m) payload);
                    Log Info ("✓ Created issue " ++ Js.dquote
                              ++ Issue.title issue ++ Js.dquote)]
      | (Throw e, w2) =>
          item = mkOutcome (Ok tt)
                   (mkMachine w2 store (commentAt m) (Datatypes.S (nextRef m)))
                   [Call Source GetRepoInfo; creatingLine m c;
                    Call Target (CreateIssue (nextRef m) payload);
                    itemWarning m c e]
      end
  end.
Proof.
  destruct c as [s t a]; cbn; intros -> ->.
  exact (processComparison_create source target s m).
Qed.

(** Without the repository descriptor "Bug B" is not created. *)
Lemma create_ends_in_success_or_one_warning_witness :
  events (processComparison (connect Source Scenario.sourceWithoutDescriptor)
            (connect Target Scenario.targetClient)
            (IssueComparison.mk 1 None create) Scenario.fetched)
  = [Call Source GetRepoInfo;
     Log Warning ("Failed to process issue " ++ Js.dquote ++ "Bug B"
                  ++ Js.dquote ++ ": boom")].
Proof.
  pose proof (create_ends_in_success_or_one_warning
                Scenario.sourceWithoutDescriptor Scenario.targetClient
                (IssueComparison.mk 1 None create) Scenario.fetched
                eq_refl eq_refl) as H.
  hnf in H. exact (f_equal events H).
Defined.

(** ** The calls of a whole pass *)

Ltac on_either_side :=
  intros; repeat match goal with s : Side |- _ => destruct s end; reflexivity.

Section PassCalls.
Context {W : Type}.
Variables source target : Client.t W.

Local Notation "'SRC'" := (connect Source source).
Local Notation "'TGT'" := (connect Target target).

Lemma after_action_quiet (p : Event -> bool) (c : IssueComparison.t) :
  (forall level message, p (Log level message) = false) ->
  (forall side n, p (Call side (GetIssueComments n)) = false) ->
  (forall side n r f, p (Call side (CreateIssueComment n r f)) = false) ->
  emitsOnly (fun e => negb (p e))
    (match IssueComparison.targetIssue c with
     | Some targetIssue =>
         issue <- readIssue (IssueComparison.sourceIssue c) ;;
         existing <- readIssue targetIssue ;;
         syncIssueComments SRC TGT (Issue.number issue) (Issue.number existing)
     | None => ret tt
     end).
Proof.
  intros Hlog Hfetch Hcreate.
  repeat first
    [ progress engine_unfold
    | progress cbv beta
    | apply emitsOnly_bind; [|intros]
    | apply emitsOnly_tryCatch; [|intros]
    | apply emitsOnly_forOf; intros
    | apply emitsOnly_log; now rewrite Hlog
    | apply emitsOnly_call; now rewrite ?Hfetch, ?Hcreate
    | match goal with
      | |- emitsOnly _ (match ?x with _ => _ end) => destruct x
      end
    | apply emitsOnly_silent; intros; reflexivity ].
Qed.

(** The calls of kind [p] of an iteration are those of its action, for a
    kind of call that the comment synchronisation never makes. *)
Lemma item_filter (p : Event -> bool) (c : IssueComparison.t) m :
  (forall level message, p (Log level message) = false) ->
  (forall side n, p (Call side (GetIssueComments n)) = false) ->
  (forall side n r f, p (Call side (CreateIssueComment n r f)) = false) ->
  filter p (events (processComparison SRC TGT c m))
  = filter p (events (performAction SRC TGT c m)).
Proof.
  intros Hlog Hfetch Hcreate. unfold processComparison.
  rewrite tryCatch_filter
    by (intros e; apply item_handler_silent; intros; apply Hlog).
  unfold processBody. apply bind_filter_first.
  intros _. now apply after_action_quiet.
Qed.

Lemma item_updates (c : IssueComparison.t) m :
  filter isUpdateIssue (events (processComparison SRC TGT c m))
  = match IssueComparison.action c, IssueComparison.targetIssue c with
    | update, Some t => [updateCall m c t]
    | _, _ => []
    end.
Proof.
  rewrite item_filter by on_either_side.
  destruct c as [s [t|] []]; cbn [IssueComparison.action
                                    IssueComparison.targetIssue].
  - apply emitsOnly_filter. emits.
  - rewrite performAction_update.
    destruct (Client.updateIssue target _ _ (world m)) as [[[]|e] w];
      reflexivity.
  - reflexivity.
  - apply emitsOnly_filter. emits.
  - reflexivity.
  - reflexivity.
Qed.

Lemma performAction_create_calls (s : ref) (t : option ref) m :
  filter isGetRepoInfo
    (events (performAction SRC TGT (IssueComparison.mk s t create) m))
  = [Call Source GetRepoInfo]
  /\ filter isCreateIssue
       (events (performAction SRC TGT (IssueComparison.mk s t create) m))
     = match fst (Client.getRepoInfo source (world m)) with
       | Ok repoInfo =>
           [Call Target
              (CreateIssue (nextRef m) (payloadFor repoInfo (issueAt m s)))]
       | Throw _ => []
       end.
Proof.
  unfold performAction, prepareSourceLink, client_getRepoInfo, createIssue,
    client_createIssue, core_info, bind, readIssue, newIssue, log, call, ret,
    payloadFor, backlink.
  cbn.
  destruct (Client.getRepoInfo source (world m)) as [[repoInfo|e] w1]; cbn;
    [|split; reflexivity].
  rewrite Nat.eqb_refl. cbn.
  destruct (Client.createIssue target _ w1) as [[[]|e] w2]; cbn;
    split; reflexivity.
Qed.

Lemma item_repo_lookups (c : IssueComparison.t) m :
  filter isGetRepoInfo (events (processComparison SRC TGT c m))
  = match IssueComparison.action c with
    | create => [Call Source GetRepoInfo]
    | _ => []
    end.
Proof.
  rewrite item_filter by on_either_side.
  destruct c as [s t []]; cbn [IssueComparison.action].
  - apply performAction_create_calls.
  - destruct t as [t|]; [|reflexivity]. rewrite performAction_update.
    destruct (Client.updateIssue target _ _ (world m)) as [[[]|e] w];
      reflexivity.
  - reflexivity.
Qed.

Lemma item_creates (c : IssueComparison.t) m :
  filter isCreateIssue (events (processComparison SRC TGT c m))
  = match IssueComparison.action c,
          fst (Client.getRepoInfo source (world m)) with
    | create, Ok repoInfo =>
        [Call Target
           (CreateIssue (nextRef m)
              (payloadFor repoInfo
                 (issueAt m (IssueComparison.sourceIssue c))))]
    | _, _ => []
    end.
Proof.
  rewrite item_filter by on_either_side.
  destruct c as [s t []]; cbn [IssueComparison.action
                                 IssueComparison.sourceIssue].
  - apply performAction_create_calls.
  - destruct t as [t|]; [|reflexivity]. rewrite performAction_update.
    destruct (Client.updateIssue target _ _ (world m)) as [[[]|e] w];
      reflexivity.
  - reflexivity.
Qed.

Lemma processAll_step (c : IssueComparison.t) (rest : list IssueComparison.t) m :
  events (processAll SRC TGT (c :: rest) m)
  = (events (processComparison SRC TGT c m)
     ++ events (processAll SRC TGT rest
                  (final (processComparison SRC TGT c m))))%list.
Proof.
  pose proof (forOf_split (processComparison SRC TGT)
                (processComparison_returns SRC TGT) [] c rest m) as H.
  cbv zeta in H. cbn [app] in H. unfold processAll. rewrite H. reflexivity.
Qed.

(** The loop calls update-issue once per [update] comparison with a target,
    looks the source repository up once per [create] comparison, and calls
    create-issue at most once per [create] comparison. *)
Lemma processAll_calls (comparisons : list IssueComparison.t) :
  forall m,
    let trace := events (processAll SRC TGT comparisons m) in
    List.length (filter isUpdateIssue trace)
    = List.length (filter needsUpdate comparisons)
    /\ List.length (filter isGetRepoInfo trace)
       = List.length (filter needsCreate comparisons)
    /\ (List.length (filter isCreateIssue trace)
        <= List.length (filter needsCreate comparisons))%nat.
Proof.
  induction comparisons as [|c rest IH]; intros m; cbv zeta.
  - cbn. auto.
  - rewrite processAll_step, !filter_app, !length_app.
    rewrite item_updates, item_repo_lookups, item_creates.
    destruct (IH (final (processComparison SRC TGT c m))) as (-> & -> & Hle).
    destruct c as [s [t|] []];
      try destruct (fst (Client.getRepoInfo source (world m)));
      cbn [filter needsUpdate needsCreate Action_eqb IssueComparison.action
           IssueComparison.targetIssue List.length Nat.add];
      repeat split; lia.
Qed.

End PassCalls.

Section PassCounts.
Context {W : Type}.
Variables source target : Client.t W.

Local Notation "'SRC'" := (connect Source source).
Local Notation "'TGT'" := (connect Target target).

Lemma planIssues_no_update :
  emitsOnly (fun e => negb (isUpdateIssue e)) (planIssues SRC TGT).
Proof. unfold planIssues. emits. Qed.

Lemma planIssues_no_lookup :
  emitsOnly (fun e => negb (isGetRepoInfo e)) (planIssues SRC TGT).
Proof. unfold planIssues. emits. Qed.

Lemma planIssues_no_create :
  emitsOnly (fun e => negb (isCreateIssue e)) (planIssues SRC TGT).
Proof. unfold planIssues. emits. Qed.

(** An [update] comparison of [compareIssues] always has its target. *)
Lemma classify_needsUpdate (m : Machine W) targets (refs : list ref) :
  filter needsUpdate (map (classify m targets) refs)
  = filter (fun c => Action_eqb (IssueComparison.action c) update)
      (map (classify m targets) refs).
Proof.
  apply filter_ext_in. intros c Hc. apply in_map_iff in Hc.
  destruct Hc as (s & <- & _). unfold classify, needsUpdate.
  destruct (find _ targets); [destruct (_ || _)|]; reflexivity.
Qed.

Lemma count_partition (comparisons : list IssueComparison.t) :
  (countAction create comparisons + countAction update comparisons
   + countAction skip comparisons)%Z
  = Z.of_nat (List.length comparisons).
Proof.
  unfold countAction.
  induction comparisons as [|c rest IH]; [reflexivity|].
  cbn [filter List.length].
  destruct (IssueComparison.action c); cbn [Action_eqb List.length]; lia.
Qed.

End PassCounts.

(** X4. With both lists fetched, the calls of the pass follow its plan: the
    target's update-issue operation is called exactly once per [update]
    comparison, the source repository descriptor is read exactly once per
    [create] comparison, and the target's create-issue operation is called
    at most once per [create] comparison. The counts are those of the plan
    summary. *)
Theorem calls_follow_the_plan {W : Type} (source target : Client.t W)
    (m : Machine W) :
  fetchFailure source target (world m) = None ->
  exists comparisons,
    result (planIssues (connect Source source) (connect Target target) m)
    = Ok comparisons
    /\ let trace := events (syncIssues source target m) in
       Z.of_nat (List.length (filter isUpdateIssue trace))
       = countAction update comparisons
       /\ Z.of_nat (List.length (filter isGetRepoInfo trace))
          = countAction create comparisons
       /\ (Z.of_nat (List.length (filter isCreateIssue trace))
           <= countAction create comparisons)%Z.
Proof.
  intros Hfetch.
  destruct (planIssues_run source target m Hfetch)
    as (refs1 & refs2 & R & _ & _).
  cbv zeta in R. eexists. split; [exact R|]. cbv zeta.
  rewrite (syncIssues_after_plan source target m _ R). cbn [events].
  rewrite !filter_app.
  rewrite (emitsOnly_filter isUpdateIssue _ m
             (planIssues_no_update source target)).
  rewrite (emitsOnly_filter isGetRepoInfo _ m
             (planIssues_no_lookup source target)).
  rewrite (emitsOnly_filter isCreateIssue _ m
             (planIssues_no_create source target)).
  cbn [filter isUpdateIssue isGetRepoInfo isCreateIssue app].
  rewrite !app_nil_r.
  match goal with
  | |- context [processAll ?s ?t ?cs ?m'] =>
      destruct (processAll_calls source target cs m') as (Hu & Hl & Hc)
  end.
  cbv zeta in Hu, Hl, Hc. rewrite Hu, Hl, classify_needsUpdate.
  unfold countAction, needsCreate in *. repeat split; lia.
Qed.

(** The pass of the scenario: one update, one creation. *)
Lemma calls_follow_the_plan_witness :
  exists comparisons,
    result (planIssues (connect Source Scenario.sourceClient)
              (connect Target Scenario.targetClient) Scenario.start)
    = Ok comparisons
    /\ let trace :=
         events (syncIssues Scenario.sourceClient Scenario.targetClient
                   Scenario.start) in
       Z.of_nat (List.length (filter isUpdateIssue trace))
       = countAction update comparisons
       /\ Z.of_nat (List.length (filter isGetRepoInfo trace))
          = countAction create comparisons
       /\ (Z.of_nat (List.length (filter isCreateIssue trace))
           <= countAction create comparisons)%Z.
Proof.
  exact (calls_follow_the_plan Scenario.sourceClient Scenario.targetClient
           Scenario.start eq_refl).
Defined.

(** X5. The three counts of the plan summary add up to the number of
    source issues: [compareIssues] gives every source issue exactly one of
    the three actions. The summary itself is one info line; logging it
    changes nothing and cannot fail. *)
Theorem plan_counts_add_up {W : Type} (m : Machine W)
    (sourceIssues targetIssues : list ref) :
  exists comparisons,
    result (compareIssues sourceIssues targetIssues m) = Ok comparisons
    /\ (countAction create comparisons + countAction update comparisons
        + countAction skip comparisons)%Z
       = Z.of_nat (List.length sourceIssues)
    /\ exists line,
         logSyncPlan comparisons m = mkOutcome (Ok tt) m [Log Info line].
Proof.
  destruct (compareIssues_run m sourceIssues targetIssues) as (R & _).
  eexists. split; [exact R|]. split.
  - rewrite count_partition. now rewrite length_map.
  - eexists. reflexivity.
Qed.

(** ** Comment synchronisation, from fetch to creation *)

Section CommentPath.
Context {W : Type}.

(** [compareComments] reads the store and computes [selectComments]. *)
Lemma compareComments_run (m : Machine W) sourceComments targetComments :
  compareComments sourceComments targetComments m
  = mkOutcome (Ok (selectComments m sourceComments targetComments)) m [].
Proof.
  unfold selectComments. cbv zeta beta.
  destruct (hd_error sourceComments) as [o|] eqn:Ho;
    destruct (hd_error (rev sourceComments)) as [c|] eqn:Hc.
  - remember
      (existsb (fun t => String.eqb (Comment.body (commentAt m t))
                           (Comment.body (commentAt m o))) targetComments)
      as po eqn:Eo.
    remember
      (existsb (fun t => String.eqb (Comment.body (commentAt m t))
                           (Comment.body (commentAt m c))) targetComments)
      as pc eqn:Ec.
    symmetry in Eo, Ec.
    unfold compareComments. rewrite index_first, index_last, Ho, Hc.
    unfold bind, readComment, someComment, ret, Js.push. cbn.
    rewrite Eo. destruct po, (Nat.eqb c o); cbn; rewrite ?Ec;
      destruct pc; reflexivity.
  - unfold compareComments. rewrite index_first, index_last, Ho, Hc.
    unfold bind, readComment, someComment, ret, Js.push. cbn.
    destruct (existsb _ targetComments); reflexivity.
  - unfold compareComments. rewrite index_first, index_last, Ho, Hc.
    unfold bind, readComment, someComment, ret, Js.push. cbn.
    destruct (existsb _ targetComments); reflexivity.
  - unfold compareComments. rewrite index_first, index_last, Ho, Hc.
    reflexivity.
Qed.

Lemma selectComments_create (m : Machine W) sourceComments targetComments :
  Forall (fun cc => CommentComparison.action cc = create)
    (selectComments m sourceComments targetComments).
Proof.
  unfold selectComments. apply Forall_app. split.
  - destruct (hd_error sourceComments); [destruct (negb _)|];
      repeat constructor.
  - destruct (hd_error (rev sourceComments)); [|constructor].
    destruct (match hd_error sourceComments with
              | Some _ => _ | None => _ end); [|constructor].
    destruct (negb _); repeat constructor.
Qed.

(** The objects made from fetched comments: consecutive new references,
    holding the fetched records in order; older objects keep theirs. *)
Lemma allocComments_loop (fetched : list Comment.t) :
  forall (acc : list ref) (m : Machine W),
  exists m',
    forOf fetched
      (fun fields refs => r <- newComment fields ;; ret (Js.push refs r)) acc m
    = mkOutcome (Ok (acc ++ seq (nextRef m) (List.length fetched))%list) m' []
    /\ world m' = world m
    /\ nextRef m' = (nextRef m + List.length fetched)%nat
    /\ (forall r, (r < nextRef m)%nat -> commentAt m' r = commentAt m r)
    /\ map (commentAt m') (seq (nextRef m) (List.length fetched)) = fetched.
Proof.
  induction fetched as [|fields rest IH]; intros acc m.
  - exists m. cbn. rewrite app_nil_r, Nat.add_0_r. auto.
  - cbn [forOf]. unfold bind at 1. cbn.
    match goal with
    | |- context [forOf rest ?body ?acc1 ?m1] =>
        destruct (IH acc1 m1) as (m' & -> & Hw & Hn & Hold & Hnew)
    end.
    cbn in *. exists m'. unfold Js.push. rewrite <- app_assoc. cbn.
    repeat split; try assumption; try lia.
    + intros r Hr. rewrite Hold by lia.
      destruct (Nat.eqb_spec r (nextRef m)); [lia | reflexivity].
    + rewrite Hold by lia. rewrite Nat.eqb_refl. now rewrite Hnew.
Qed.

Lemma client_getIssueComments_contents (c : Tracker W) n (m : Machine W)
    fetched w :
  Client.getIssueComments (client c) n (world m) = (Ok fetched, w) ->
  exists m',
    client_getIssueComments c n m
    = mkOutcome (Ok (seq (nextRef m) (List.length fetched))) m'
        [Call (role c) (GetIssueComments n)]
    /\ world m' = w
    /\ nextRef m' = (nextRef m + List.length fetched)%nat
    /\ (forall r, (r < nextRef m)%nat -> commentAt m' r = commentAt m r)
    /\ map (commentAt m') (seq (nextRef m) (List.length fetched)) = fetched.
Proof.
  intros H. unfold client_getIssueComments, bind, call. rewrite H.
  unfold allocComments.
  match goal with
  | |- context [forOf fetched ?body [] ?m1] =>
      destruct (allocComments_loop fetched [] m1)
        as (m' & -> & Hw & Hn & Hold & Hnew)
  end.
  cbn in *. exists m'. auto.
Qed.

Lemma existsb_over_map {A B : Type} (f : B -> bool) (g : A -> B) (l : list A) :
  existsb (fun x => f (g x)) l = existsb f (map g l).
Proof. induction l as [|x l IH]; cbn; [reflexivity | now rewrite IH]. Qed.

Lemma hd_error_rev_last {A : Type} (l : list A) (d : A) :
  l <> [] -> hd_error (rev l) = Some (last l d).
Proof.
  destruct l as [|x l _] using rev_ind; [congruence|]. intros _.
  now rewrite rev_unit, last_last.
Qed.

Lemma hd_error_rev_cons {A : Type} (x y : A) (l : list A) :
  hd_error (rev (x :: y :: l)) = Some (last (y :: l) x).
Proof. now rewrite (hd_error_rev_last (x :: y :: l) x) by discriminate. Qed.

End CommentPath.

Section CommentCreation.
Context {W : Type}.
Variables source target : Client.t W.

Local Notation "'SRC'" := (connect Source source).
Local Notation "'TGT'" := (connect Target target).

Lemma last_in {A : Type} (l : list A) (d : A) : l <> [] -> In (last l d) l.
Proof.
  destruct l as [|x l _] using rev_ind; [congruence|]. intros _.
  rewrite last_last. apply in_or_app. right. now left.
Qed.

Lemma last_of_map {A B : Type} (f : A -> B) (l : list A) (d : A) :
  last (map f l) (f d) = f (last l d).
Proof.
  induction l as [|x l IH]; [reflexivity|].
  destruct l as [|y l]; [reflexivity|]. exact IH.
Qed.

(** On distinct objects the selection of [compareComments] is, record for
    record, [commentsToCreate] of the records they hold. *)
Lemma selectComments_values (m : Machine W) (sourceRefs targetRefs : list ref) :
  NoDup sourceRefs ->
  map (fun cc => commentAt m (CommentComparison.sourceComment cc))
    (selectComments m sourceRefs targetRefs)
  = commentsToCreate (map (commentAt m) sourceRefs)
      (map (commentAt m) targetRefs).
Proof.
  intros Hnd. unfold selectComments, commentsToCreate. cbv zeta beta.
  destruct sourceRefs as [|o [|y l]].
  - reflexivity.
  - cbn [rev app hd_error map]. rewrite Nat.eqb_refl. cbn [negb].
    rewrite !app_nil_r.
    rewrite (existsb_over_map
               (fun c => String.eqb (Comment.body c)
                           (Comment.body (commentAt m o)))
               (commentAt m) targetRefs).
    now destruct (negb _).
  - rewrite hd_error_rev_cons. cbn [hd_error].
    assert (Hne : Nat.eqb (last (y :: l) o) o = false).
    { apply Nat.eqb_neq. intros E. inversion Hnd as [|? ? Hnotin _]; subst.
      apply Hnotin. rewrite <- E at 1. apply last_in. discriminate. }
    rewrite Hne. cbn [negb].
    change (map (commentAt m) (o :: y :: l))
      with (commentAt m o :: map (commentAt m) (y :: l)).
    cbv iota.
    change (map (commentAt m) (y :: l))
      with (commentAt m y :: map (commentAt m) l) at 1.
    cbv iota.
    rewrite (last_of_map (commentAt m) (y :: l) o).
    rewrite (existsb_over_map
               (fun c => String.eqb (Comment.body c)
                           (Comment.body (commentAt m o)))
               (commentAt m) targetRefs).
    rewrite (existsb_over_map
               (fun c => String.eqb (Comment.body c)
                           (Comment.body (commentAt m (last (y :: l) o))))
               (commentAt m) targetRefs).
    rewrite map_app.
    destruct (negb _); destruct (negb _); reflexivity.
Qed.

(** An iteration of the comment loop on a [create] comparison: one
    creation, of the comment the comparison refers to, on the target and
    the target issue number; the store is left as it is. *)
Lemma processCommentComparison_created tn (cc : CommentComparison.t) m :
  CommentComparison.action cc = create ->
  createdComments (events (processCommentComparison TGT tn cc m))
  = [(Target, tn, commentAt m (CommentComparison.sourceComment cc))]
  /\ commentAt (final (processCommentComparison TGT tn cc m)) = commentAt m.
Proof.
  intros Ha.
  unfold processCommentComparison, createComment, client_createIssueComment,
    core_info, core_warning, tryCatch, bind, call, readComment, log.
  rewrite Ha. cbn.
  destruct (Client.createIssueComment target _ _ _) as [[[]|e] w];
    split; reflexivity.
Qed.

Lemma processAllComments_created tn (selected : list CommentComparison.t) :
  Forall (fun cc => CommentComparison.action cc = create) selected ->
  forall m,
    createdComments (events (processAllComments TGT tn selected m))
    = map (fun cc =>
             (Target, tn, commentAt m (CommentComparison.sourceComment cc)))
        selected.
Proof.
  induction 1 as [|cc rest Hcc _ IH]; intros m; [reflexivity|].
  pose proof (forOf_split (processCommentComparison TGT tn)
                (processCommentComparison_returns TGT tn) [] cc rest m) as H.
  cbv zeta in H. cbn [app] in H. unfold processAllComments.
  rewrite H. cbn [events final forOf ret app]. unfold createdComments in *.
  rewrite flat_map_app.
  destruct (processCommentComparison_created tn cc m Hcc) as [Hone Hstore].
  unfold createdComments in Hone. rewrite Hone.
  fold (processAllComments TGT tn rest
          (final (processCommentComparison TGT tn cc m))).
  rewrite IH, Hstore. reflexivity.
Qed.

(** With both comment lists fetched, the synchronisation is the two
    fetches followed by the comment loop over the selection, whose comments
    are [commentsToCreate] of the fetched records. *)
Lemma syncIssueComments_fetched sn tn (m : Machine W)
    sourceComments targetComments w1 w2 :
  Client.getIssueComments source sn (world m) = (Ok sourceComments, w1) ->
  Client.getIssueComments target tn w1 = (Ok targetComments, w2) ->
  exists selected m2,
    events (syncIssueComments SRC TGT sn tn m)
    = ([Call Source (GetIssueComments sn); Call Target (GetIssueComments tn)]
       ++ events (processAllComments TGT tn selected m2))%list
    /\ Forall (fun cc => CommentComparison.action cc = create) selected
    /\ map (fun cc => commentAt m2 (CommentComparison.sourceComment cc))
         selected
       = commentsToCreate sourceComments targetComments.
Proof.
  intros E1 E2.
  destruct (client_getIssueComments_contents SRC sn m sourceComments w1 E1)
    as (m1 & R1 & Hw1 & Hn1 & Hold1 & Hnew1).
  rewrite <- Hw1 in E2.
  destruct (client_getIssueComments_contents TGT tn m1 targetComments w2 E2)
    as (m2 & R2 & Hw2 & Hn2 & Hold2 & Hnew2).
  set (sourceRefs := seq (nextRef m) (List.length sourceComments)) in *.
  set (targetRefs := seq (nextRef m1) (List.length targetComments)) in *.
  exists (selectComments m2 sourceRefs targetRefs), m2.
  split; [|split].
  - unfold syncIssueComments.
    assert (Hbody :
      (sourceComments0 <- client_getIssueComments SRC sn ;;
       targetComments0 <- client_getIssueComments TGT tn ;;
       commentComparisons <- compareComments sourceComments0 targetComments0 ;;
       processAllComments TGT tn commentComparisons) m
      = mkOutcome
          (result (processAllComments TGT tn
                     (selectComments m2 sourceRefs targetRefs) m2))
          (final (processAllComments TGT tn
                    (selectComments m2 sourceRefs targetRefs) m2))
          ([Call Source (GetIssueComments sn);
            Call Target (GetIssueComments tn)]
           ++ events (processAllComments TGT tn
                        (selectComments m2 sourceRefs targetRefs) m2))%list).
    { rewrite (bind_ok _ _ m sourceRefs) by now rewrite R1. rewrite R1.
      cbn [result final events].
      rewrite (bind_ok _ _ m1 targetRefs) by now rewrite R2. rewrite R2.
      cbn [result final events].
      rewrite (bind_ok _ _ m2 (selectComments m2 sourceRefs targetRefs))
        by now rewrite compareComments_run.
      rewrite compareComments_run. cbn [result final events app].
      reflexivity. }
    assert (Hok : result (processAllComments TGT tn
                            (selectComments m2 sourceRefs targetRefs) m2)
                  = Ok tt).
    { apply result_unit. unfold processAllComments.
      apply neverThrows_forOf. intros x acc.
      apply processCommentComparison_returns. }
    rewrite (tryCatch_ok _ _ m tt) by now rewrite Hbody.
    now rewrite Hbody.
  - apply selectComments_create.
  - rewrite selectComments_values by apply seq_NoDup.
    rewrite Hnew2. f_equal.
    rewrite <- Hnew1. apply map_ext_in. intros r Hr.
    apply in_seq in Hr. apply Hold2. lia.
Qed.

End CommentCreation.

Lemma commentsToCreate_at_most_two (sourceComments targetComments : list Comment.t) :
  (List.length (commentsToCreate sourceComments targetComments) <= 2)%nat.
Proof.
  unfold commentsToCreate. destruct sourceComments as [|c [|y l]]; cbn.
  - lia.
  - destruct (negb _); cbn; lia.
  - rewrite length_app. destruct (negb _); destruct (negb _); cbn; lia.
Qed.

Lemma commentsToCreate_nothing (sourceComments targetComments : list Comment.t) :
  (forall c,
      hd_error sourceComments = Some c
      \/ hd_error (rev sourceComments) = Some c ->
      In (Comment.body c) (map Comment.body targetComments)) ->
  commentsToCreate sourceComments targetComments = [].
Proof.
  intros H.
  assert (Hpresent : forall c,
    hd_error sourceComments = Some c
    \/ hd_error (rev sourceComments) = Some c ->
    existsb (fun t => String.eqb (Comment.body t) (Comment.body c))
      targetComments = true).
  { intros c Hc. apply existsb_exists. apply H in Hc.
    apply in_map_iff in Hc. destruct Hc as (t & Ht & Hin).
    exists t. split; [assumption | now apply String.eqb_eq]. }
  unfold commentsToCreate. destruct sourceComments as [|c [|y l]].
  - reflexivity.
  - rewrite (Hpresent c) by (left; reflexivity). reflexivity.
  - rewrite (Hpresent c) by (left; reflexivity).
    rewrite (Hpresent (last (y :: l) c))
      by (right; apply hd_error_rev_cons).
    reflexivity.
Qed.



(** X7. Whatever the two trackers answer, one comment synchronisation makes
    at most two comment creations. *)
Theorem comment_sync_creates_at_most_two {W : Type}
    (source target : Client.t W) (sn tn : Z) (m : Machine W) :
  (List.length
     (createdComments
        (events (syncIssueComments (connect Source source)
                   (connect Target target) sn tn m))) <= 2)%nat.
Proof.
  destruct (Client.getIssueComments source sn (world m))
    as [[sourceComments|e] w1] eqn:E1.
  - destruct (Client.getIssueComments target tn w1)
      as [[targetComments|e] w2] eqn:E2.
    + destruct (syncIssueComments_fetched source target sn tn m _ _ _ _ E1 E2)
        as (selected & m2 & -> & Hcreate & Hvalues).
      unfold createdComments at 1. rewrite flat_map_app. cbn [flat_map app].
      fold (createdComments
              (events (processAllComments (connect Target target) tn
                         selected m2))).
      rewrite (processAllComments_created target tn selected Hcreate m2).
      rewrite length_map, <- (length_map
        (fun cc => commentAt m2 (CommentComparison.sourceComment cc))).
      rewrite Hvalues. apply commentsToCreate_at_most_two.
    + destruct (client_getIssueComments_ok (connect Source source) sn m _ w1 E1)
        as (refs & m1 & R1 & Hw1).
      rewrite <- Hw1 in E2.
      pose proof (client_getIssueComments_throw (connect Target target) tn m1
                    e w2 E2) as R2.
      unfold syncIssueComments.
      rewrite (tryCatch_second_throws _ _ _ _ m refs e);
        rewrite R1; [| reflexivity | cbn [final]; now rewrite R2].
      cbn [final events]. rewrite R2. cbn. lia.
  - pose proof (client_getIssueComments_throw (connect Source source) sn m
                  e w1 E1) as R1.
    unfold syncIssueComments.
    rewrite (tryCatch_first_throws _ _ _ m e); rewrite R1; [|reflexivity].
    cbn. lia.
Qed.

(** X8. When the target already has a comment with the body of the first
    source comment and one with the body of the last, the synchronisation
    fetches both lists and does nothing else: no comment is created again
    and nothing is logged. *)
Theorem comment_sync_repeats_nothing {W : Type}
    (source target : Client.t W) (sn tn : Z) (m : Machine W)
    (sourceComments targetComments : list Comment.t) (w1 w2 : W) :
  Client.getIssueComments source sn (world m) = (Ok sourceComments, w1) ->
  Client.getIssueComments target tn w1 = (Ok targetComments, w2) ->
  (forall c,
      hd_error sourceComments = Some c
      \/ hd_error (rev sourceComments) = Some c ->
      In (Comment.body c) (map Comment.body targetComments)) ->
  result (syncIssueComments (connect Source source) (connect Target target)
            sn tn m) = Ok tt
  /\ events (syncIssueComments (connect Source source)
               (connect Target target) sn tn m)
     = [Call Source (GetIssueComments sn); Call Target (GetIssueComments tn)].
Proof.
  intros E1 E2 Hpresent. split.
  - apply result_unit, syncIssueComments_returns.
  - destruct (syncIssueComments_fetched source target sn tn m _ _ _ _ E1 E2)
      as (selected & m2 & -> & _ & Hvalues).
    rewrite (commentsToCreate_nothing _ _ Hpresent) in Hvalues.
    apply map_eq_nil in Hvalues. subst selected. reflexivity.
Qed.

(** The mirrored target of the scenario has "first" and "last" already. *)
Lemma comment_sync_repeats_nothing_witness :
  events (syncIssueComments (connect Source Scenario.sourceClient)
            (connect Target Scenario.mirroredTarget) 1 7 Scenario.fetched)
  = [Call Source (GetIssueComments 1); Call Target (GetIssueComments 7)].
Proof.
  refine (proj2 (comment_sync_repeats_nothing Scenario.sourceClient
                   Scenario.mirroredTarget 1 7 Scenario.fetched
                   [Comment.mk "first"; Comment.mk "last"]
                   [Comment.mk "last"; Comment.mk "a reply"; Comment.mk "first"]
                   0%nat 0%nat eq_refl eq_refl _)).
  intros c [H | H]; cbn in H; injection H as <-; cbn; auto.
Defined.

(** ** More on the issue comparator *)

Lemma classify_targetIssue {W : Type} (m : Machine W) targets s :
  IssueComparison.targetIssue (classify m targets s)
  = find (fun r => String.eqb (Issue.title (issueAt m r))
                     (Issue.title (issueAt m s))) targets.
Proof.
  unfold classify. destruct (find _ targets); [|reflexivity].
  now destruct (_ || _).
Qed.

Lemma find_in_filter {A : Type} (p q : A -> bool) (l : list A) :
  (forall x, In x l -> p x = true -> q x = true) ->
  find p (filter q l) = find p l.
Proof.
  induction l as [|x l IH]; intros H; [reflexivity|]. cbn.
  destruct (q x) eqn:Hq; cbn.
  - destruct (p x); [reflexivity|]. apply IH. intros y Hy. apply H. now right.
  - destruct (p x) eqn:Hp.
    + rewrite (H x (or_introl eq_refl) Hp) in Hq. discriminate.
    + apply IH. intros y Hy. apply H. now right.
Qed.

(** X9. Source issues that share a title are all matched to the same
    target issue, and a matched target issue is always one of the given
    target issues: nothing is de-duplicated on the source side and no
    target is invented. *)
Theorem duplicate_titles_share_target {W : Type} (m : Machine W)
    (sourceIssues targetIssues : list ref) :
  exists comparisons,
    result (compareIssues sourceIssues targetIssues m) = Ok comparisons
    /\ (forall c1 c2,
           In c1 comparisons -> In c2 comparisons ->
           Issue.title (issueAt m (IssueComparison.sourceIssue c1))
           = Issue.title (issueAt m (IssueComparison.sourceIssue c2)) ->
           IssueComparison.targetIssue c1 = IssueComparison.targetIssue c2)
    /\ (forall c t,
           In c comparisons -> IssueComparison.targetIssue c = Some t ->
           In t targetIssues).
Proof.
  destruct (compareIssues_run m sourceIssues targetIssues) as (R & _).
  eexists. split; [exact R|]. split.
  - intros c1 c2 H1 H2. apply in_map_iff in H1, H2.
    destruct H1 as (s1 & <- & _). destruct H2 as (s2 & <- & _).
    rewrite !classify_sourceIssue, !classify_targetIssue. now intros ->.
  - intros c t Hc. apply in_map_iff in Hc. destruct Hc as (s & <- & _).
    rewrite classify_targetIssue. intros Hf.
    now apply find_some in Hf.
Qed.

(** X10. Target issues whose title is the title of no source issue play no
    part: leaving them out of the target list gives the same comparisons.
    An issue that exists in the target only is never compared, hence never
    updated. *)
Theorem unmatched_targets_do_not_matter {W : Type} (m : Machine W)
    (sourceIssues targetIssues : list ref) :
  let titled t :=
    existsb (fun s => String.eqb (Issue.title (issueAt m t))
                        (Issue.title (issueAt m s))) sourceIssues in
  result (compareIssues sourceIssues (filter titled targetIssues) m)
  = result (compareIssues sourceIssues targetIssues m).
Proof.
  intros titled.
  destruct (compareIssues_run m sourceIssues targetIssues) as (-> & _).
  destruct (compareIssues_run m sourceIssues (filter titled targetIssues))
    as (-> & _).
  f_equal. apply map_ext_in. intros s Hs. unfold classify.
  rewrite find_in_filter; [reflexivity|].
  intros t _ Ht. apply existsb_exists. now exists s.
Qed.

(** X11. The comparison of a source issue does not depend on the other
    source issues: comparing a list made of two parts gives the
    comparisons of the first part followed by those of the second. *)
Theorem compareIssues_of_two_parts {W : Type} (m : Machine W)
    (first second targetIssues : list ref) :
  exists comparisons1 comparisons2,
    result (compareIssues first targetIssues m) = Ok comparisons1
    /\ result (compareIssues second targetIssues m) = Ok comparisons2
    /\ result (compareIssues (first ++ second) targetIssues m)
       = Ok (comparisons1 ++ comparisons2)%list.
Proof.
  destruct (compareIssues_run m first targetIssues) as (R1 & _).
  destruct (compareIssues_run m second targetIssues) as (R2 & _).
  destruct (compareIssues_run m (first ++ second) targetIssues) as (R & _).
  do 2 eexists. split; [exact R1|]. split; [exact R2|].
  now rewrite R, map_app.
Qed.

(** X12. [arraysEqual] does not depend on the order of its arguments, and
    a list is never equal to a longer list it is a prefix of, whichever of
    the two is given first: beyond the end of the shorter list the
    comparison fails. *)
Theorem arraysEqual_symmetric_and_strict (a b : list string) :
  arraysEqual a b = arraysEqual b a
  /\ forall x more,
       arraysEqual a (a ++ x :: more) = false
       /\ arraysEqual (a ++ x :: more) a = false.
Proof.
  assert (Hneq : forall x more, a <> (a ++ x :: more)%list).
  { intros x more E. apply (f_equal (@List.length _)) in E.
    rewrite length_app in E. cbn in E. lia. }
  split.
  - destruct (arraysEqual a b) eqn:E1; destruct (arraysEqual b a) eqn:E2;
      try reflexivity.
    + apply arraysEqual_true_iff in E1. subst.
      rewrite (proj2 (arraysEqual_true_iff b b) eq_refl) in E2. discriminate.
    + apply arraysEqual_true_iff in E2. subst.
      rewrite (proj2 (arraysEqual_true_iff a a) eq_refl) in E1. discriminate.
  - intros x more. split.
    + destruct (arraysEqual a (a ++ x :: more)) eqn:E; [|reflexivity].
      apply arraysEqual_true_iff in E. now apply Hneq in E.
    + destruct (arraysEqual (a ++ x :: more) a) eqn:E; [|reflexivity].
      apply arraysEqual_true_iff in E. symmetry in E. now apply Hneq in E.
Qed.

(** ** Whole passes, from the fetched records *)

Section FetchedRecords.
Context {W : Type}.

Lemma allocIssues_loop_contents (fetched : list Issue.t) :
  forall (acc : list ref) (m : Machine W),
  exists m',
    forOf fetched
      (fun fields refs => r <- newIssue fields ;; ret (Js.push refs r)) acc m
    = mkOutcome (Ok (acc ++ seq (nextRef m) (List.length fetched))%list) m' []
    /\ world m' = world m
    /\ nextRef m' = (nextRef m + List.length fetched)%nat
    /\ (forall r, (r < nextRef m)%nat -> issueAt m' r = issueAt m r)
    /\ map (issueAt m') (seq (nextRef m) (List.length fetched)) = fetched.
Proof.
  induction fetched as [|fields rest IH]; intros acc m.
  - exists m. cbn. rewrite app_nil_r, Nat.add_0_r. auto.
  - cbn [forOf]. unfold bind at 1. cbn.
    match goal with
    | |- context [forOf rest ?body ?acc1 ?m1] =>
        destruct (IH acc1 m1) as (m' & -> & Hw & Hn & Hold & Hnew)
    end.
    cbn in *. exists m'. unfold Js.push. rewrite <- app_assoc. cbn.
    repeat split; try assumption; try lia.
    + intros r Hr. rewrite Hold by lia.
      destruct (Nat.eqb_spec r (nextRef m)); [lia | reflexivity].
    + rewrite Hold by lia. rewrite Nat.eqb_refl. now rewrite Hnew.
Qed.

Lemma client_syncIssues_contents (c : Tracker W) (m : Machine W) fetched w :
  Client.syncIssues (client c) (world m) = (Ok fetched, w) ->
  exists m',
    client_syncIssues c m
    = mkOutcome (Ok (seq (nextRef m) (List.length fetched))) m'
        [Call (role c) SyncIssues]
    /\ world m' = w
    /\ nextRef m' = (nextRef m + List.length fetched)%nat
    /\ (forall r, (r < nextRef m)%nat -> issueAt m' r = issueAt m r)
    /\ map (issueAt m') (seq (nextRef m) (List.length fetched)) = fetched.
Proof.
  intros H. unfold client_syncIssues, bind, call. rewrite H.
  unfold allocIssues.
  match goal with
  | |- context [forOf fetched ?body [] ?m1] =>
      destruct (allocIssues_loop_contents fetched [] m1)
        as (m' & -> & Hw & Hn & Hold & Hnew)
  end.
  cbn in *. exists m'. auto.
Qed.

Variables source target : Client.t W.

Local Notation "'SRC'" := (connect Source source).
Local Notation "'TGT'" := (connect Target target).

(** The plan of a pass, from the records the two trackers return: the
    issues become objects in the order fetched, the source ones first. *)
Lemma planIssues_values (m : Machine W) sourceRecords targetRecords w1 w2 :
  Client.syncIssues source (world m) = (Ok sourceRecords, w1) ->
  Client.syncIssues target w1 = (Ok targetRecords, w2) ->
  exists m2,
    let sourceIssues := seq (nextRef m) (List.length sourceRecords) in
    let targetIssues :=
      seq (nextRef m + List.length sourceRecords)
        (List.length targetRecords) in
    let comparisons := map (classify m2 targetIssues) sourceIssues in
    planIssues SRC TGT m
    = mkOutcome (Ok comparisons) m2
        ([Call Source SyncIssues; Call Target SyncIssues]
         ++ events (compareIssues sourceIssues targetIssues m2)
         ++ [analysisLine; summaryLine comparisons])%list
    /\ world m2 = w2
    /\ map (issueAt m2) sourceIssues = sourceRecords
    /\ map (issueAt m2) targetIssues = targetRecords.
Proof.
  intros E1 E2.
  destruct (client_syncIssues_contents SRC m sourceRecords w1 E1)
    as (m1 & R1 & Hw1 & Hn1 & Hold1 & Hnew1).
  rewrite <- Hw1 in E2.
  destruct (client_syncIssues_contents TGT m1 targetRecords w2 E2)
    as (m2 & R2 & Hw2 & Hn2 & Hold2 & Hnew2).
  rewrite Hn1 in R2, Hnew2.
  exists m2. cbv zeta.
  destruct (compareIssues_run m2 (seq (nextRef m) (List.length sourceRecords))
              (seq (nextRef m + List.length sourceRecords)
                 (List.length targetRecords))) as (R3 & F3 & _).
  repeat split; try assumption.
  - unfold planIssues.
    rewrite (bind_ok _ _ m _ (f_equal result R1)). rewrite R1.
    cbn [result final events].
    rewrite (bind_ok _ _ m1 _ (f_equal result R2)). rewrite R2.
    cbn [result final events].
    rewrite (bind_ok _ _ m2 _ R3). rewrite F3. cbn. reflexivity.
  - etransitivity; [|exact Hnew1]. apply map_ext_in. intros r Hr.
    apply in_seq in Hr. apply Hold2. lia.
Qed.

Lemma find_over_map {A B : Type} (p : B -> bool) (f : A -> B) (l : list A) :
  find p (map f l) = option_map f (find (fun x => p (f x)) l).
Proof.
  induction l as [|x l IH]; [reflexivity|]. cbn.
  now destruct (p (f x)).
Qed.

(** A source issue in sync with the target records is skipped. *)
Lemma classify_inSync (m : Machine W) (targetIssues : list ref) (s : ref) :
  inSync (map (issueAt m) targetIssues) (issueAt m s) ->
  IssueComparison.action (classify m targetIssues s) = skip.
Proof.
  intros (t & Hfind & Hb & Hs & Hl).
  rewrite find_over_map in Hfind. unfold classify.
  destruct (find _ targetIssues) as [r|]; [|discriminate].
  cbn in Hfind. injection Hfind as <-.
  rewrite Hb, Hs, Hl.
  rewrite (proj2 (strictEq_true_iff _ _) eq_refl).
  rewrite (proj2 (IssueState_eqb_true_iff _ _) eq_refl).
  rewrite (proj2 (arraysEqual_true_iff _ _) eq_refl). reflexivity.
Qed.

Lemma processAll_skips (comparisons : list IssueComparison.t) :
  Forall (fun c => IssueComparison.action c = skip) comparisons ->
  forall m,
    filter isIssueMutation (events (processAll SRC TGT comparisons m)) = [].
Proof.
  induction 1 as [|c rest Hc _ IH]; intros m; [reflexivity|].
  rewrite processAll_step, filter_app, IH, app_nil_r.
  rewrite item_issue_mutations.
  destruct c as [s t a]. cbn in Hc. subst a. reflexivity.
Qed.

Lemma processAll_creates_only (sourceIssues : list ref) :
  forall m,
    forallb (fun e => notUpdateIssue e && notCommentOperation e)
      (events (processAll SRC TGT
                 (map (fun s => IssueComparison.mk s None create)
                    sourceIssues) m)) = true.
Proof.
  induction sourceIssues as [|s rest IH]; intros m; [reflexivity|].
  cbn [map]. rewrite processAll_step, forallb_app, IH, andb_true_r.
  revert m.
  change (emitsOnly (fun e => notUpdateIssue e && notCommentOperation e)
            (processComparison SRC TGT (IssueComparison.mk s None create))).
  emits.
Qed.

Lemma planIssues_no_issue_mutation :
  emitsOnly (fun e => negb (isIssueMutation e)) (planIssues SRC TGT).
Proof. unfold planIssues. emits. Qed.

Lemma planIssues_no_update_no_comment :
  emitsOnly (fun e => notUpdateIssue e && notCommentOperation e)
    (planIssues SRC TGT).
Proof. unfold planIssues. emits. Qed.

(** X13. A pass over a source tracker without issues: when the source
    returns no issue and the target returns its list, the pass ends
    normally and consists of the two fetches, the analysis heading, a
    summary whose three counts are zero and the completion line; no record
    of the target leads to any call. *)
Theorem empty_source_pass_is_a_no_op
  (m : Machine W) (targetRecords : list Issue.t) (w1 w2 : W) :
  Client.syncIssues source (world m) = (Ok [], w1) ->
  Client.syncIssues target w1 = (Ok targetRecords, w2) ->
  result (syncIssues source target m) = Ok tt
  /\ events (syncIssues source target m)
     = [Call Source SyncIssues; Call Target SyncIssues;
        analysisLine; summaryLine []; completedLine]
  /\ world (final (syncIssues source target m)) = w2.
Proof.
  intros E1 E2.
  destruct (planIssues_values m [] targetRecords w1 w2 E1 E2)
    as (m2 & Hplan & Hw & _).
  cbv zeta in Hplan. cbn [List.length seq map] in Hplan.
  rewrite (syncIssues_after_plan source target m []
             (f_equal result Hplan)).
  rewrite Hplan. cbn. auto.
Qed.

(** X14. A pass against a target tracker without issues: when the target
    returns no issue, the pass calls no update-issue and no operation on
    comments, and it looks the source repository up once for each source
    issue, which is once for each creation it attempts. *)
Theorem empty_target_pass_only_creates
  (m : Machine W) (sourceRecords : list Issue.t) (w1 w2 : W) :
  Client.syncIssues source (world m) = (Ok sourceRecords, w1) ->
  Client.syncIssues target w1 = (Ok [], w2) ->
  let trace := events (syncIssues source target m) in
  forallb (fun e => notUpdateIssue e && notCommentOperation e) trace = true
  /\ List.length (filter isGetRepoInfo trace) = List.length sourceRecords.
Proof.
  intros E1 E2.
  destruct (planIssues_values m sourceRecords [] w1 w2 E1 E2)
    as (m2 & Hplan & _).
  cbv zeta in Hplan. cbn [List.length seq] in Hplan.
  set (sourceIssues := seq (nextRef m) (List.length sourceRecords)) in *.
  rewrite (map_ext _ (fun s => IssueComparison.mk s None create)) in Hplan
    by reflexivity.
  cbv zeta.
  rewrite (syncIssues_after_plan source target m _ (f_equal result Hplan)).
  cbv zeta. cbn [events]. split.
  - rewrite !forallb_app. rewrite planIssues_no_update_no_comment.
    rewrite Hplan at 1. cbn [final].
    rewrite processAll_creates_only. reflexivity.
  - rewrite !filter_app, !length_app.
    rewrite (emitsOnly_filter isGetRepoInfo _ m
               (planIssues_no_lookup source target)).
    destruct (processAll_calls source target
                (map (fun s => IssueComparison.mk s None create) sourceIssues)
                (final (planIssues SRC TGT m))) as (_ & -> & _).
    cbn [List.length filter isGetRepoInfo completedLine Nat.add].
    clear. subst sourceIssues. rewrite Nat.add_0_r.
    transitivity (List.length (seq (nextRef m) (List.length sourceRecords)));
      [|apply length_seq].
    generalize (seq (nextRef m) (List.length sourceRecords)).
    induction l as [|s l IH]; cbn; [reflexivity | now rewrite IH].
Qed.

(** X15. A pass over trackers that agree: when every source issue is in
    sync with the target records (the first target record with its title
    has its body, state and labels), the pass ends normally and neither
    creates nor updates an issue, whatever the order of the records. *)
Theorem in_sync_pass_changes_no_issue
  (m : Machine W) (sourceRecords targetRecords : list Issue.t) (w1 w2 : W) :
  Client.syncIssues source (world m) = (Ok sourceRecords, w1) ->
  Client.syncIssues target w1 = (Ok targetRecords, w2) ->
  Forall (inSync targetRecords) sourceRecords ->
  result (syncIssues source target m) = Ok tt
  /\ filter isIssueMutation (events (syncIssues source target m)) = [].
Proof.
  intros E1 E2 Hsync.
  destruct (planIssues_values m sourceRecords targetRecords w1 w2 E1 E2)
    as (m2 & Hplan & _ & Hsrc & Htgt).
  cbv zeta in Hplan.
  set (sourceIssues := seq (nextRef m) (List.length sourceRecords)) in *.
  set (targetIssues := seq (nextRef m + List.length sourceRecords)
                         (List.length targetRecords)) in *.
  rewrite (syncIssues_after_plan source target m _ (f_equal result Hplan)).
  cbv zeta. cbn [result events]. split; [reflexivity|].
  rewrite !filter_app.
  rewrite (emitsOnly_filter isIssueMutation _ m planIssues_no_issue_mutation).
  rewrite processAll_skips; [reflexivity|].
  rewrite <- Hsrc, <- Htgt in Hsync.
  rewrite Forall_map in Hsync. rewrite Forall_map.
  revert Hsync. apply Forall_impl. intros s. apply classify_inSync.
Qed.

End FetchedRecords.

(** Witness of X13: a source without issues against the target of the
    scenarios, whose stale issue leads to no call. *)
Lemma empty_source_pass_is_a_no_op_witness :
  events (syncIssues Scenario.emptySource Scenario.targetClient Scenario.start)
  = [Call Source SyncIssues; Call Target SyncIssues;
     analysisLine; summaryLine []; completedLine].
Proof.
  exact (proj1 (proj2
    (empty_source_pass_is_a_no_op Scenario.emptySource Scenario.targetClient
       Scenario.start [Scenario.bugA_stale] 0%nat 0%nat eq_refl eq_refl))).
Defined.

(** Witness of X14: the two issues of the scenarios against a target
    without issues. *)
Lemma empty_target_pass_only_creates_witness :
  List.length
    (filter isGetRepoInfo
       (events (syncIssues Scenario.sourceClient Scenario.emptyTarget
                  Scenario.start)))
  = 2%nat.
Proof.
  exact (proj2
    (empty_target_pass_only_creates Scenario.sourceClient Scenario.emptyTarget
       Scenario.start [Scenario.bugA; Scenario.bugB] 0%nat 0%nat
       eq_refl eq_refl)).
Defined.

(** Witness of X15: the target has the issues of the source in the other
    order. *)
Lemma in_sync_pass_changes_no_issue_witness :
  filter isIssueMutation
    (events (syncIssues Scenario.sourceClient Scenario.exactMirror
               Scenario.start))
  = [].
Proof.
  refine (proj2
    (in_sync_pass_changes_no_issue Scenario.sourceClient Scenario.exactMirror
       Scenario.start [Scenario.bugA; Scenario.bugB]
       [Scenario.bugB; Scenario.bugA] 0%nat 0%nat eq_refl eq_refl _)).
  repeat constructor.
  - exists Scenario.bugA. repeat split; reflexivity.
  - exists Scenario.bugB. repeat split; reflexivity.
Defined.

(** * The array normaliser of the configuration loader *)

Section Normaliser.
Import Yaml.

(** *** The loop and its body *)

Lemma normalizeYamlArrays_Object proto props :
  normalizeYamlArrays (Object proto props)
  = Object (fst (normalizeProps props emptyObject))
      (snd (normalizeProps props emptyObject)).
Proof.
  cbn [normalizeYamlArrays]. unfold normalizeProps.
  generalize emptyObject.
  induction props as [|[key value] rest IH]; intros result; [reflexivity|].
  cbn [fold_left fst snd]. apply IH.
Qed.

Lemma normalizeEntry_assigns key value result :
  normalizeEntry key value (normalizeYamlArrays value) result
  = assign result key (normalized key value).
Proof.
  unfold normalizeEntry, normalized, arrayLike.
  destruct (key =? "labels"), (truthy value), (typeofObject value),
    (negb (isArray value)); cbn [andb]; try reflexivity.
  destruct (forallb isString (Object_values value)); cbn [andb];
    [|reflexivity].
  destruct (forallb isNumericKey (Object_keys value)); reflexivity.
Qed.

Lemma normalizeProps_cons key value rest result :
  normalizeProps ((key, value) :: rest) result
  = normalizeProps rest (assign result key (normalized key value)).
Proof.
  unfold normalizeProps. cbn [fold_left fst snd].
  now rewrite normalizeEntry_assigns.
Qed.

(** *** Own properties *)

Lemma getOwn_cons key p props :
  getOwn key (p :: props)
  = if fst p =? key then Some (snd p) else getOwn key props.
Proof. unfold getOwn. cbn. now destruct (fst p =? key). Qed.

Lemma hasOwn_getOwn key props :
  hasOwn key props = match getOwn key props with Some _ => true | None => false end.
Proof.
  induction props as [|p props IH]; [reflexivity|].
  rewrite getOwn_cons. cbn. now destruct (fst p =? key).
Qed.

Lemma getOwn_insertIndex_same i key v props :
  hasOwn key props = false ->
  getOwn key (insertIndex i key v props) = Some v.
Proof.
  induction props as [|p props IH]; intros H; cbn.
  - rewrite getOwn_cons. cbn. now rewrite String.eqb_refl.
  - cbn in H. apply orb_false_iff in H as [Hp H].
    destruct (arrayIndex (fst p)) as [j|].
    + destruct (j <? i)%N.
      * rewrite getOwn_cons, Hp. auto.
      * rewrite getOwn_cons. cbn. now rewrite String.eqb_refl.
    + rewrite getOwn_cons. cbn. now rewrite String.eqb_refl.
Qed.

Lemma getOwn_insertIndex_other i key k v props :
  k <> key ->
  getOwn key (insertIndex i k v props) = getOwn key props.
Proof.
  intros Hk. apply String.eqb_neq in Hk.
  induction props as [|p props IH]; cbn.
  - rewrite getOwn_cons. cbn. now rewrite Hk.
  - destruct (arrayIndex (fst p)) as [j|].
    + destruct (j <? i)%N.
      * rewrite !getOwn_cons. now rewrite IH.
      * rewrite (getOwn_cons key (k, v)). cbn [fst]. now rewrite Hk.
    + rewrite (getOwn_cons key (k, v)). cbn [fst]. now rewrite Hk.
Qed.

Lemma getOwn_app key l1 l2 :
  getOwn key (l1 ++ l2)%list
  = match getOwn key l1 with Some v => Some v | None => getOwn key l2 end.
Proof.
  induction l1 as [|p l1 IH]; [reflexivity|].
  cbn [app]. rewrite !getOwn_cons. now destruct (fst p =? key).
Qed.

Lemma getOwn_defineProp_same key v props :
  getOwn key (defineProp key v props) = Some v.
Proof.
  unfold defineProp. destruct (hasOwn key props) eqn:H.
  - induction props as [|p props IH]; [discriminate|].
    cbn in H. cbn [map]. rewrite getOwn_cons.
    destruct (fst p =? key) eqn:E; cbn [fst snd].
    + now rewrite E.
    + rewrite E. apply IH. exact H.
  - destruct (arrayIndex key) as [i|].
    + now apply getOwn_insertIndex_same.
    + rewrite getOwn_app. rewrite hasOwn_getOwn in H.
      destruct (getOwn key props); [discriminate|].
      rewrite getOwn_cons. cbn. now rewrite String.eqb_refl.
Qed.

Lemma getOwn_defineProp_other key k v props :
  k <> key ->
  getOwn key (defineProp k v props) = getOwn key props.
Proof.
  intros Hk. unfold defineProp. destruct (hasOwn k props).
  - clear - Hk. induction props as [|p props IH]; [reflexivity|].
    cbn [map]. rewrite !getOwn_cons.
    destruct (fst p =? k) eqn:E; cbn [fst snd].
    + apply String.eqb_eq in E. rewrite E.
      apply String.eqb_neq in Hk. now rewrite Hk.
    + now rewrite IH.
  - destruct (arrayIndex k) as [i|].
    + now apply getOwn_insertIndex_other.
    + rewrite getOwn_app. destruct (getOwn key props); [reflexivity|].
      rewrite getOwn_cons. cbn. apply String.eqb_neq in Hk. now rewrite Hk.
Qed.

Lemma getOwn_setPrototype key v result :
  getOwn key (snd (setPrototype v result)) = getOwn key (snd result).
Proof. now destruct v. Qed.

Lemma getOwn_assign_other key k v result :
  k <> key ->
  getOwn key (snd (assign result k v)) = getOwn key (snd result).
Proof.
  intros Hk. unfold assign.
  destruct ((k =? "__proto__") && negb (hasOwn k (snd result))
            && reachesSetter (fst result)).
  - apply getOwn_setPrototype.
  - now apply getOwn_defineProp_other.
Qed.

Lemma getOwn_assign_same key v result :
  key <> "__proto__" ->
  getOwn key (snd (assign result key v)) = Some v.
Proof.
  intros Hk. unfold assign. apply String.eqb_neq in Hk. rewrite Hk.
  cbn [andb snd]. apply getOwn_defineProp_same.
Qed.

(** *** Enumeration order *)

Lemma keyBefore_neq k k' : keyBefore k k' = true -> k <> k'.
Proof.
  unfold keyBefore. intros H ->.
  destruct (arrayIndex k') as [i|].
  - apply N.ltb_lt in H. lia.
  - now rewrite String.eqb_refl in H.
Qed.

Lemma enumerable_absent k rest (props : list (string * any)) :
  map fst props = rest ->
  forallb (keyBefore k) rest = true ->
  getOwn k props = None.
Proof.
  intros <-. induction props as [|p props IH]; [reflexivity|].
  cbn. rewrite andb_true_iff. intros [Hp H].
  rewrite getOwn_cons. apply keyBefore_neq in Hp.
  assert (E : (fst p =? k) = false) by (apply String.eqb_neq; congruence).
  rewrite E. auto.
Qed.

Lemma enumerable_app l1 l2 :
  enumerable (l1 ++ l2)%list
  = enumerable l1 && enumerable l2
    && forallb (fun k => forallb (keyBefore k) l2) l1.
Proof.
  induction l1 as [|k l1 IH]; cbn.
  - now rewrite andb_true_r.
  - rewrite forallb_app, IH.
    destruct (forallb (keyBefore k) l1), (enumerable l1), (enumerable l2),
      (forallb (keyBefore k) l2); reflexivity.
Qed.

(** A key that comes after all the keys of an object is appended. *)
Lemma defineProp_appends key v (props : list (string * any)) :
  forallb (fun k => keyBefore k key) (map fst props) = true ->
  defineProp key v props = (props ++ [(key, v)])%list.
Proof.
  intros H. unfold defineProp.
  assert (Habsent : hasOwn key props = false).
  { induction props as [|p props IH]; [reflexivity|].
    cbn in H |- *. apply andb_true_iff in H as [Hp H].
    apply keyBefore_neq in Hp. apply String.eqb_neq in Hp. rewrite Hp.
    auto. }
  rewrite Habsent. destruct (arrayIndex key) as [i|] eqn:Ei; [|reflexivity].
  clear Habsent. induction props as [|p props IH]; [reflexivity|].
  cbn in H |- *. apply andb_true_iff in H as [Hp H].
  unfold keyBefore in Hp. rewrite Ei in Hp.
  destruct (arrayIndex (fst p)) as [j|]; [|discriminate].
  rewrite Hp. now rewrite IH.
Qed.

(** *** The loop on plain data *)

Lemma normalizeProps_plain (rest : list (string * any)) :
  forall proto (done : list (string * any)),
    enumerable (map fst done ++ map fst rest)%list = true ->
    hasOwn "__proto__" rest = false ->
    normalizeProps rest (proto, done)
    = (proto, (done ++ map normalizedEntry rest)%list).
Proof.
  induction rest as [|[key value] rest IH]; intros proto done He Hp.
  - cbn. now rewrite app_nil_r.
  - rewrite normalizeProps_cons. cbn in Hp.
    apply orb_false_iff in Hp as [Hkey Hp].
    unfold assign. rewrite Hkey. cbn [andb fst snd].
    rewrite defineProp_appends.
    + rewrite IH; [|rewrite map_app; cbn [map fst]| exact Hp].
      * now rewrite <- app_assoc.
      * now rewrite <- app_assoc.
    + cbn [map fst] in He. rewrite enumerable_app in He.
      apply andb_true_iff in He as [_ He].
      clear - He. induction (map fst done) as [|k l IHl]; [reflexivity|].
      cbn in He |- *. apply andb_true_iff in He as [Hk He].
      apply andb_true_iff in Hk as [Hk _]. rewrite Hk. auto.
Qed.

Lemma map_fst_normalizedEntry props :
  map fst (map normalizedEntry props) = map fst props.
Proof. rewrite map_map. reflexivity. Qed.

Lemma hasOwn_normalizedEntry key props :
  hasOwn key (map normalizedEntry props) = hasOwn key props.
Proof.
  unfold hasOwn. induction props as [|p props IH]; [reflexivity|].
  cbn. now rewrite IH.
Qed.

Lemma normalizeYamlArrays_plain proto props :
  enumerable (map fst props) = true ->
  hasOwn "__proto__" props = false ->
  normalizeYamlArrays (Object proto props)
  = Object ObjectPrototype (map normalizedEntry props).
Proof.
  intros He Hp. rewrite normalizeYamlArrays_Object. unfold emptyObject.
  rewrite normalizeProps_plain by assumption. reflexivity.
Qed.

(** *** One property of the result *)

Lemma normalizeProps_getOwn key (rest : list (string * any)) :
  key <> "__proto__" ->
  enumerable (map fst rest) = true ->
  forall result,
    getOwn key (snd (normalizeProps rest result))
    = match getOwn key rest with
      | Some value => Some (normalized key value)
      | None => getOwn key (snd result)
      end.
Proof.
  intros Hkey. induction rest as [|[k v] rest IH]; intros He result.
  - reflexivity.
  - rewrite normalizeProps_cons. cbn [map fst enumerable] in He.
    apply andb_true_iff in He as [Hk He].
    rewrite IH by exact He. rewrite getOwn_cons. cbn [fst snd].
    destruct (k =? key) eqn:E.
    + apply String.eqb_eq in E. subst k.
      rewrite (enumerable_absent key (map fst rest) rest eq_refl Hk).
      now apply getOwn_assign_same.
    + apply String.eqb_neq in E.
      destruct (getOwn key rest); [reflexivity|].
      now apply getOwn_assign_other.
Qed.

Lemma getOwn_In key value (props : list (string * any)) :
  enumerable (map fst props) = true ->
  In (key, value) props ->
  getOwn key props = Some value.
Proof.
  induction props as [|p props IH]; intros He Hin; [contradiction|].
  cbn [map enumerable] in He. apply andb_true_iff in He as [Hp He].
  rewrite getOwn_cons. destruct Hin as [-> | Hin].
  - cbn. now rewrite String.eqb_refl.
  - specialize (IH He Hin).
    pose proof (enumerable_absent (fst p) (map fst props) props eq_refl Hp)
      as Habsent.
    destruct (fst p =? key) eqn:E; [|exact IH].
    apply String.eqb_eq in E. subst key. congruence.
Qed.

(** *** The property [__proto__] *)

Lemma normalizeProps_without_proto (rest : list (string * any)) :
  hasOwn "__proto__" rest = false ->
  forall result,
    fst (normalizeProps rest result) = fst result
    /\ getOwn "__proto__" (snd (normalizeProps rest result))
       = getOwn "__proto__" (snd result).
Proof.
  induction rest as [|[k v] rest IH]; intros H result; [now split|].
  rewrite normalizeProps_cons. cbn in H.
  apply orb_false_iff in H as [Hk H].
  destruct (IH H (assign result k (normalized k v))) as [-> ->].
  split.
  - unfold assign. now rewrite Hk.
  - apply getOwn_assign_other. now apply String.eqb_neq.
Qed.

Lemma normalizeProps_with_proto value (rest : list (string * any)) :
  enumerable (map fst rest) = true ->
  In ("__proto__", value) rest ->
  forall done,
    getOwn "__proto__" done = None ->
    fst (normalizeProps rest (ObjectPrototype, done))
    = prototypeFrom (normalizeYamlArrays value)
    /\ getOwn "__proto__" (snd (normalizeProps rest (ObjectPrototype, done)))
       = None.
Proof.
  induction rest as [|[k v] rest IH]; intros He Hin done Hdone;
    [contradiction|].
  rewrite normalizeProps_cons. cbn [map fst enumerable] in He.
  apply andb_true_iff in He as [Hk He].
  pose proof (enumerable_absent k (map fst rest) rest eq_refl Hk) as Habsent.
  destruct (k =? "__proto__") eqn:E.
  - apply String.eqb_eq in E. subst k.
    assert (v = value) as ->.
    { destruct Hin as [Heq | Hin]; [congruence|].
      rewrite (getOwn_In _ _ _ He Hin) in Habsent. discriminate. }
    assert (Hno : hasOwn "__proto__" rest = false)
      by (rewrite hasOwn_getOwn, Habsent; reflexivity).
    destruct (normalizeProps_without_proto rest Hno
                (assign (ObjectPrototype, done) "__proto__"
                   (normalized "__proto__" value))) as [-> ->].
    unfold assign. cbn [fst snd]. rewrite hasOwn_getOwn, Hdone.
    cbn [String.eqb Ascii.eqb Bool.eqb andb negb reachesSetter].
    unfold normalized. cbn [String.eqb Ascii.eqb Bool.eqb andb].
    split.
    + now destruct (normalizeYamlArrays value).
    + rewrite getOwn_setPrototype. exact Hdone.
  - destruct Hin as [Heq | Hin].
    { injection Heq as -> _. discriminate. }
    unfold assign. rewrite E. cbn [andb fst snd].
    apply IH; [exact He | exact Hin |].
    rewrite getOwn_defineProp_other; [exact Hdone|].
    now apply String.eqb_neq.
Qed.

(** *** Normal forms *)

Lemma isString_normalizeYamlArrays v :
  isString (normalizeYamlArrays v) = isString v.
Proof. destruct v; reflexivity. Qed.

Lemma forallb_map_ext {A B : Type} (p : B -> bool) (q : A -> bool)
  (f : A -> B) (l : list A) :
  (forall x, In x l -> p (f x) = q x) ->
  forallb p (map f l) = forallb q l.
Proof.
  induction l as [|x l IH]; intros H; [reflexivity|].
  cbn. rewrite (H x (or_introl eq_refl)). f_equal.
  apply IH. intros y Hy. apply H. now right.
Qed.

Lemma arrayLike_Object proto props :
  arrayLike (Object proto props)
  = forallb isString (map snd props) && forallb isNumericKey (map fst props).
Proof. reflexivity. Qed.

Lemma arrayLike_is_object v :
  arrayLike v = true -> exists proto props, v = Object proto props.
Proof.
  destruct v; unfold arrayLike; cbn [typeofObject isArray negb];
    rewrite ?andb_false_r; cbn [andb]; try discriminate.
  intros _. eauto.
Qed.

Lemma isString_normalized key value :
  isString (normalized key value) = isString value.
Proof.
  unfold normalized. destruct ((key =? "labels") && arrayLike value) eqn:E.
  - apply andb_true_iff in E as [_ E].
    destruct (arrayLike_is_object _ E) as (proto & props & ->). reflexivity.
  - apply isString_normalizeYamlArrays.
Qed.

Lemma arrayLike_normalizeYamlArrays v :
  plainData v = true ->
  arrayLike (normalizeYamlArrays v) = arrayLike v.
Proof.
  destruct v as [| | | | |items|proto props]; try reflexivity.
  cbn [plainData]. rewrite !andb_true_iff. intros [[He Hp] _].
  apply negb_true_iff in Hp.
  rewrite normalizeYamlArrays_plain by assumption.
  rewrite !arrayLike_Object, map_fst_normalizedEntry. f_equal.
  rewrite map_map.
  rewrite (forallb_map_ext isString (fun p => isString (snd p)) _ props)
    by (intros p _; apply isString_normalized).
  symmetry. now apply forallb_map_ext.
Qed.

Lemma normalForm_strings (l : list any) :
  forallb isString l = true -> forallb normalForm l = true.
Proof.
  induction l as [|v l IH]; [reflexivity|]. cbn.
  rewrite andb_true_iff. intros [Hv Hl].
  destruct v; try discriminate. cbn. auto.
Qed.

(** The result of the normaliser is in normal form. *)
Lemma normalForm_normalizeYamlArrays v :
  plainData v = true -> normalForm (normalizeYamlArrays v) = true.
Proof.
  induction v as [| | | | |items IH|proto props IH] using any_induction;
    try reflexivity.
  - cbn [plainData normalizeYamlArrays normalForm]. intros H.
    rewrite (forallb_map_ext _ (fun _ => true)).
    + clear. now induction items.
    + rewrite forallb_forall in H. rewrite Forall_forall in IH. auto.
  - cbn [plainData]. rewrite !andb_true_iff. intros [[He Hp] Hv].
    apply negb_true_iff in Hp.
    rewrite normalizeYamlArrays_plain by assumption.
    cbn [normalForm]. rewrite map_fst_normalizedEntry, He.
    rewrite hasOwn_normalizedEntry, Hp. cbn [negb andb].
    rewrite (forallb_map_ext _ (fun _ => true));
      [clear; now induction props|].
    rewrite forallb_forall in Hv. rewrite Forall_forall in IH.
    intros p Hin.
    specialize (IH p Hin (Hv p Hin)). specialize (Hv p Hin).
    unfold normalizedEntry. cbn [fst snd]. unfold normalized.
    destruct ((fst p =? "labels") && arrayLike (snd p)) eqn:E.
    + apply andb_true_iff in E as [-> E]. cbn [andb].
      unfold arrayLike in E. rewrite !andb_true_iff in E.
      destruct E as [[_ Hs] _].
      change (forallb normalForm (Object_values (snd p)) = true).
      now apply normalForm_strings.
    + rewrite IH, andb_true_r.
      rewrite arrayLike_normalizeYamlArrays by exact Hv. now rewrite E.
Qed.

(** A value in normal form is what the normaliser makes of it. *)
Lemma normalForm_fixed v :
  normalForm v = true -> normalizeYamlArrays v = v.
Proof.
  induction v as [| | | | |items IH|proto props IH] using any_induction;
    try reflexivity.
  - cbn [normalForm normalizeYamlArrays]. intros H. f_equal.
    rewrite <- (map_id items) at 2. apply map_ext_in. intros x Hx.
    rewrite forallb_forall in H. rewrite Forall_forall in IH. auto.
  - destruct proto; try discriminate.
    cbn [normalForm]. rewrite !andb_true_iff. intros [[He Hp] Hv].
    apply negb_true_iff in Hp.
    rewrite normalizeYamlArrays_plain by assumption. f_equal.
    rewrite <- (map_id props) at 2. apply map_ext_in. intros p Hin.
    rewrite forallb_forall in Hv. rewrite Forall_forall in IH.
    specialize (Hv p Hin). apply andb_true_iff in Hv as [Hl Hn].
    apply negb_true_iff in Hl.
    unfold normalizedEntry, normalized. rewrite Hl, (IH p Hin Hn).
    now destruct p.
Qed.

Lemma map_fixed {A : Type} (f : A -> A) (l : list A) :
  map f l = l -> forall x, In x l -> f x = x.
Proof.
  induction l as [|y l IH]; intros H x Hin; [contradiction|].
  cbn in H. injection H as Hy Hl.
  destruct Hin as [<- | Hin]; auto.
Qed.

(** A plain value the normaliser leaves as it is, is in normal form. *)
Lemma fixed_normalForm v :
  plainData v = true -> normalizeYamlArrays v = v -> normalForm v = true.
Proof.
  induction v as [| | | | |items IH|proto props IH] using any_induction;
    try reflexivity.
  - cbn [plainData normalizeYamlArrays normalForm]. intros H Hfix.
    injection Hfix as Hfix.
    rewrite forallb_forall in H |- *. rewrite Forall_forall in IH.
    intros x Hx. apply IH; auto. now apply (map_fixed _ _ Hfix).
  - cbn [plainData]. rewrite !andb_true_iff. intros [[He Hp] Hv] Hfix.
    apply negb_true_iff in Hp.
    rewrite normalizeYamlArrays_plain in Hfix by assumption.
    injection Hfix as <- Hfix.
    cbn [normalForm]. rewrite He, Hp. cbn [negb andb].
    rewrite forallb_forall in Hv |- *. rewrite Forall_forall in IH.
    intros p Hin. pose proof (map_fixed _ _ Hfix p Hin) as Hpfix.
    unfold normalizedEntry, normalized in Hpfix.
    destruct ((fst p =? "labels") && arrayLike (snd p)) eqn:E.
    + apply andb_true_iff in E as [_ E].
      destruct (arrayLike_is_object _ E) as (proto' & props' & Hobj).
      destruct p as [k v]. cbn [fst snd] in *. subst v.
      injection Hpfix as Hpfix. discriminate.
    + cbn [negb andb]. apply IH; auto.
      destruct p as [k v]. cbn [fst snd] in *. congruence.
Qed.


(** X16. A [labels] property whose value is an object with string values
    under keys made of digits only becomes the array of these values, in
    the order the object enumerates them; an empty object becomes the empty
    array. *)
Theorem numbered_labels_become_a_list
  (proto labelsProto : Prototype any) (props labels : list (string * any)) :
  enumerable (map fst props) = true ->
  In ("labels", Object labelsProto labels) props ->
  forallb isString (map snd labels) = true ->
  forallb isNumericKey (map fst labels) = true ->
  getOwn "labels" (Object_entries (normalizeYamlArrays (Object proto props)))
  = Some (Array (map snd labels)).
Proof.
  intros He Hin Hs Hk. rewrite normalizeYamlArrays_Object.
  cbn [Object_entries].
  rewrite normalizeProps_getOwn by (assumption || discriminate).
  rewrite (getOwn_In _ _ _ He Hin).
  unfold normalized. rewrite arrayLike_Object, Hs, Hk. reflexivity.
Qed.

(** X17. On an object without [__proto__] property the normaliser neither
    adds, removes nor reorders a property, and the result is an ordinary
    object whatever the prototype of the given one. A property of the
    result is a string exactly where it was one before. *)
Theorem keys_and_order_are_kept
  (proto : Prototype any) (props : list (string * any)) :
  enumerable (map fst props) = true ->
  hasOwn "__proto__" props = false ->
  exists props',
    normalizeYamlArrays (Object proto props) = Object ObjectPrototype props'
    /\ map fst props' = map fst props
    /\ map isString (map snd props') = map isString (map snd props).
Proof.
  intros He Hp. exists (map normalizedEntry props).
  split; [now apply normalizeYamlArrays_plain|].
  split; [apply map_fst_normalizedEntry|].
  rewrite !map_map. apply map_ext. intros p. apply isString_normalized.
Qed.

(** X18. A property [__proto__] is never copied: the assignment reaches the
    setter every ordinary object inherits, so the result has no such
    property of its own, and its prototype is the normalised value when
    that is an object or an array, no prototype when it is [null], and the
    ordinary one otherwise. *)
Theorem proto_key_becomes_the_prototype
  (proto : Prototype any) (props : list (string * any)) (value : any) :
  enumerable (map fst props) = true ->
  In ("__proto__", value) props ->
  exists props',
    normalizeYamlArrays (Object proto props)
    = Object (prototypeFrom (normalizeYamlArrays value)) props'
    /\ hasOwn "__proto__" props' = false.
Proof.
  intros He Hin. rewrite normalizeYamlArrays_Object.
  destruct (normalizeProps_with_proto value props He Hin [] eq_refl)
    as [Hproto Hown].
  eexists. split.
  - unfold emptyObject. rewrite Hproto. reflexivity.
  - rewrite hasOwn_getOwn. unfold emptyObject. now rewrite Hown.
Qed.

(** X19. The values the normaliser leaves as they are: a plain value
    (objects enumerate their properties in order and have none named
    [__proto__]) is returned unchanged exactly when it is in normal form,
    that is when all its objects are ordinary and none has a [labels]
    property that is an object of strings under numbered keys. *)
Theorem unchanged_iff_normalForm (v : any) :
  plainData v = true ->
  normalizeYamlArrays v = v <-> normalForm v = true.
Proof.
  intros H. split.
  - now apply fixed_normalForm.
  - apply normalForm_fixed.
Qed.

(** X20. On plain values the normaliser is idempotent: its result is in
    normal form, so normalising a second time changes nothing. *)
Theorem normalizeYamlArrays_idempotent (v : any) :
  plainData v = true ->
  normalForm (normalizeYamlArrays v) = true
  /\ normalizeYamlArrays (normalizeYamlArrays v) = normalizeYamlArrays v.
Proof.
  intros H. pose proof (normalForm_normalizeYamlArrays v H) as Hn.
  split; [exact Hn|]. now apply normalForm_fixed.
Qed.


(** Witness of X16: the labels of the issues section. *)
Lemma numbered_labels_become_a_list_witness :
  getOwn "labels"
    (Object_entries (normalizeYamlArrays (Object ObjectPrototype issuesSection)))
  = Some (Array [Str "bug"; Str "ui"]).
Proof.
  exact (numbered_labels_become_a_list ObjectPrototype ObjectPrototype
           issuesSection [("0", Str "bug"); ("1", Str "ui")]
           eq_refl (or_intror (or_introl eq_refl)) eq_refl eq_refl).
Defined.

(** Witness of X17: the issues section keeps its two keys. *)
Lemma keys_and_order_are_kept_witness :
  exists props',
    normalizeYamlArrays (Object NullPrototype issuesSection)
    = Object ObjectPrototype props'
    /\ map fst props' = ["enabled"; "labels"]
    /\ map isString (map snd props') = [false; false].
Proof.
  exact (keys_and_order_are_kept NullPrototype issuesSection eq_refl eq_refl).
Defined.

(** Witness of X18: the object under [__proto__] becomes the prototype,
    after its own labels were normalised. *)
Lemma proto_key_becomes_the_prototype_witness :
  exists props',
    normalizeYamlArrays (Object ObjectPrototype pollutedSection)
    = Object
        (Inherits
           (Object ObjectPrototype [("labels", Array [Str "bug"; Str "ui"])]))
        props'
    /\ hasOwn "__proto__" props' = false.
Proof.
  exact (proto_key_becomes_the_prototype ObjectPrototype pollutedSection
           (Object ObjectPrototype [("labels", numberedLabels)])
           eq_refl (or_intror (or_introl eq_refl))).
Defined.

(** Witness of X19: a document in normal form, and one that is not. *)
Lemma unchanged_iff_normalForm_witness :
  normalizeYamlArrays normalDocument = normalDocument
  /\ normalForm document = false.
Proof.
  split.
  - exact (proj2 (unchanged_iff_normalForm normalDocument eq_refl) eq_refl).
  - reflexivity.
Defined.

(** Witness of X20: the document is normalised by one pass. *)
Lemma normalizeYamlArrays_idempotent_witness :
  normalizeYamlArrays document = normalDocument
  /\ normalizeYamlArrays (normalizeYamlArrays document)
     = normalizeYamlArrays document.
Proof.
  split.
  - reflexivity.
  - exact (proj2 (normalizeYamlArrays_idempotent document eq_refl)).
Defined.

(** The hypothesis of X20 cannot be dropped: a property [__proto__] that is
    not copied can leave labels that only the second pass converts. *)
Example proto_key_defeats_idempotence :
  plainData pollutedLabels = false
  /\ normalizeYamlArrays pollutedLabels
     = Object ObjectPrototype
         [("labels", Object ObjectPrototype [("0", Str "bug")])]
  /\ normalizeYamlArrays (normalizeYamlArrays pollutedLabels)
     = Object ObjectPrototype [("labels", Array [Str "bug"])].
Proof. repeat split. Qed.

End Normaliser.
